(** * goraft: the consensus node and its three persistent stores

    A shallow embedding of the Go sources of the Raft library: the state
    storage ([state_storage.go]), the log ([log.go]), the snapshot storage
    ([snapshot_storage.go]) and the protocol handlers and loops of
    [raft.go], followed by the properties proved about them.

    Conventions of the embedding:
    - a [uint64] is a [Z] in [0, 2^64); every addition and subtraction of
      the source is written with [U64.add] / [U64.sub], which wrap;
    - a method with a pointer receiver is a computation in the monad
      [M S], whose state [S] holds the receiver and the file system; the
      state survives an error return, as the mutations of the receiver do
      in Go;
    - a Go [error] result is the [Err] outcome, a runtime panic is [Panic]
      and a call of [logger.Fatalf], which ends the process, is [Fatal];
    - the operating system is the record [World]: the files by path, a
      schedule of injected I/O faults and the counter behind
      [os.CreateTemp]. *)

From stdpp Require Import gmap strings list fin_maps pretty.
From Stdlib Require Import ZArith Lia.
From Stdlib.Strings Require Import Byte.

Local Open Scope Z_scope.

(** ** Machine integers *)

Module U64.
Definition modulus : Z := 2 ^ 64.
Definition max : Z := modulus - 1.
Definition wrap (z : Z) : Z := z mod modulus.
Definition add (a b : Z) : Z := wrap (a + b).
Definition sub (a b : Z) : Z := wrap (a - b).
Definition valid (z : Z) : Prop := 0 <= z < modulus.
End U64.

(** [int32(len(buf))] and the big-endian four bytes [binary.Write] emits
    for it. *)
Module I32.
Definition of_Z (z : Z) : Z :=
  let m := z mod 2 ^ 32 in if m <? 2 ^ 31 then m else m - 2 ^ 32.

Definition byte_of_Z (z : Z) : byte :=
  default x00 (Byte.of_N (Z.to_N (z mod 256))).

Definition Z_of_byte (b : byte) : Z := Z.of_N (Byte.to_N b).

Definition to_be (z : Z) : list byte :=
  let m := z mod 2 ^ 32 in
  [byte_of_Z (m / 2 ^ 24); byte_of_Z (m / 2 ^ 16);
   byte_of_Z (m / 2 ^ 8); byte_of_Z m].

Definition of_be (bs : list byte) : Z :=
  match bs with
  | [b3; b2; b1; b0] =>
      of_Z (Z_of_byte b3 * 2 ^ 24 + Z_of_byte b2 * 2 ^ 16
            + Z_of_byte b1 * 2 ^ 8 + Z_of_byte b0)
  | _ => 0
  end.
End I32.

(** ** Errors, outcomes and the state-and-failure monad *)

(** The error values of the package ([errors.New] at the top of each
    file), the errors of [io] and [os] the sources compare against or pass
    on, and [errors.WrapError]. *)
Inductive error : Type :=
| errStateStorageNotOpen
| errLogNotOpen
| errIndexDoesNotExist
| errSnapshotStoreNotOpen
| errShutdown
| EOF
| ErrUnexpectedEOF
| ErrClosed
| ErrInvalid
| ErrNotExist
| ErrIO
| ErrMarshal
| WrapError (cause : error) (msg : string).

#[global] Instance error_eq_dec : EqDecision error.
Proof. solve_decision. Defined.

Inductive outcome (A : Type) : Type :=
| Ok (a : A)
| Err (e : error)
| Panic
| Fatal.
Arguments Ok {A} a.
Arguments Err {A} e.
Arguments Panic {A}.
Arguments Fatal {A}.

Definition M (S A : Type) : Type := S -> outcome A * S.

Definition ret {S A} (a : A) : M S A := fun s => (Ok a, s).

Definition bind {S A B} (m : M S A) (k : A -> M S B) : M S B :=
  fun s =>
    match m s with
    | (Ok a, s') => k a s'
    | (Err e, s') => (Err e, s')
    | (Panic, s') => (Panic, s')
    | (Fatal, s') => (Fatal, s')
    end.

Declare Scope go_scope.
Delimit Scope go_scope with go.
Notation "'let!' x ':=' m 'in' k" := (bind m (fun x => k))
  (at level 10, x name, m at level 100, k at level 200) : go_scope.
Notation "'run' m 'in' k" := (bind m (fun _ => k))
  (at level 10, m at level 100, k at level 200) : go_scope.
Local Open Scope go_scope.

Definition fail {S A} (e : error) : M S A := fun s => (Err e, s).
Definition panic {S A} : M S A := fun s => (Panic, s).
Definition get {S} : M S S := fun s => (Ok s, s).
Definition gets {S A} (f : S -> A) : M S A := fun s => (Ok (f s), s).
Definition put {S} (s : S) : M S unit := fun _ => (Ok tt, s).
Definition modify {S} (f : S -> S) : M S unit := fun s => (Ok tt, f s).

(** [if err != nil { return errors.WrapError(err, msg) }] *)
Definition wrapE {S A} (msg : string) (m : M S A) : M S A :=
  fun s =>
    match m s with
    | (Err e, s') => (Err (WrapError e msg), s')
    | r => r
    end.

(** [x, err := f()] where the caller inspects [err] itself. *)
Definition attempt {S A} (m : M S A) : M S (A + error) :=
  fun s =>
    match m s with
    | (Ok a, s') => (Ok (inl a), s')
    | (Err e, s') => (Ok (inr e), s')
    | (Panic, s') => (Panic, s')
    | (Fatal, s') => (Fatal, s')
    end.

(** [if err != nil { logger.Fatalf(...) }]: the process exits. *)
Definition orFatal {S A} (m : M S A) : M S A :=
  fun s =>
    match m s with
    | (Err _, s') => (Fatal, s')
    | r => r
    end.

(** A computation that never returns an error to its caller. *)
Definition noErr {S A} (m : M S A) : Prop :=
  forall s e s', m s <> (Err e, s').

(** Run a computation on a component of the state. *)
Definition zoom {S T A} (proj : S -> T) (upd : T -> S -> S) (m : M T A)
  : M S A :=
  fun s => let '(r, t) := m (proj s) in (r, upd t s).

(** ** The operating system: files, descriptors, injected faults *)

(** An open file description: the path it was opened at, the I/O offset
    and whether [Close] has been called on it.  The sources close every
    descriptor of a path before they rename over it, so the path names the
    file for as long as the descriptor is in use. *)
Record FD : Type := mkFD { fd_name : string; fd_pos : nat; fd_closed : bool }.

(** A [*os.File] is the identifier of a descriptor; [nil] is [None] where
    the sources use a nilable field. *)
Abbreviation File := nat.

Record World : Type := mkWorld {
  files : gmap string (list byte);
  fds : gmap nat FD;
  faults : list nat;
  tmp_seq : nat
}.

Definition set_files (fs : gmap string (list byte)) (w : World) : World :=
  mkWorld fs (fds w) (faults w) (tmp_seq w).
Definition set_fds (d : gmap nat FD) (w : World) : World :=
  mkWorld (files w) d (faults w) (tmp_seq w).
Definition set_faults (l : list nat) (w : World) : World :=
  mkWorld (files w) (fds w) l (tmp_seq w).

(** The fault schedule: [n :: l] lets [n] system calls succeed and makes
    the next one fail, then continues with [l]; the empty schedule injects
    no fault. *)
Definition syscall : M World unit :=
  fun w =>
    match faults w with
    | [] => (Ok tt, w)
    | O :: l => (Err ErrIO, set_faults l w)
    | S n :: l => (Ok tt, set_faults (n :: l) w)
    end.

Definition reliable (w : World) : Prop := faults w = [].

Definition Join (dir base : string) : string := dir +:+ "/" +:+ base.

Definition fresh_fd (w : World) : nat := fresh (dom (fds w) : gset nat).

Definition alloc_fd (name : string) : M World File :=
  fun w =>
    let id := fresh_fd w in
    (Ok id, set_fds (<[id := mkFD name 0 false]> (fds w)) w).

(** [os.OpenFile(name, O_RDWR|O_CREATE, perm)] when [create] is set and
    [os.OpenFile(name, O_RDWR, perm)] otherwise. *)
Definition os_OpenFile (name : string) (create : bool) : M World File :=
  run syscall in
  let! w := get in
  match files w !! name with
  | Some _ => alloc_fd name
  | None =>
      if create
      then run put (set_files (<[name := []]> (files w)) w) in alloc_fd name
      else fail ErrNotExist
  end.

(** [os.CreateTemp(dir, prefix)]: a new, empty file whose name the system
    chooses; the counter [tmp_seq] stands for that choice. *)
Definition os_CreateTemp (dir prefix : string) : M World File :=
  run syscall in
  let! w := get in
  let name := Join dir (prefix +:+ pretty (tmp_seq w)) in
  run put (mkWorld (<[name := []]> (files w)) (fds w) (faults w) (S (tmp_seq w))) in
  alloc_fd name.

Definition the_fd (f : File) : M World FD :=
  let! w := get in
  match fds w !! f with
  | None => fail ErrInvalid
  | Some d => if fd_closed d then fail ErrClosed else ret d
  end.

Definition put_fd (f : File) (d : FD) : M World unit :=
  modify (fun w => set_fds (<[f := d]> (fds w)) w).

Definition contents (d : FD) : M World (list byte) :=
  let! w := get in
  match files w !! fd_name d with
  | None => fail ErrNotExist
  | Some c => ret c
  end.

(** Bytes written at offset [pos]; a gap past the end reads as zeros. *)
Definition overwrite (pos : nat) (bs c : list byte) : list byte :=
  take pos c ++ replicate (pos - length c)%nat x00 ++ bs
  ++ drop (pos + length bs)%nat c.

Definition file_Name (f : File) : M World string :=
  let! w := get in
  match fds w !! f with
  | None => fail ErrInvalid
  | Some d => ret (fd_name d)
  end.

Definition file_Write (f : File) (bs : list byte) : M World unit :=
  let! d := the_fd f in
  run syscall in
  let! c := contents d in
  run modify (fun w => set_files (<[fd_name d := overwrite (fd_pos d) bs c]> (files w)) w) in
  put_fd f (mkFD (fd_name d) (fd_pos d + length bs)%nat false).

Definition file_Sync (f : File) : M World unit :=
  run the_fd f in syscall.

(** [Close] marks the descriptor closed even when the system call
    reports an error. *)
Definition file_Close (f : File) : M World unit :=
  let! d := the_fd f in
  run put_fd f (mkFD (fd_name d) (fd_pos d) true) in
  syscall.

Inductive whence : Type := SeekStart | SeekCurrent | SeekEnd.

Definition file_Seek (f : File) (offset : nat) (wh : whence) : M World nat :=
  let! d := the_fd f in
  run syscall in
  let! c := contents d in
  let pos := match wh with
             | SeekStart => offset
             | SeekCurrent => (fd_pos d + offset)%nat
             | SeekEnd => (length c + offset)%nat
             end in
  run put_fd f (mkFD (fd_name d) pos false) in
  ret pos.

Definition file_Truncate (f : File) (size : nat) : M World unit :=
  let! d := the_fd f in
  run syscall in
  let! c := contents d in
  modify (fun w =>
    set_files (<[fd_name d := take size c ++ replicate (size - length c)%nat x00]>
                 (files w)) w).

Definition os_Rename (old new : string) : M World unit :=
  run syscall in
  let! w := get in
  match files w !! old with
  | None => fail ErrNotExist
  | Some c => put (set_files (<[new := c]> (delete old (files w))) w)
  end.

(** [io.ReadFull(r, buf)] with [len(buf) = n]: [EOF] when nothing is left,
    [ErrUnexpectedEOF] when fewer than [n] bytes are. *)
Definition io_ReadFull (f : File) (n : nat) : M World (list byte) :=
  if (n =? 0)%nat then ret []
  else
    let! d := the_fd f in
    run syscall in
    let! c := contents d in
    let avail := drop (fd_pos d) c in
    if (length avail =? 0)%nat then fail EOF
    else if (length avail <? n)%nat then
      run put_fd f (mkFD (fd_name d) (fd_pos d + length avail)%nat false) in
      fail ErrUnexpectedEOF
    else
      run put_fd f (mkFD (fd_name d) (fd_pos d + n)%nat false) in
      ret (take n avail).

(** What the success of a call depends on, besides the fault schedule:
    the path and the closed flag of each descriptor, and which files
    exist. *)
Definition fd_shape (w : World) : gmap nat (string * bool) :=
  (fun d => (fd_name d, fd_closed d)) <$> fds w.
Definition file_names (w : World) : gset string := dom (files w).

(** A crash ends the process: its descriptors are gone, the files stay.
    [sched] is the fault schedule the restarted process will meet. *)
Definition crash (sched : list nat) (w : World) : World :=
  mkWorld (files w) ∅ sched (tmp_seq w).

(** A method of a receiver of type [T] runs on the receiver and the world. *)
Definition os {T A} (m : M World A) : M (T * World) A :=
  zoom snd (fun w s => (fst s, w)) m.
Definition self {T} : M (T * World) T := gets fst.
Definition update {T} (f : T -> T) : M (T * World) unit :=
  modify (fun s => (f (fst s), snd s)).

(** ** Record framing ([encoding.go])

    [proto.Marshal] and [proto.Unmarshal] belong to the protobuf library;
    a message type comes with them as an instance of [ProtoCodec]. *)
Class ProtoCodec (A : Type) : Type := {
  Marshal : A -> option (list byte);
  Unmarshal : list byte -> option A
}.

(** [Encode(w, x)]: marshal, then write the length as a big-endian
    [int32], then the payload.  [write] is the [Write] of the [io.Writer]. *)
Definition Encode {S A} `{ProtoCodec A} (write : list byte -> M S unit)
    (x : A) : M S unit :=
  match Marshal x with
  | None => fail ErrMarshal
  | Some buf =>
      let size := I32.of_Z (Z.of_nat (length buf)) in
      run write (I32.to_be size) in
      write buf
  end.

(** [Decode(r)]: read the length, allocate (a negative length panics in
    [make]), read the payload, unmarshal. *)
Definition Decode {A} `{ProtoCodec A} (f : File) : M World A :=
  let! hdr := io_ReadFull f 4 in
  let size := I32.of_be hdr in
  if size <? 0 then panic
  else
    let! buf := io_ReadFull f (Z.to_nat size) in
    match Unmarshal buf with
    | None => fail ErrMarshal
    | Some x => ret x
    end.

(** [bufio.Writer] over a file, with its default buffer of 4096 bytes:
    a write that fits is kept in the buffer, one that does not goes
    through to the file together with what is buffered. *)
Definition bufio_Write (f : File) (bs : list byte) : M (list byte * World) unit :=
  let! buffered := self in
  if (length buffered + length bs <=? 4096)%nat
  then update (fun _ => buffered ++ bs)
  else
    run os (file_Write f (buffered ++ bs)) in
    update (fun _ => []).

Definition bufio_Flush (f : File) : M (list byte * World) unit :=
  let! buffered := self in
  match buffered with
  | [] => ret tt
  | _ =>
      run os (file_Write f buffered) in
      update (fun _ => [])
  end.

(** ** The state storage ([state_storage.go]) *)

Module StateStorage.

Record persistentState : Type := mkState { term : Z; votedFor : string }.

Record persistentStateStorage : Type := mkStorage {
  stateDir : string;
  file : option File;
  state : persistentState
}.

Definition set_file (f : option File) (p : persistentStateStorage) :=
  mkStorage (stateDir p) f (state p).
Definition set_state (s : persistentState) (p : persistentStateStorage) :=
  mkStorage (stateDir p) (file p) s.

Abbreviation Method A := (M (persistentStateStorage * World) A).

Section WithCodec.
Context `{ProtoCodec persistentState}.

Definition encodePersistentState (f : File) (s : persistentState)
  : M World unit :=
  Encode (file_Write f) s.

Definition decodePersistentState (f : File) : M World persistentState :=
  Decode f.

(** [NewStateStorage(path)]; [os.MkdirAll] is one system call. *)
Definition NewStateStorage (path : string) : M World persistentStateStorage :=
  let stateDir := Join path "state" in
  run syscall in
  ret (mkStorage stateDir None (mkState 0 "")).

Definition Open : Method unit :=
  let! p := self in
  let stateFilename := Join (stateDir p) "state.bin" in
  let! stateFile :=
    wrapE "failed to open state file" (os (os_OpenFile stateFilename true)) in
  update (set_file (Some stateFile)).

Definition Close : Method unit :=
  let! p := self in
  match file p with
  | None => ret tt
  | Some f =>
      run wrapE "failed to close state storage file" (os (file_Close f)) in
      update (set_state (mkState 0 ""))
  end.

Definition Replay : Method unit :=
  let! p := self in
  match file p with
  | None => fail errStateStorageNotOpen
  | Some f =>
      let! r := attempt (os (decodePersistentState f)) in
      match r with
      | inl st => update (set_state st)
      | inr e =>
          if decide (e = EOF)
          then update (set_state (mkState 0 ""))
          else fail (WrapError e "failed while replaying state storage")
      end
  end.

Definition SetState (term : Z) (votedFor : string) : Method unit :=
  let! p := self in
  match file p with
  | None => fail errStateStorageNotOpen
  | Some f =>
      let msg := "failed while persisting state" in
      let! tmpFile := wrapE msg (os (os_CreateTemp (stateDir p) "tmp-")) in
      run update (set_state (mkState term votedFor)) in
      run wrapE msg (os (encodePersistentState tmpFile (mkState term votedFor))) in
      run wrapE msg (os (file_Sync tmpFile)) in
      run wrapE msg (os (file_Close tmpFile)) in
      run wrapE msg (os (file_Close f)) in
      let! tmpName := os (file_Name tmpFile) in
      let! name := os (file_Name f) in
      run wrapE msg (os (os_Rename tmpName name)) in
      let fileName := Join (stateDir p) "state.bin" in
      let! newFile := attempt (os (os_OpenFile fileName false)) in
      match newFile with
      | inr e => run update (set_file None) in fail (WrapError e msg)
      | inl nf =>
          run update (set_file (Some nf)) in
          run wrapE msg (os (file_Seek nf 0 SeekEnd)) in
          ret tt
      end
  end.

Definition State : Method (Z * string) :=
  let! p := self in
  match file p with
  | None => fail errStateStorageNotOpen
  | Some _ => ret (term (state p), votedFor (state p))
  end.

(** What a restarted process does with the directory of a crashed one:
    a new storage object, [Open], [Replay], then [State]. *)
Definition reopen : Method (Z * string) :=
  run Open in
  run Replay in
  State.

Definition afterCrash (dir : string) (sched : list nat) (w : World)
  : outcome (Z * string) :=
  fst (reopen (mkStorage dir None (mkState 0 ""), crash sched w)).

(** [n] calls of [State] in a row, returning the last answer. *)
Fixpoint States (n : nat) : Method (Z * string) :=
  match n with
  | O => State
  | S n' => run State in States n'
  end.

End WithCodec.

(** The storage holds a descriptor that was opened on its state file. *)
Definition opened (p : persistentStateStorage) (w : World) : Prop :=
  exists f d, file p = Some f /\ fds w !! f = Some d /\
              fd_name d = Join (stateDir p) "state.bin".

(** The storage is open: its descriptor is open on the state file, which
    exists. *)
Definition ready (p : persistentStateStorage) (w : World) : Prop :=
  exists f, file p = Some f /\
    fd_shape w !! f = Some (Join (stateDir p) "state.bin", false) /\
    Join (stateDir p) "state.bin" ∈ file_names w.

End StateStorage.

(** An empty disk, on which no fault is scheduled. *)
Definition empty_disk : World := mkWorld ∅ ∅ [] 0.

(** A fixed-width stand-in for the protobuf wire format of the persistent
    state, to run the model on concrete values: the term as eight
    big-endian bytes, then the bytes of the vote. *)
Module Wire.
Fixpoint be_bytes (n : nat) (z : Z) : list byte :=
  match n with
  | O => []
  | S n' => be_bytes n' (z / 256) ++ [I32.byte_of_Z z]
  end.

Definition of_be_bytes (bs : list byte) : Z :=
  fold_left (fun acc b => acc * 256 + I32.Z_of_byte b) bs 0.

#[global] Instance state_codec : ProtoCodec StateStorage.persistentState := {
  Marshal s :=
    Some (be_bytes 8 (StateStorage.term s)
          ++ String.list_byte_of_string (StateStorage.votedFor s));
  Unmarshal bs :=
    if (length bs <? 8)%nat then None
    else Some (StateStorage.mkState (of_be_bytes (take 8 bs))
                 (String.string_of_list_byte (drop 8 bs)))
}.

(** A storage made by [NewStateStorage "d"] on an empty disk and opened. *)
Definition new_storage : StateStorage.persistentStateStorage * World :=
  (StateStorage.mkStorage (Join "d" "state") None (StateStorage.mkState 0 ""),
   empty_disk).

Definition opened_storage : StateStorage.persistentStateStorage * World :=
  snd (StateStorage.Open new_storage).

(** [Open], [Close], then the given call, on the new storage. *)
Definition after_close {A} (call : StateStorage.Method A)
  : outcome A * (StateStorage.persistentStateStorage * World) :=
  (run StateStorage.Open in run StateStorage.Close in call)%go new_storage.

(** [Open], [Close], a [SetState] whose error is dropped, then [State]. *)
Definition set_after_close (t : Z) (v : string) : outcome (Z * string) :=
  fst ((run StateStorage.Open in
        run StateStorage.Close in
        let! _ := attempt (StateStorage.SetState t v) in
        StateStorage.State)%go new_storage).

(** [Open], [SetState 7 "n2"], then [SetState 9 "n3"] whose error the
    caller keeps, then [State]; on an empty disk where [k] system calls
    succeed and the next one fails. *)
Definition set_then_failed_set (k : nat)
  : outcome ((unit + error) * (Z * string))
    * (StateStorage.persistentStateStorage * World) :=
  (run StateStorage.Open in
   run StateStorage.SetState 7 "n2" in
   let! second := attempt (StateStorage.SetState 9 "n3") in
   let! answer := StateStorage.State in
   ret (second, answer))%go
    (StateStorage.mkStorage (Join "d" "state") None (StateStorage.mkState 0 ""),
     mkWorld ∅ ∅ [k] 0).
End Wire.


(** ** The log ([log.go]) *)

(** Lifting a result that does not touch the state. *)
Definition liftO {S A} (o : outcome A) : M S A := fun s => (o, s).

Module Log.

Inductive LogEntryType : Type := NoOpEntry | OperationEntry.

#[global] Instance LogEntryType_eq_dec : EqDecision LogEntryType.
Proof. solve_decision. Defined.

Record LogEntry : Type := mkEntry {
  Index : Z;
  Term : Z;
  Offset : Z;
  Data : list byte;
  EntryType : LogEntryType
}.

Definition set_Offset (o : Z) (e : LogEntry) : LogEntry :=
  mkEntry (Index e) (Term e) o (Data e) (EntryType e).

Definition NewLogEntry (index term : Z) (data : list byte)
    (entryType : LogEntryType) : LogEntry :=
  mkEntry index term 0 data entryType.

Definition IsConflict (e other : LogEntry) : bool :=
  (Index e =? Index other) && negb (Term e =? Term other).

Record persistentLog : Type := mkLog {
  entries : list LogEntry;
  file : option File;
  path : string
}.

Definition set_entries (es : list LogEntry) (l : persistentLog) :=
  mkLog es (file l) (path l).
Definition set_file (f : option File) (l : persistentLog) :=
  mkLog (entries l) f (path l).

Abbreviation Method A := (M (persistentLog * World) A).

(** [s[i]] on a Go slice: out of range is a runtime panic. *)
Definition at_index {A} (s : list A) (i : Z) : outcome A :=
  if i <? 0 then Panic
  else match s !! Z.to_nat i with
       | Some x => Ok x
       | None => Panic
       end.

Definition len {A} (s : list A) : Z := Z.of_nat (length s).

(** The read-only methods are functions of the receiver. *)

Definition GetEntry (l : persistentLog) (index : Z) : outcome LogEntry :=
  match file l with
  | None => Err errLogNotOpen
  | Some _ =>
      match at_index (entries l) 0, at_index (entries l) (len (entries l) - 1) with
      | Ok first, Ok last =>
          let logIndex := U64.sub index (Index first) in
          let lastIndex := Index last in
          if (logIndex <=? 0) || (lastIndex <? logIndex)
          then Err errIndexDoesNotExist
          else at_index (entries l) logIndex
      | _, _ => Panic
      end
  end.

Definition Contains (l : persistentLog) (index : Z) : outcome bool :=
  match at_index (entries l) 0 with
  | Ok first =>
      let logIndex := U64.sub index (Index first) in
      Ok (negb ((logIndex <=? 0) || (len (entries l) <=? logIndex)))
  | _ => Panic
  end.

Definition LastTerm (l : persistentLog) : outcome Z :=
  match at_index (entries l) (len (entries l) - 1) with
  | Ok last => Ok (Term last)
  | _ => Panic
  end.

Definition LastIndex (l : persistentLog) : outcome Z :=
  match at_index (entries l) (len (entries l) - 1) with
  | Ok last => Ok (Index last)
  | _ => Panic
  end.

Definition NextIndex (l : persistentLog) : outcome Z :=
  match at_index (entries l) (len (entries l) - 1) with
  | Ok last => Ok (U64.add (Index last) 1)
  | _ => Panic
  end.

Definition Size (l : persistentLog) : Z := len (entries l).

Section WithCodec.
Context `{ProtoCodec LogEntry}.

Definition encodeLogEntry (f : File) (e : LogEntry) : M World unit :=
  Encode (file_Write f) e.

Definition NewLog (path : string) : persistentLog := mkLog [] None path.

Definition Open : Method unit :=
  let! l := self in
  let fileName := Join (path l) "log.bin" in
  let! file := wrapE "failed to open log" (os (os_OpenFile fileName true)) in
  run update (set_file (Some file)) in
  update (set_entries []).

Definition Close : Method unit :=
  let! l := self in
  match file l with
  | None => ret tt
  | Some f =>
      run wrapE "failed to close log" (os (file_Close f)) in
      run update (set_entries []) in
      update (set_file None)
  end.

(** The loop of [AppendEntries] that writes the entries, giving each the
    offset it is written at; it returns the entries as written. *)
Fixpoint writeEntries (f : File) (msg : string) (es : list LogEntry)
  : M World (list LogEntry) :=
  match es with
  | [] => ret []
  | entry :: rest =>
      let! offset := wrapE msg (file_Seek f 0 SeekCurrent) in
      let entry' := set_Offset (Z.of_nat offset) entry in
      run wrapE msg (encodeLogEntry f entry') in
      let! rest' := writeEntries f msg rest in
      ret (entry' :: rest')
  end.

Definition AppendEntries (es : list LogEntry) : Method unit :=
  let! l := self in
  match file l with
  | None => fail errLogNotOpen
  | Some f =>
      let msg := "failed while appending entries to log" in
      let! es' := os (writeEntries f msg es) in
      run wrapE msg (os (file_Sync f)) in
      update (set_entries (entries l ++ es'))
  end.

Definition AppendEntry (entry : LogEntry) : Method unit :=
  AppendEntries [entry].

Definition Truncate (index : Z) : Method unit :=
  let! l := self in
  match file l with
  | None => fail errLogNotOpen
  | Some f =>
      let! first := liftO (at_index (entries l) 0) in
      let logIndex := U64.sub index (Index first) in
      if (logIndex <=? 0) || (len (entries l) <=? logIndex)
      then fail errIndexDoesNotExist
      else
        let msg := "failed to truncate log" in
        let! e := liftO (at_index (entries l) logIndex) in
        let size := Offset e in
        if size <? 0 then fail (WrapError ErrInvalid msg)
        else
          run wrapE msg (os (file_Truncate f (Z.to_nat size))) in
          run wrapE msg (os (file_Sync f)) in
          run wrapE msg (os (file_Seek f (Z.to_nat size) SeekStart)) in
          update (set_entries (take (Z.to_nat logIndex) (entries l)))
  end.

(** [rename(tmpFile)]: flush and close the temporary file, close the log
    file, rename over it, reopen it and seek to its end. *)
Definition rename (tmpFile : File) : Method unit :=
  let! l := self in
  match file l with
  | None =>
      run os (file_Sync tmpFile) in
      run os (file_Close tmpFile) in
      fail ErrInvalid
  | Some f =>
      run os (file_Sync tmpFile) in
      run os (file_Close tmpFile) in
      run os (file_Close f) in
      let! tmpName := os (file_Name tmpFile) in
      let! name := os (file_Name f) in
      run os (os_Rename tmpName name) in
      let fileName := Join (path l) "log.bin" in
      let! file := os (os_OpenFile fileName false) in
      run update (set_file (Some file)) in
      run os (file_Seek file 0 SeekEnd) in
      ret tt
  end.

(** The loop of [Compact] over [newEntries].  The elements of
    [newEntries] are the pointers held by [l.entries] from position [pos]
    on, so the new offset of each entry shows in the log at once. *)
Fixpoint rewriteEntries (tmpFile : File) (msg : string) (pos : nat)
    (n : nat) : Method unit :=
  match n with
  | O => ret tt
  | S n' =>
      let! l := self in
      match entries l !! pos with
      | None => panic
      | Some entry =>
          let! offset := wrapE msg (os (file_Seek tmpFile 0 SeekCurrent)) in
          let entry' := set_Offset (Z.of_nat offset) entry in
          run update (set_entries (<[pos := entry']> (entries l))) in
          run wrapE msg (os (encodeLogEntry tmpFile entry')) in
          rewriteEntries tmpFile msg (S pos) n'
      end
  end.

Definition Compact (index : Z) : Method unit :=
  let! l := self in
  match file l with
  | None => fail errLogNotOpen
  | Some f =>
      let! first := liftO (at_index (entries l) 0) in
      let logIndex := U64.sub index (Index first) in
      if (logIndex <=? 0) || (len (entries l) <=? logIndex)
      then fail errIndexDoesNotExist
      else
        let msg := "failed to compact log" in
        let count := (length (entries l) - Z.to_nat logIndex)%nat in
        let! tmpFile := wrapE msg (os (os_CreateTemp (path l) "tmp-")) in
        run rewriteEntries tmpFile msg (Z.to_nat logIndex) count in
        run wrapE "failed to discard log entries" (rename tmpFile) in
        let! l' := self in
        update (set_entries (drop (Z.to_nat logIndex) (entries l')))
  end.

Definition DiscardEntries (index term : Z) : Method unit :=
  let! l := self in
  match file l with
  | None => fail errLogNotOpen
  | Some f =>
      let msg := "failed to discard log entries" in
      let! tmpFile := wrapE msg (os (os_CreateTemp (path l) "tmp-")) in
      let entry := mkEntry index term 0 [] NoOpEntry in
      run wrapE msg (os (encodeLogEntry tmpFile entry)) in
      run wrapE msg (rename tmpFile) in
      update (set_entries [entry])
  end.

End WithCodec.

(** The invariants of an open log (section 3 of the specification): the
    descriptor is open on the log file, the sentinel exists, and the entry
    at position [p] has index [firstIndex + p], a [uint64]. *)
Definition firstIndex (l : persistentLog) : Z :=
  match entries l with
  | [] => 0
  | e :: _ => Index e
  end.

Definition lastIndex (l : persistentLog) : Z :=
  firstIndex l + len (entries l) - 1.

Definition contiguous (l : persistentLog) : Prop :=
  entries l <> [] /\
  (forall (p : nat) e, entries l !! p = Some e ->
     Index e = firstIndex l + Z.of_nat p) /\
  0 <= firstIndex l /\ lastIndex l < U64.modulus.

Definition is_open (l : persistentLog) (w : World) : Prop :=
  exists f d, file l = Some f /\ fds w !! f = Some d /\
    fd_closed d = false /\ fd_name d = Join (path l) "log.bin" /\
    is_Some (files w !! fd_name d).

Definition log_inv (l : persistentLog) (w : World) : Prop :=
  contiguous l /\ is_open l w.

(** Two entries that differ at most in the offset the log assigned. *)
Definition same_content (e e' : LogEntry) : Prop :=
  Index e' = Index e /\ Term e' = Term e /\ Data e' = Data e /\
  EntryType e' = EntryType e.

End Log.

(** The stand-in wire format of a log entry: index, term and offset as
    eight big-endian bytes each, one byte for the type, then the data. *)
Module LogWire.
Definition type_byte (t : Log.LogEntryType) : byte :=
  match t with Log.NoOpEntry => x00 | Log.OperationEntry => x01 end.

Definition byte_type (b : byte) : Log.LogEntryType :=
  match b with x00 => Log.NoOpEntry | _ => Log.OperationEntry end.

#[global] Instance entry_codec : ProtoCodec Log.LogEntry := {
  Marshal e :=
    Some (Wire.be_bytes 8 (Log.Index e) ++ Wire.be_bytes 8 (Log.Term e)
          ++ Wire.be_bytes 8 (Log.Offset e) ++ [type_byte (Log.EntryType e)]
          ++ Log.Data e);
  Unmarshal bs :=
    match drop 24 bs with
    | t :: data =>
        Some (Log.mkEntry (Wire.of_be_bytes (take 8 bs))
                (Wire.of_be_bytes (take 8 (drop 8 bs)))
                (Wire.of_be_bytes (take 8 (drop 16 bs)))
                data (byte_type t))
    | [] => None
    end
}.

(** A log that was compacted at index 5 and holds the entries 6 and 7,
    open on a disk without faults. *)
Definition compacted_log : Log.persistentLog :=
  Log.mkLog [Log.mkEntry 5 2 0 [] Log.NoOpEntry;
             Log.mkEntry 6 2 29 [x61] Log.OperationEntry;
             Log.mkEntry 7 3 59 [x62] Log.OperationEntry]
            (Some 0%nat) "d".

Definition compacted_disk : World :=
  mkWorld {[Join "d" "log.bin" := []]}
          {[0%nat := mkFD (Join "d" "log.bin") 0 false]} [] 0.
End LogWire.

(** ** The snapshot storage ([snapshot_storage.go]) *)

(** A [bufio.Writer] lives for the duration of [body]; what is still
    buffered when [body] returns is dropped with it. *)
Definition withWriter {A} (body : M (list byte * World) A) : M World A :=
  fun w => let '(r, (_, w')) := body ([], w) in (r, w').

Module SnapshotStorage.

Record Snapshot : Type := mkSnapshot {
  LastIncludedIndex : Z;
  LastIncludedTerm : Z;
  Data : list byte
}.

(** [NewSnapshot] copies the data into a new slice. *)
Definition NewSnapshot (lastIncludedIndex lastIncludedTerm : Z)
    (data : list byte) : Snapshot :=
  mkSnapshot lastIncludedIndex lastIncludedTerm data.

Record persistentSnapshotStorage : Type := mkStorage {
  snapshots : list Snapshot;
  path : string;
  file : option File
}.

Definition set_snapshots (l : list Snapshot) (p : persistentSnapshotStorage) :=
  mkStorage l (path p) (file p).
Definition set_file (f : option File) (p : persistentSnapshotStorage) :=
  mkStorage (snapshots p) (path p) f.

Abbreviation Method A := (M (persistentSnapshotStorage * World) A).

Definition NewSnapshotStorage (path : string) : persistentSnapshotStorage :=
  mkStorage [] path None.

Definition Open : Method unit :=
  let! p := self in
  match file p with
  | Some _ => ret tt
  | None =>
      let! file :=
        wrapE "failed to open snapshot storage" (os (os_OpenFile (path p) true)) in
      run update (set_file (Some file)) in
      update (set_snapshots [])
  end.

Definition Close : Method unit :=
  let! p := self in
  match file p with
  | None => ret tt
  | Some f =>
      run wrapE "failed to close snapshot storage" (os (file_Close f)) in
      run update (set_snapshots []) in
      update (set_file None)
  end.

Definition LastSnapshot (p : persistentSnapshotStorage)
  : outcome (option Snapshot) :=
  match file p with
  | None => Err errSnapshotStoreNotOpen
  | Some _ => Ok (last (snapshots p))
  end.

Definition ListSnapshots (p : persistentSnapshotStorage)
  : outcome (list Snapshot) :=
  match file p with
  | None => Err errSnapshotStoreNotOpen
  | Some _ => Ok (snapshots p)
  end.

Section WithCodec.
Context `{ProtoCodec Snapshot}.

Definition encodeSnapshot (f : File) (s : Snapshot)
  : M (list byte * World) unit :=
  Encode (bufio_Write f) s.

Definition SaveSnapshot (snapshot : Snapshot) : Method unit :=
  let! p := self in
  match file p with
  | None => fail errSnapshotStoreNotOpen
  | Some f =>
      let msg := "failed to save snapshot" in
      run wrapE msg (os (withWriter
            (run encodeSnapshot f snapshot in bufio_Flush f))) in
      run wrapE msg (os (file_Sync f)) in
      update (set_snapshots (snapshots p ++ [snapshot]))
  end.

End WithCodec.
End SnapshotStorage.

Module SnapshotWire.
#[global] Instance snapshot_codec : ProtoCodec SnapshotStorage.Snapshot := {
  Marshal s :=
    Some (Wire.be_bytes 8 (SnapshotStorage.LastIncludedIndex s)
          ++ Wire.be_bytes 8 (SnapshotStorage.LastIncludedTerm s)
          ++ SnapshotStorage.Data s);
  Unmarshal bs :=
    if (length bs <? 16)%nat then None
    else Some (SnapshotStorage.mkSnapshot (Wire.of_be_bytes (take 8 bs))
                 (Wire.of_be_bytes (take 8 (drop 8 bs))) (drop 16 bs))
}.

(** A snapshot storage that holds one snapshot, open on a disk whose next
    system call fails. *)
Definition one_snapshot : SnapshotStorage.persistentSnapshotStorage :=
  SnapshotStorage.mkStorage [SnapshotStorage.mkSnapshot 3 1 [x61]]
    "d/snapshots.bin" (Some 0%nat).

Definition failing_disk : World :=
  mkWorld {["d/snapshots.bin" := []]}
          {[0%nat := mkFD "d/snapshots.bin" 0 false]} [0%nat] 0.
End SnapshotWire.

(** ** The consensus node ([raft.go]) *)

Module Raft.

Inductive State : Type := Leader | Follower | Shutdown.

#[global] Instance State_eq_dec : EqDecision State.
Proof. solve_decision. Defined.

(** The operation types [SubmitOperation] switches on; any other value of
    the underlying integer type is [OtherOperationType]. *)
Inductive OperationType : Type :=
| Replicated
| LeaseBasedReadOnly
| LinearizableReadOnly
| OtherOperationType (code : Z).

#[global] Instance OperationType_eq_dec : EqDecision OperationType.
Proof. solve_decision. Defined.

Inductive OperationError : Type :=
| NotLeaderError (ServerID KnownLeader : string)
| InvalidLeaseError (ServerID : string)
| InvalidOperationTypeError (t : OperationType).

(** The fields of [Operation] that [raft.go] reads and writes; the field
    [OperationType] of the source is [opType] here, and a channel is the
    number that identifies it ([None] is the nil channel).
    [quorumVerified] is the mark [markAsVerified] sets. *)
Record Operation : Type := mkOperation {
  Bytes : list byte;
  opType : OperationType;
  LogIndex : Z;
  LogTerm : Z;
  readIndex : Z;
  responseCh : option nat;
  quorumVerified : bool
}.

Record OperationResponse : Type := mkResponse {
  Operation_of : Operation;
  Response : list byte;
  Err_of : option OperationError
}.

Record Options : Type := mkOptions {
  electionTimeout : Z;
  heartbeatInterval : Z;
  maxEntriesPerRPC : Z;
  leaseDuration : Z
}.

Record OperationManager : Type := mkOperationManager {
  pendingReplicated : gmap Z nat;
  pendingReadOnly : list Operation;
  shouldVerifyQuorum : bool;
  leaseValidUntil : Z;
  managerLeaseDuration : Z
}.

(** Modelled from the spec: [newOperationManager], whose source is not
    among the files: no pending operation, an expired lease, and the next
    linearizable read verifies the quorum. *)
Definition newOperationManager (leaseDuration : Z) : OperationManager :=
  mkOperationManager ∅ [] true 0 leaseDuration.

Definition zeroOperation : Operation :=
  mkOperation [] Replicated 0 0 0 None false.

(** Modelled from the spec: [notifyLostLeaderShip], whose source is not
    among the files, resolves every pending sink with [NotLeaderError];
    the result is the list of these deliveries. *)
Definition notifyLostLeaderShip (m : OperationManager) (id knownLeader : string)
  : list (nat * OperationResponse) :=
  let resp := mkResponse zeroOperation [] (Some (NotLeaderError id knownLeader)) in
  ((fun kv => (snd kv, resp)) <$> map_to_list (pendingReplicated m))
  ++ omap (fun op => (fun ch => (ch, resp)) <$> responseCh op) (pendingReadOnly m).

(** Modelled from the spec: [markAsVerified] marks every pending
    read-only operation as verified by a quorum. *)
Definition markAsVerified (m : OperationManager) : OperationManager :=
  mkOperationManager (pendingReplicated m)
    ((fun op => mkOperation (Bytes op) (opType op) (LogIndex op) (LogTerm op)
                  (readIndex op) (responseCh op) true) <$> pendingReadOnly m)
    (shouldVerifyQuorum m) (leaseValidUntil m) (managerLeaseDuration m).

(** Modelled from the spec: [leaderLease.renew] sets the end of the lease
    to now plus the lease duration. *)
Definition renewLease (now : Z) (m : OperationManager) : OperationManager :=
  mkOperationManager (pendingReplicated m) (pendingReadOnly m)
    (shouldVerifyQuorum m) (now + managerLeaseDuration m)
    (managerLeaseDuration m).

Definition set_pendingReplicated (x : gmap Z nat) (m : OperationManager) :=
  mkOperationManager x (pendingReadOnly m) (shouldVerifyQuorum m)
    (leaseValidUntil m) (managerLeaseDuration m).
Definition set_pendingReadOnly (x : list Operation) (m : OperationManager) :=
  mkOperationManager (pendingReplicated m) x (shouldVerifyQuorum m)
    (leaseValidUntil m) (managerLeaseDuration m).
Definition set_shouldVerifyQuorum (x : bool) (m : OperationManager) :=
  mkOperationManager (pendingReplicated m) (pendingReadOnly m) x
    (leaseValidUntil m) (managerLeaseDuration m).

(** The messages of the three RPCs. *)
Module RequestVoteRequest.
Record t : Type := mk {
  CandidateID : string; Term : Z; LastLogIndex : Z; LastLogTerm : Z
}.
End RequestVoteRequest.

Module RequestVoteResponse.
Record t : Type := mk { Term : Z; VoteGranted : bool }.
End RequestVoteResponse.

Module AppendEntriesRequest.
Record t : Type := mk {
  LeaderID : string; Term : Z; PrevLogIndex : Z; PrevLogTerm : Z;
  Entries : list Log.LogEntry; LeaderCommit : Z
}.
End AppendEntriesRequest.

Module AppendEntriesResponse.
Record t : Type := mk { Term : Z; Success : bool; Index : Z }.
End AppendEntriesResponse.

Module InstallSnapshotRequest.
Record t : Type := mk {
  LeaderID : string; Term : Z; LastIncludedIndex : Z; LastIncludedTerm : Z;
  Bytes : list byte
}.
End InstallSnapshotRequest.

Module InstallSnapshotResponse.
Record t : Type := mk { Term : Z }.
End InstallSnapshotResponse.

(** The node.  The logger, the mutex, the wait group and the three
    condition variables carry no data; [delivered] collects what the node
    has sent on response channels, oldest first. *)
Record Raft : Type := mkRaft {
  id : string;
  leaderId : string;
  options : Options;
  peers : gset string;
  operationManager : OperationManager;
  nextIndex : gmap string Z;
  matchIndex : gmap string Z;
  log : Log.persistentLog;
  stateStorage : StateStorage.persistentStateStorage;
  snapshotStorage : SnapshotStorage.persistentSnapshotStorage;
  state : State;
  commitIndex : Z;
  lastApplied : Z;
  currentTerm : Z;
  lastIncludedIndex : Z;
  lastIncludedTerm : Z;
  votedFor : string;
  lastContact : Z;
  delivered : list (nat * OperationResponse)
}.

Definition set_leaderId (x : string) (r : Raft) : Raft :=
  mkRaft (id r) x (options r) (peers r) (operationManager r) (nextIndex r)
    (matchIndex r) (log r) (stateStorage r) (snapshotStorage r) (state r)
    (commitIndex r) (lastApplied r) (currentTerm r) (lastIncludedIndex r)
    (lastIncludedTerm r) (votedFor r) (lastContact r) (delivered r).
Definition set_operationManager (x : OperationManager) (r : Raft) : Raft :=
  mkRaft (id r) (leaderId r) (options r) (peers r) x (nextIndex r)
    (matchIndex r) (log r) (stateStorage r) (snapshotStorage r) (state r)
    (commitIndex r) (lastApplied r) (currentTerm r) (lastIncludedIndex r)
    (lastIncludedTerm r) (votedFor r) (lastContact r) (delivered r).
Definition set_nextIndex (x : gmap string Z) (r : Raft) : Raft :=
  mkRaft (id r) (leaderId r) (options r) (peers r) (operationManager r) x
    (matchIndex r) (log r) (stateStorage r) (snapshotStorage r) (state r)
    (commitIndex r) (lastApplied r) (currentTerm r) (lastIncludedIndex r)
    (lastIncludedTerm r) (votedFor r) (lastContact r) (delivered r).
Definition set_matchIndex (x : gmap string Z) (r : Raft) : Raft :=
  mkRaft (id r) (leaderId r) (options r) (peers r) (operationManager r)
    (nextIndex r) x (log r) (stateStorage r) (snapshotStorage r) (state r)
    (commitIndex r) (lastApplied r) (currentTerm r) (lastIncludedIndex r)
    (lastIncludedTerm r) (votedFor r) (lastContact r) (delivered r).
Definition set_log (x : Log.persistentLog) (r : Raft) : Raft :=
  mkRaft (id r) (leaderId r) (options r) (peers r) (operationManager r)
    (nextIndex r) (matchIndex r) x (stateStorage r) (snapshotStorage r)
    (state r) (commitIndex r) (lastApplied r) (currentTerm r)
    (lastIncludedIndex r) (lastIncludedTerm r) (votedFor r) (lastContact r)
    (delivered r).
Definition set_stateStorage (x : StateStorage.persistentStateStorage) (r : Raft) : Raft :=
  mkRaft (id r) (leaderId r) (options r) (peers r) (operationManager r)
    (nextIndex r) (matchIndex r) (log r) x (snapshotStorage r) (state r)
    (commitIndex r) (lastApplied r) (currentTerm r) (lastIncludedIndex r)
    (lastIncludedTerm r) (votedFor r) (lastContact r) (delivered r).
Definition set_snapshotStorage (x : SnapshotStorage.persistentSnapshotStorage) (r : Raft) : Raft :=
  mkRaft (id r) (leaderId r) (options r) (peers r) (operationManager r)
    (nextIndex r) (matchIndex r) (log r) (stateStorage r) x (state r)
    (commitIndex r) (lastApplied r) (currentTerm r) (lastIncludedIndex r)
    (lastIncludedTerm r) (votedFor r) (lastContact r) (delivered r).
Definition set_state (x : State) (r : Raft) : Raft :=
  mkRaft (id r) (leaderId r) (options r) (peers r) (operationManager r)
    (nextIndex r) (matchIndex r) (log r) (stateStorage r) (snapshotStorage
    r) x (commitIndex r) (lastApplied r) (currentTerm r) (lastIncludedIndex
    r) (lastIncludedTerm r) (votedFor r) (lastContact r) (delivered r).
Definition set_commitIndex (x : Z) (r : Raft) : Raft :=
  mkRaft (id r) (leaderId r) (options r) (peers r) (operationManager r)
    (nextIndex r) (matchIndex r) (log r) (stateStorage r) (snapshotStorage
    r) (state r) x (lastApplied r) (currentTerm r) (lastIncludedIndex r)
    (lastIncludedTerm r) (votedFor r) (lastContact r) (delivered r).
Definition set_lastApplied (x : Z) (r : Raft) : Raft :=
  mkRaft (id r) (leaderId r) (options r) (peers r) (operationManager r)
    (nextIndex r) (matchIndex r) (log r) (stateStorage r) (snapshotStorage
    r) (state r) (commitIndex r) x (currentTerm r) (lastIncludedIndex r)
    (lastIncludedTerm r) (votedFor r) (lastContact r) (delivered r).
Definition set_currentTerm (x : Z) (r : Raft) : Raft :=
  mkRaft (id r) (leaderId r) (options r) (peers r) (operationManager r)
    (nextIndex r) (matchIndex r) (log r) (stateStorage r) (snapshotStorage
    r) (state r) (commitIndex r) (lastApplied r) x (lastIncludedIndex r)
    (lastIncludedTerm r) (votedFor r) (lastContact r) (delivered r).
Definition set_lastIncludedIndex (x : Z) (r : Raft) : Raft :=
  mkRaft (id r) (leaderId r) (options r) (peers r) (operationManager r)
    (nextIndex r) (matchIndex r) (log r) (stateStorage r) (snapshotStorage
    r) (state r) (commitIndex r) (lastApplied r) (currentTerm r) x
    (lastIncludedTerm r) (votedFor r) (lastContact r) (delivered r).
Definition set_lastIncludedTerm (x : Z) (r : Raft) : Raft :=
  mkRaft (id r) (leaderId r) (options r) (peers r) (operationManager r)
    (nextIndex r) (matchIndex r) (log r) (stateStorage r) (snapshotStorage
    r) (state r) (commitIndex r) (lastApplied r) (currentTerm r)
    (lastIncludedIndex r) x (votedFor r) (lastContact r) (delivered r).
Definition set_votedFor (x : string) (r : Raft) : Raft :=
  mkRaft (id r) (leaderId r) (options r) (peers r) (operationManager r)
    (nextIndex r) (matchIndex r) (log r) (stateStorage r) (snapshotStorage
    r) (state r) (commitIndex r) (lastApplied r) (currentTerm r)
    (lastIncludedIndex r) (lastIncludedTerm r) x (lastContact r) (delivered
    r).
Definition set_lastContact (x : Z) (r : Raft) : Raft :=
  mkRaft (id r) (leaderId r) (options r) (peers r) (operationManager r)
    (nextIndex r) (matchIndex r) (log r) (stateStorage r) (snapshotStorage
    r) (state r) (commitIndex r) (lastApplied r) (currentTerm r)
    (lastIncludedIndex r) (lastIncludedTerm r) (votedFor r) x (delivered r).
Definition set_delivered (x : list (nat * OperationResponse)) (r : Raft) : Raft :=
  mkRaft (id r) (leaderId r) (options r) (peers r) (operationManager r)
    (nextIndex r) (matchIndex r) (log r) (stateStorage r) (snapshotStorage
    r) (state r) (commitIndex r) (lastApplied r) (currentTerm r)
    (lastIncludedIndex r) (lastIncludedTerm r) (votedFor r) (lastContact r)
    x.

Abbreviation Method A := (M (Raft * World) A).

(** Calls into the three stores. *)
Definition onLog {A} (m : Log.Method A) : Method A :=
  zoom (fun s => (log (fst s), snd s))
       (fun t s => (set_log (fst t) (fst s), snd t)) m.
Definition onStateStorage {A} (m : StateStorage.Method A) : Method A :=
  zoom (fun s => (stateStorage (fst s), snd s))
       (fun t s => (set_stateStorage (fst t) (fst s), snd t)) m.
Definition onSnapshotStorage {A} (m : SnapshotStorage.Method A) : Method A :=
  zoom (fun s => (snapshotStorage (fst s), snd s))
       (fun t s => (set_snapshotStorage (fst t) (fst s), snd t)) m.

(** A read-only method of the log, on the log of the node. *)
Definition readLog {A} (q : Log.persistentLog -> outcome A) : Method A :=
  fun s => (q (log (fst s)), s).

Definition deliver (ch : option nat) (resp : OperationResponse) : Method unit :=
  match ch with
  | None => ret tt
  | Some c => update (fun r => set_delivered (delivered r ++ [(c, resp)]) r)
  end.

Definition hasQuorum (r : Raft) (count : Z) : bool :=
  Z.of_nat (size (peers r)) / 2 <? count.


Section WithCodecs.
Context {state_codec : ProtoCodec StateStorage.persistentState}.
Context {entry_codec : ProtoCodec Log.LogEntry}.
Context {snapshot_codec : ProtoCodec SnapshotStorage.Snapshot}.

Definition persistTermAndVote : Method unit :=
  let! r := self in
  orFatal (onStateStorage (StateStorage.SetState (currentTerm r) (votedFor r))).

Definition becomeFollower (leaderID : string) (term : Z) : Method unit :=
  run update (set_state Follower) in
  run update (set_currentTerm term) in
  run update (set_leaderId leaderID) in
  run update (set_votedFor "") in
  run persistTermAndVote in
  let! r := self in
  run update (set_delivered
        (delivered r
         ++ notifyLostLeaderShip (operationManager r) (id r) (leaderId r))) in
  update (set_operationManager (newOperationManager (leaseDuration (options r)))).

(** The node [becomeFollower] leaves when [SetState] has returned the
    storage [p]. *)
Definition steppedDown (leaderID : string) (term : Z)
    (p : StateStorage.persistentStateStorage) (r : Raft) : Raft :=
  let r1 := set_stateStorage p
              (set_votedFor "" (set_leaderId leaderID
                 (set_currentTerm term (set_state Follower r)))) in
  set_operationManager (newOperationManager (leaseDuration (options r1)))
    (set_delivered
       (delivered r1
        ++ notifyLostLeaderShip (operationManager r1) (id r1) (leaderId r1))
       r1).

(** [tryApplyReadOnlyOperations]; [now] is the time [renew] reads. *)
Definition tryApplyReadOnlyOperations (now : Z) : Method unit :=
  run update (fun r => set_operationManager (markAsVerified (operationManager r)) r) in
  run update (fun r => set_operationManager (renewLease now (operationManager r)) r) in
  update (fun r => set_operationManager
                     (set_shouldVerifyQuorum true (operationManager r)) r).

(** *** RequestVote *)

Definition RequestVote (request : RequestVoteRequest.t) (now : Z)
  : Method RequestVoteResponse.t :=
  let! r := self in
  if decide (state r = Shutdown) then fail errShutdown
  else if RequestVoteRequest.Term request <? currentTerm r
  then ret (RequestVoteResponse.mk (currentTerm r) false)
  else
    run (if currentTerm r <? RequestVoteRequest.Term request
         then becomeFollower (RequestVoteRequest.CandidateID request)
                (RequestVoteRequest.Term request)
         else ret tt) in
    let! r := self in
    let response := RequestVoteResponse.mk (currentTerm r) false in
    if negb (String.eqb (votedFor r) "")
       && negb (String.eqb (votedFor r) (RequestVoteRequest.CandidateID request))
    then ret response
    else
      let! lastTerm := readLog Log.LastTerm in
      let! lastIndex := readLog Log.LastIndex in
      if (RequestVoteRequest.LastLogTerm request <? lastTerm)
         || ((RequestVoteRequest.LastLogTerm request =? lastTerm)
             && (RequestVoteRequest.LastLogIndex request <? lastIndex))
      then ret response
      else
        run update (set_lastContact now) in
        run update (set_votedFor (RequestVoteRequest.CandidateID request)) in
        run persistTermAndVote in
        ret (RequestVoteResponse.mk (currentTerm r) true).

(** The comparison of the oldest revision of [requestVote], which reads
    the term of the request where the later ones read the term of its
    last log entry. *)
Definition legacyOutOfDate (request : RequestVoteRequest.t)
    (lastTerm lastIndex : Z) : bool :=
  (RequestVoteRequest.Term request <? lastTerm)
  || ((RequestVoteRequest.LastLogTerm request =? lastTerm)
      && (RequestVoteRequest.LastLogIndex request <? lastIndex)).

(** *** AppendEntries *)

(** The search for the first index of the conflicting term:
    [for ; index > r.lastIncludedIndex; index--] with [index] starting at
    [base + n]; the result is the value of [index] when the loop ends. *)
Fixpoint firstOfTerm (n : nat) (base term : Z) : Method Z :=
  match n with
  | O => ret base
  | S n' =>
      let index := base + Z.of_nat n in
      let! entry := orFatal (readLog (fun l => Log.GetEntry l index)) in
      if negb (Log.Term entry =? term) then ret index
      else firstOfTerm n' base term
  end.

(** The loop over [request.Entries]: it returns [toAppend]. *)
Fixpoint reconcile (entries : list Log.LogEntry) : Method (list Log.LogEntry) :=
  match entries with
  | [] => ret []
  | entry :: rest =>
      let! lastIndex := readLog Log.LastIndex in
      if lastIndex <? Log.Index entry then ret entries
      else
        let! existing := attempt (readLog (fun l => Log.GetEntry l (Log.Index entry))) in
        match existing with
        | inr _ => panic
        | inl existing =>
            if negb (Log.IsConflict existing entry) then reconcile rest
            else
              run orFatal (onLog (Log.Truncate (Log.Index entry))) in
              ret entries
        end
  end.

Definition AppendEntries (request : AppendEntriesRequest.t) (now : Z)
  : Method AppendEntriesResponse.t :=
  let! r := self in
  if decide (state r = Shutdown) then fail errShutdown
  else if AppendEntriesRequest.Term request <? currentTerm r
  then ret (AppendEntriesResponse.mk (currentTerm r) false 0)
  else
    run update (set_lastContact now) in
    run update (set_leaderId (AppendEntriesRequest.LeaderID request)) in
    run (if currentTerm r <? AppendEntriesRequest.Term request
         then becomeFollower (AppendEntriesRequest.LeaderID request)
                (AppendEntriesRequest.Term request)
         else ret tt) in
    let! r := self in
    let prevLogIndex := AppendEntriesRequest.PrevLogIndex request in
    let prevLogTerm := AppendEntriesRequest.PrevLogTerm request in
    let reject index := ret (AppendEntriesResponse.mk (currentTerm r) false index) in
    if prevLogIndex <? lastIncludedIndex r
    then reject (U64.add (lastIncludedIndex r) 1)
    else
      let! nextIdx := readLog Log.NextIndex in
      if nextIdx <=? prevLogIndex then reject nextIdx
      else if (lastIncludedIndex r =? prevLogIndex)
              && negb (lastIncludedTerm r =? prevLogTerm)
      then reject (lastIncludedIndex r)
      else
        let! conflict :=
          (if lastIncludedIndex r <? prevLogIndex
           then
             let! prevLogEntry :=
               orFatal (readLog (fun l => Log.GetEntry l prevLogIndex)) in
             if negb (Log.Term prevLogEntry =? prevLogTerm)
             then
               let start := U64.sub prevLogIndex 1 in
               let! index := firstOfTerm (Z.to_nat (start - lastIncludedIndex r))
                               (lastIncludedIndex r) (Log.Term prevLogEntry) in
               ret (Some (U64.add index 1))
             else ret None
           else ret None) in
        match conflict with
        | Some index => reject index
        | None =>
            let! toAppend := reconcile (AppendEntriesRequest.Entries request) in
            run orFatal (onLog (Log.AppendEntries toAppend)) in
            let! r' := self in
            run (if commitIndex r' <? AppendEntriesRequest.LeaderCommit request
                 then
                   let! lastIndex := readLog Log.LastIndex in
                   update (set_commitIndex
                             (Z.min (AppendEntriesRequest.LeaderCommit request)
                                    lastIndex))
                 else ret tt) in
            ret (AppendEntriesResponse.mk (currentTerm r) true 0)
        end.

(** *** InstallSnapshot

    [restored] tells whether [fsm.Restore] returned without error. *)
Definition InstallSnapshot (request : InstallSnapshotRequest.t) (now : Z)
    (restored : bool) : Method InstallSnapshotResponse.t :=
  let! r := self in
  if decide (state r = Shutdown) then fail errShutdown
  else if InstallSnapshotRequest.Term request <? currentTerm r
  then ret (InstallSnapshotResponse.mk (currentTerm r))
  else
    let stepDown := currentTerm r <? InstallSnapshotRequest.Term request in
    run (if stepDown
         then becomeFollower (InstallSnapshotRequest.LeaderID request)
                (InstallSnapshotRequest.Term request)
         else ret tt) in
    let response :=
      InstallSnapshotResponse.mk
        (if stepDown then InstallSnapshotRequest.Term request else currentTerm r) in
    run update (set_lastContact now) in
    let! r := self in
    let index := InstallSnapshotRequest.LastIncludedIndex request in
    let term := InstallSnapshotRequest.LastIncludedTerm request in
    if (index <=? lastIncludedIndex r) || (index <=? commitIndex r)
    then ret response
    else
      let! contains := readLog (fun l => Log.Contains l index) in
      let! entry :=
        (if contains : bool
         then
           let! e := attempt (readLog (fun l => Log.GetEntry l index)) in
           ret (match e with inl e => Some e | inr _ => None end)
         else ret None) in
      let snapshot :=
        SnapshotStorage.NewSnapshot index term
          (InstallSnapshotRequest.Bytes request) in
      run orFatal (onSnapshotStorage (SnapshotStorage.SaveSnapshot snapshot)) in
      run update (set_lastIncludedIndex index) in
      run update (set_lastIncludedTerm term) in
      run update (set_commitIndex index) in
      run update (set_lastApplied index) in
      run (if restored then ret tt else fun s => (Fatal, s)) in
      let keep := match entry with
                  | Some e => Log.Term e =? term
                  | None => false
                  end in
      if negb keep
      then
        run orFatal (onLog (Log.DiscardEntries index term)) in
        ret response
      else
        run orFatal (onLog (Log.Compact index)) in
        ret response.

(** *** Submitting operations

    [ch] is the response channel of the future the call returns; a
    response the call resolves it with at once shows in [delivered]. *)
Definition submitReplicatedOperation (operationBytes : list byte) (ch : nat)
  : Method unit :=
  let! r := self in
  if negb (bool_decide (state r = Leader))
  then deliver (Some ch)
         (mkResponse zeroOperation [] (Some (NotLeaderError (id r) (leaderId r))))
  else
    let! nextIdx := readLog Log.NextIndex in
    let entry := Log.NewLogEntry nextIdx (currentTerm r) operationBytes
                   Log.OperationEntry in
    run orFatal (onLog (Log.AppendEntry entry)) in
    update (fun r => set_operationManager
                       (set_pendingReplicated
                          (<[Log.Index entry := ch]>
                             (pendingReplicated (operationManager r)))
                          (operationManager r)) r).

(** [sendAppendEntriesToPeers] only starts one goroutine per peer; each
    runs later as a [sendAppendEntries] of its own. *)
Definition submitReadOnlyOperation (operationBytes : list byte)
    (readOnlyType : OperationType) (ch : nat) : Method unit :=
  let! r := self in
  if negb (bool_decide (state r = Leader))
  then deliver (Some ch)
         (mkResponse zeroOperation [] (Some (NotLeaderError (id r) (leaderId r))))
  else
    let operation :=
      mkOperation operationBytes LeaseBasedReadOnly 0 0 (commitIndex r)
        (Some ch) false in
    run update (fun r => set_operationManager
                  (set_pendingReadOnly
                     (pendingReadOnly (operationManager r) ++ [operation])
                     (operationManager r)) r) in
    let! r := self in
    if bool_decide (readOnlyType = LinearizableReadOnly)
       && shouldVerifyQuorum (operationManager r)
    then update (fun r => set_operationManager
                   (set_shouldVerifyQuorum false (operationManager r)) r)
    else ret tt.

Definition SubmitOperation (operation : list byte)
    (operationType : OperationType) (ch : nat) : Method unit :=
  match operationType with
  | Replicated => submitReplicatedOperation operation ch
  | LeaseBasedReadOnly | LinearizableReadOnly =>
      submitReadOnlyOperation operation operationType ch
  | OtherOperationType _ =>
      deliver (Some ch)
        (mkResponse zeroOperation []
           (Some (InvalidOperationTypeError operationType)))
  end.

(** *** Replication to a peer

    [make([]*LogEntry, 0, n)] panics when the capacity is out of range:
    above [maxAlloc] divided by the size of a pointer, [2^45] on the
    64-bit platforms. *)
Definition maxSliceCap : Z := 2 ^ 45.

(** The loop that collects the entries to send:
    [for index := nextIndex; index < r.log.NextIndex(); index++], here
    with [n] iterations left. *)
Fixpoint collectEntries (n : nat) (index : Z) : Method (list Log.LogEntry) :=
  match n with
  | O => ret []
  | S n' =>
      let! r := self in
      if index <=? lastIncludedIndex r then ret []
      else
        let! entry := orFatal (readLog (fun l => Log.GetEntry l index)) in
        let! rest := collectEntries n' (U64.add index 1) in
        ret (entry :: rest)
  end.

(** [sendAppendEntries], up to the point where it releases the lock and
    calls the peer: the request it has built, or [None] when it returns
    before building one. *)
Definition sendAppendEntries_request (peerID : string) (now : Z)
  : Method (option AppendEntriesRequest.t) :=
  let! r := self in
  if negb (bool_decide (state r = Leader)) then ret None
  else if String.eqb peerID (id r)
  then
    run (if (size (peers r) =? 1)%nat
         then
           let! _lastIndex := readLog Log.LastIndex in
           tryApplyReadOnlyOperations now
         else ret tt) in
    ret None
  else
    let nextIndex := default 0 (nextIndex r !! peerID) in
    let prevLogIndex := Z.max (U64.sub nextIndex 1) (lastIncludedIndex r) in
    let! nextIdx := readLog Log.NextIndex in
    let! prevLogTerm :=
      (if (lastIncludedIndex r <? prevLogIndex) && (prevLogIndex <? nextIdx)
       then
         let! prevEntry :=
           orFatal (readLog (fun l => Log.GetEntry l prevLogIndex)) in
         ret (Log.Term prevEntry)
       else ret (lastIncludedTerm r)) in
    if maxSliceCap <? U64.sub nextIdx nextIndex then panic
    else
      let! entries := collectEntries (Z.to_nat (nextIdx - nextIndex)) nextIndex in
      ret (Some (AppendEntriesRequest.mk (id r) (currentTerm r) prevLogIndex
                   prevLogTerm entries (commitIndex r))).

(** *** The commit loop *)

(** The number of peers other than this node whose match index is at
    least [index], plus one for the node itself. *)
Definition countMatches (r : Raft) (index : Z) : Z :=
  1 + Z.of_nat (length (filter
        (fun kv => fst kv <> id r /\ index <= snd kv)
        (map_to_list (matchIndex r)))).

(** The body of the loop over the indices. *)
Definition commitStep (index : Z) : Method unit :=
  let! r := self in
  let! entry := orFatal (readLog (fun l => Log.GetEntry l index)) in
  if negb (Log.Term entry =? currentTerm r) then ret tt
  else
    if hasQuorum r (countMatches r index)
    then update (set_commitIndex index)
    else ret tt.

Fixpoint commitScan (n : nat) (index : Z) : Method unit :=
  match n with
  | O => ret tt
  | S n' => run commitStep index in commitScan n' (U64.add index 1)
  end.

(** One pass of the commit loop after [commitCond.Wait] returns:
    [for index := r.commitIndex + 1; index <= r.log.LastIndex(); index++].
    When the last index is the largest [uint64] the counter wraps and the
    test never fails; the loop then ends inside its body, at the latest at
    the index of the sentinel, whose lookup fails, so nothing follows the
    full cycle of indices. *)
Definition commitLoop_iteration : Method unit :=
  let! r := self in
  if negb (bool_decide (state r = Leader)) then ret tt
  else
    let start := U64.add (commitIndex r) 1 in
    let! lastIndex := readLog Log.LastIndex in
    if lastIndex <? start then ret tt
    else if lastIndex <? U64.max
    then commitScan (Z.to_nat (lastIndex - start + 1)) start
    else run commitScan (Z.to_nat U64.modulus) start in panic.

(** *** Snapshots and the apply loop

    [snapshotBytes] is what [fsm.Snapshot] returns, [None] for an error. *)
Definition takeSnapshot (snapshotBytes : option (list byte)) : Method unit :=
  let! r := self in
  if lastApplied r <=? lastIncludedIndex r then ret tt
  else
    match snapshotBytes with
    | None => fun s => (Fatal, s)
    | Some bytes =>
        let! lastAppliedEntry :=
          orFatal (readLog (fun l => Log.GetEntry l (lastApplied r))) in
        run update (set_lastIncludedIndex (Log.Index lastAppliedEntry)) in
        run update (set_lastIncludedTerm (Log.Term lastAppliedEntry)) in
        let snapshot :=
          SnapshotStorage.NewSnapshot (Log.Index lastAppliedEntry)
            (Log.Term lastAppliedEntry) bytes in
        run orFatal (onSnapshotStorage (SnapshotStorage.SaveSnapshot snapshot)) in
        orFatal (onLog (Log.Compact (Log.Index lastAppliedEntry)))
    end.

(** What the apply loop holds while it has released the lock to call
    [fsm.Apply]: the operation and the value of [r.lastApplied] it saw. *)
Record Applying : Type := mkApplying {
  applying_operation : Operation;
  applying_lastApplied : Z
}.

(** An iteration of [for r.lastApplied < r.commitIndex] up to the release
    of the lock; [None] when the iteration ends before (no entry to
    apply, or a no-op entry). *)
Definition applyLoop_begin : Method (option Applying) :=
  let! r := self in
  if negb (lastApplied r <? commitIndex r) then ret None
  else
    let! entry :=
      orFatal (readLog (fun l => Log.GetEntry l (U64.add (lastApplied r) 1))) in
    if bool_decide (Log.EntryType entry = Log.NoOpEntry)
    then
      run update (set_lastApplied (U64.add (lastApplied r) 1)) in
      ret None
    else
      let pending := pendingReplicated (operationManager r) in
      let responseCh := pending !! Log.Index entry in
      run update (fun r => set_operationManager
                    (set_pendingReplicated (delete (Log.Index entry) pending)
                       (operationManager r)) r) in
      let operation :=
        mkOperation (Log.Data entry) Replicated (Log.Index entry)
          (Log.Term entry) 0 responseCh false in
      ret (Some (mkApplying operation (lastApplied r))).

(** The rest of the iteration, from the delivery of the response on:
    [response] is the result of [fsm.Apply], [needSnapshot] that of
    [fsm.NeedSnapshot] and [snapshotBytes] that of [fsm.Snapshot]. *)
Definition applyLoop_end (a : Applying) (response : list byte)
    (needSnapshot : bool) (snapshotBytes : option (list byte)) : Method unit :=
  run deliver (responseCh (applying_operation a))
        (mkResponse (applying_operation a) response None) in
  let! r := self in
  if negb (lastApplied r =? applying_lastApplied a) then ret tt
  else
    run update (set_lastApplied (U64.add (lastApplied r) 1)) in
    if needSnapshot then takeSnapshot snapshotBytes else ret tt.

End WithCodecs.

(** What the commit loop requires of an index before it commits it: the
    entry there is of the current term, and the node together with the
    peers whose match index has reached it are more than half of the
    cluster. *)
Definition committable (r : Raft) (index : Z) : Prop :=
  exists e, Log.GetEntry (log r) index = Ok e /\
    Log.Index e = index /\ Log.Term e = currentTerm r /\
    Z.of_nat (size (peers r)) < 2 * countMatches r index.

(** The entries of a request as the specification words them: the
    entries of the log in the interval [(prevLogIndex, log.nextIndex)]
    with an index above [lastIncludedIndex], at most [maxEntriesPerRPC]
    of them. *)
Definition entriesAsSpecified (r : Raft) (request : AppendEntriesRequest.t)
  : Prop :=
  AppendEntriesRequest.Entries request
  = filter (fun e => AppendEntriesRequest.PrevLogIndex request < Log.Index e
                     /\ Log.Index e < Log.lastIndex (log r) + 1
                     /\ lastIncludedIndex r < Log.Index e)
           (Log.entries (log r))
  /\ Log.len (AppendEntriesRequest.Entries request)
     <= maxEntriesPerRPC (options r).

End Raft.

(** ** Concrete nodes, to run the model on

    A cluster of three nodes [n1], [n2], [n3], seen from [n1].  Its log
    was compacted at index 5 and holds the entries 6 (term 2) and 7
    (term 3); the three stores are open on a disk without faults. *)
Module Demo.
Import Raft.

Definition disk : World :=
  mkWorld {[ Join "d" "log.bin" := [];
             Join (Join "d" "state") "state.bin" := [];
             "d/snapshots.bin" := [] ]}
          {[ 0%nat := mkFD (Join "d" "log.bin") 0 false;
             1%nat := mkFD (Join (Join "d" "state") "state.bin") 0 false;
             2%nat := mkFD "d/snapshots.bin" 0 false ]}
          [] 0.

Definition opts : Options := mkOptions 300 50 50 100.

Definition node (st : State) (term : Z) (vote : string)
    (log : Log.persistentLog) (commit applied : Z)
    (next match_ : gmap string Z) : Raft :=
  mkRaft "n1" "" opts {["n1"; "n2"; "n3"]}
    (newOperationManager 100) next match_ log
    (StateStorage.mkStorage (Join "d" "state") (Some 1%nat)
       (StateStorage.mkState term vote))
    (SnapshotStorage.mkStorage [SnapshotStorage.mkSnapshot 5 2 []]
       "d/snapshots.bin" (Some 2%nat))
    st commit applied term 5 2 vote 0 [].

(** [n1] as the leader of term 3: [n2] has matched index 7, [n3] is
    behind the compaction point. *)
Definition leader : Raft :=
  node Leader 3 "n1" LogWire.compacted_log 5 5
    {["n1" := 8; "n2" := 8; "n3" := 3]}
    {["n1" := 0; "n2" := 7; "n3" := 0]}.

(** [n1] as a follower of term 3 that has not voted. *)
Definition follower : Raft :=
  node Follower 3 "" LogWire.compacted_log 7 7 ∅ ∅.

(** [n1] as a follower of term 3 that voted for [n3]. *)
Definition voted_follower : Raft :=
  node Follower 3 "n3" LogWire.compacted_log 7 7 ∅ ∅.

(** [n1] as the leader of term 3 when [n2] still lacks the entries 6
    and 7. *)
Definition leader_ahead : Raft :=
  node Leader 3 "n1" LogWire.compacted_log 5 5
    {["n1" := 8; "n2" := 6; "n3" := 3]}
    {["n1" := 0; "n2" := 5; "n3" := 0]}.

(** A log of a sentinel and [n] entries of term 1, never compacted. *)
Definition long_log (n : nat) : Log.persistentLog :=
  Log.mkLog (Log.mkEntry 0 0 0 [] Log.NoOpEntry
             :: ((fun i => Log.mkEntry (Z.of_nat i) 1 0 [] Log.OperationEntry)
                   <$> seq 1 n))
            (Some 0%nat) "d".

(** [n1] as the leader of term 1 with sixty entries to send to [n2]; the
    options say at most fifty per request. *)
Definition busy_leader : Raft :=
  mkRaft "n1" "" opts {["n1"; "n2"; "n3"]}
    (newOperationManager 100)
    {["n1" := 61; "n2" := 1; "n3" := 61]} {["n1" := 0; "n2" := 0; "n3" := 60]}
    (long_log 60)
    (StateStorage.mkStorage (Join "d" "state") (Some 1%nat)
       (StateStorage.mkState 1 "n1"))
    (SnapshotStorage.mkStorage [] "d/snapshots.bin" (Some 2%nat))
    Leader 0 0 1 0 0 "n1" 0 [].

(** [n1] as it starts on empty stores: a follower of term 0 whose log
    holds the sentinel alone. *)
Definition newcomer : Raft :=
  mkRaft "n1" "" opts {["n1"; "n2"; "n3"]}
    (newOperationManager 100) ∅ ∅
    (Log.mkLog [Log.mkEntry 0 0 0 [] Log.NoOpEntry] (Some 0%nat) "d")
    (StateStorage.mkStorage (Join "d" "state") (Some 1%nat)
       (StateStorage.mkState 0 ""))
    (SnapshotStorage.mkStorage [] "d/snapshots.bin" (Some 2%nat))
    Follower 0 0 0 0 0 "" 0 [].

(** Three entries of term 1 from the leader [n2], committed up to 3;
    then one entry of term 2 at index 1 from [n3]. *)
Definition first_request : AppendEntriesRequest.t :=
  AppendEntriesRequest.mk "n2" 1 0 0
    [Log.mkEntry 1 1 0 [x61] Log.OperationEntry;
     Log.mkEntry 2 1 0 [x62] Log.OperationEntry;
     Log.mkEntry 3 1 0 [x63] Log.OperationEntry] 3.

Definition conflicting_request : AppendEntriesRequest.t :=
  AppendEntriesRequest.mk "n3" 2 0 0
    [Log.mkEntry 1 2 0 [x64] Log.OperationEntry] 0.

(** A snapshot at index 5, term 1, sent by [n2]. *)
Definition snapshot_request : InstallSnapshotRequest.t :=
  InstallSnapshotRequest.mk "n2" 1 5 1 [x73].

(** [n1] as the leader of term 1 after a snapshot at the largest index a
    [uint64] holds. *)
Definition leader_at_largest_index : Raft :=
  mkRaft "n1" "" opts {["n1"; "n2"; "n3"]}
    (newOperationManager 100) ∅ ∅
    (Log.mkLog [Log.mkEntry U64.max 1 0 [] Log.NoOpEntry] (Some 0%nat) "d")
    (StateStorage.mkStorage (Join "d" "state") (Some 1%nat)
       (StateStorage.mkState 1 "n1"))
    (SnapshotStorage.mkStorage [] "d/snapshots.bin" (Some 2%nat))
    Leader U64.max U64.max 1 U64.max 1 "n1" 0 [].

End Demo.
(** ** A node and its loops, one step at a time

    The handlers and the loops of a node run under its mutex, one at a
    time.  The apply loop alone gives the mutex up in the middle of an
    iteration, while it calls [fsm.Apply]: what it holds then is the
    [applying] component of the system. *)
Module Node.
Import Raft.

Record System : Type := mkSystem {
  node : Raft;
  world : World;
  applying : option Applying
}.

Inductive Event : Type :=
| OnAppendEntries (request : AppendEntriesRequest.t) (now : Z)
| OnInstallSnapshot (request : InstallSnapshotRequest.t) (now : Z)
    (restored : bool)
| CommitLoop
| ApplyLoopBegin
| ApplyLoopEnd (response : list byte) (needSnapshot : bool)
    (snapshotBytes : option (list byte))
| Submit (operation : list byte) (operationType : OperationType) (ch : nat).

(** The system after a call: a call that returns, with or without an
    error, leaves the node running; [Fatalf] and a panic end the
    process. *)
Definition after {A} (pending : A -> option Applying)
    (otherwise : option Applying) (x : outcome A * (Raft * World))
  : option System :=
  match x with
  | (Ok a, (r, w)) => Some (mkSystem r w (pending a))
  | (Err _, (r, w)) => Some (mkSystem r w otherwise)
  | _ => None
  end.

Section WithCodecs.
Context {state_codec : ProtoCodec StateStorage.persistentState}.
Context {entry_codec : ProtoCodec Log.LogEntry}.
Context {snapshot_codec : ProtoCodec SnapshotStorage.Snapshot}.

Definition step (ev : Event) (s : System) : option System :=
  let here := (node s, world s) in
  let same {A} (_ : A) := applying s in
  match ev with
  | OnAppendEntries request now =>
      after same (applying s) (AppendEntries request now here)
  | OnInstallSnapshot request now restored =>
      after same (applying s) (InstallSnapshot request now restored here)
  | CommitLoop => after same (applying s) (commitLoop_iteration here)
  | ApplyLoopBegin =>
      match applying s with
      | Some _ => None
      | None => after (fun a => a) None (applyLoop_begin here)
      end
  | ApplyLoopEnd response needSnapshot snapshotBytes =>
      match applying s with
      | None => None
      | Some a =>
          after (fun _ => None) None
            (applyLoop_end a response needSnapshot snapshotBytes here)
      end
  | Submit operation operationType ch =>
      after same (applying s) (SubmitOperation operation operationType ch here)
  end.

Fixpoint steps (evs : list Event) (s : System) : option System :=
  match evs with
  | [] => Some s
  | ev :: evs1 =>
      match step ev s with
      | Some s1 => steps evs1 s1
      | None => None
      end
  end.

End WithCodecs.

(** The entries of a request follow one another from the index after
    [PrevLogIndex], as [sendAppendEntries] collects them, and the indices
    are [uint64]. *)
Definition consecutive (request : AppendEntriesRequest.t) : Prop :=
  U64.valid (AppendEntriesRequest.PrevLogIndex request) /\
  forall (k : nat) e,
    AppendEntriesRequest.Entries request !! k = Some e ->
    Log.Index e = AppendEntriesRequest.PrevLogIndex request + 1 + Z.of_nat k
    /\ Log.Index e < U64.modulus.

(** No entry of the request is in conflict with an entry of the log at
    or below the commit index. *)
Definition agreesWithCommitted (r : Raft) (request : AppendEntriesRequest.t)
  : Prop :=
  forall e existing,
    e ∈ AppendEntriesRequest.Entries request ->
    Log.Index e <= commitIndex r ->
    Log.GetEntry (log r) (Log.Index e) = Ok existing ->
    Log.Term existing = Log.Term e.

(** What the ordering of the indices relies on at each event. *)
Definition admissible (ev : Event) (s : System) : Prop :=
  match ev with
  | OnAppendEntries request _ =>
      consecutive request /\ agreesWithCommitted (node s) request
  | OnInstallSnapshot request _ _ =>
      U64.valid (InstallSnapshotRequest.LastIncludedIndex request)
  | Submit _ Replicated _ => Log.lastIndex (log (node s)) < U64.max
  | _ => True
  end.

Section WithCodecs.
Context {state_codec : ProtoCodec StateStorage.persistentState}.
Context {entry_codec : ProtoCodec Log.LogEntry}.
Context {snapshot_codec : ProtoCodec SnapshotStorage.Snapshot}.

(** [reaches s evs s']: the events [evs], each admissible where it
    happens, take the system from [s] to [s']. *)
Inductive reaches : System -> list Event -> System -> Prop :=
| reaches_nil s : reaches s [] s
| reaches_cons s ev s1 evs s' :
    admissible ev s -> step ev s = Some s1 -> reaches s1 evs s' ->
    reaches s (ev :: evs) s'.

End WithCodecs.

(** [lastApplied <= commitIndex <= log.LastIndex()]. *)
Definition ordered (r : Raft) : Prop :=
  exists lastIndex,
    Log.LastIndex (log r) = Ok lastIndex /\
    lastApplied r <= commitIndex r /\ commitIndex r <= lastIndex.

(** The state the steps keep: the log is well formed, the indices are
    ordered, and an iteration of the apply loop that waits for the mutex
    saw a [lastApplied] that is still below the commit index if it is
    still the one of the node. *)
Definition consistent (s : System) : Prop :=
  let r := node s in
  Log.contiguous (log r) /\
  0 <= lastApplied r /\ lastApplied r <= commitIndex r /\
  commitIndex r <= Log.lastIndex (log r) /\
  match applying s with
  | None => True
  | Some a =>
      applying_lastApplied a <= lastApplied r /\
      (lastApplied r = applying_lastApplied a ->
       lastApplied r < commitIndex r)
  end.

End Node.
(** ** A newcomer at work *)
Module NodeDemo.
Import Raft Node.

Definition start : System := mkSystem Demo.newcomer Demo.disk None.

(** The newcomer takes three entries and commits them, starts to apply
    the first, receives a snapshot at index 5 while [fsm.Apply] runs, ends
    the iteration, refuses an operation (it is no leader) and runs its
    commit loop. *)
Definition events : list Event :=
  [OnAppendEntries Demo.first_request 1;
   ApplyLoopBegin;
   OnInstallSnapshot Demo.snapshot_request 2 true;
   ApplyLoopEnd [x01] false None;
   Submit [x65] Replicated 4%nat;
   CommitLoop].

(** The system after the first [n] of these events. *)
Definition after_events (n : nat) : System :=
  default start (steps (take n events) start).

(** The newcomer commits the three entries of term 1 it received from
    [n2], then receives from [n3] an entry of term 2 at index 1. *)
Definition conflict : list Event :=
  [OnAppendEntries Demo.first_request 1;
   OnAppendEntries Demo.conflicting_request 2].

Definition after_conflict : System := default start (steps conflict start).

End NodeDemo.
(** * Properties

    ** Machine integers *)

Lemma U64_wrap_small z : U64.valid z -> U64.wrap z = z.
Proof. unfold U64.valid, U64.wrap. intros. by apply Z.mod_small. Qed.

Lemma U64_wrap_valid z : U64.valid (U64.wrap z).
Proof.
  unfold U64.valid, U64.wrap, U64.modulus. apply Z.mod_pos_bound. lia.
Qed.

Lemma U64_add_small a b : 0 <= a + b < U64.modulus -> U64.add a b = a + b.
Proof. unfold U64.add, U64.wrap. intros. by apply Z.mod_small. Qed.

Lemma U64_sub_small a b : 0 <= a - b < U64.modulus -> U64.sub a b = a - b.
Proof. unfold U64.sub, U64.wrap. intros. by apply Z.mod_small. Qed.

Lemma U64_sub_borrow a b :
  U64.valid a -> U64.valid b -> a < b -> U64.sub a b = a - b + U64.modulus.
Proof.
  unfold U64.sub, U64.wrap, U64.valid, U64.modulus. intros Ha Hb Hlt.
  symmetry. apply (Z.mod_unique_pos _ _ (-1)); lia.
Qed.

Lemma U64_modulus_eq : U64.modulus = 18446744073709551616.
Proof. reflexivity. Qed.

Lemma I32_Z_of_byte_of_Z z : I32.Z_of_byte (I32.byte_of_Z z) = z mod 256.
Proof.
  unfold I32.Z_of_byte, I32.byte_of_Z.
  assert (Hr : 0 <= z mod 256 < 256) by (apply Z.mod_pos_bound; lia).
  destruct (Byte.of_N (Z.to_N (z mod 256))) as [b|] eqn:E.
  - apply Byte.to_of_N in E. simpl. rewrite E. lia.
  - apply Byte.of_N_None_iff in E. lia.
Qed.

Lemma I32_of_to_be z : 0 <= z < 2 ^ 31 -> I32.of_be (I32.to_be z) = z.
Proof.
  intros Hz. unfold I32.to_be, I32.of_be. rewrite !I32_Z_of_byte_of_Z.
  rewrite (Z.mod_small z (2 ^ 32)) by lia.
  assert (E : z / 2 ^ 24 mod 256 * 2 ^ 24 + z / 2 ^ 16 mod 256 * 2 ^ 16
              + z / 2 ^ 8 mod 256 * 2 ^ 8 + z mod 256 = z).
  { change (2 ^ 24) with 16777216. change (2 ^ 16) with 65536.
    change (2 ^ 8) with 256. change (2 ^ 31) with 2147483648 in Hz.
    Z.div_mod_to_equations. lia. }
  rewrite E. unfold I32.of_Z. rewrite Z.mod_small by lia.
  destruct (Z.ltb_spec z (2 ^ 31)); lia.
Qed.

(** ** Reasoning about computations that return *)

Lemma bind_Ok {S A B} (m : M S A) (k : A -> M S B) s b s' :
  bind m k s = (Ok b, s') ->
  exists a s1, m s = (Ok a, s1) /\ k a s1 = (Ok b, s').
Proof.
  unfold bind. destruct (m s) as [[a|e| |] s1]; intros E; try discriminate.
  eauto.
Qed.

Lemma wrapE_Ok {S A} msg (m : M S A) s a s' :
  wrapE msg m s = (Ok a, s') -> m s = (Ok a, s').
Proof. unfold wrapE. destruct (m s) as [[?|?| |] ?]; congruence. Qed.

Lemma orFatal_Ok {S A} (m : M S A) s a s' :
  orFatal m s = (Ok a, s') -> m s = (Ok a, s').
Proof. unfold orFatal. destruct (m s) as [[?|?| |] ?]; congruence. Qed.

Lemma attempt_Ok {S A} (m : M S A) s r s' :
  attempt m s = (Ok r, s') ->
  match r with
  | inl a => m s = (Ok a, s')
  | inr e => m s = (Err e, s')
  end.
Proof.
  unfold attempt. destruct (m s) as [[?|?| |] ?]; intros E; inversion E; done.
Qed.

Lemma os_Ok {T A} (m : M World A) (p : T) w a s' :
  os m (p, w) = (Ok a, s') -> exists w', s' = (p, w') /\ m w = (Ok a, w').
Proof.
  unfold os, zoom. simpl. destruct (m w) as [r w1]. intros E.
  inversion E; subst. eauto.
Qed.

Lemma os_Err {T A} (m : M World A) (p : T) w e s' :
  os m (p, w) = (Err e, s') -> exists w', s' = (p, w') /\ m w = (Err e, w').
Proof.
  unfold os, zoom. simpl. destruct (m w) as [r w1]. intros E.
  inversion E; subst. eauto.
Qed.

(** What a world keeps across a system call that only spends a fault flag. *)
Definition same_disk (w w' : World) : Prop :=
  files w' = files w /\ fds w' = fds w /\ tmp_seq w' = tmp_seq w.

Lemma syscall_Ok w u w' : syscall w = (Ok u, w') -> same_disk w w'.
Proof.
  unfold syscall, same_disk. destruct (faults w) as [|[|n] l]; intros E;
    inversion E; subst; done.
Qed.

Lemma syscall_reliable w : reliable w -> syscall w = (Ok tt, w).
Proof. unfold reliable, syscall. by intros ->. Qed.

Lemma the_fd_Ok f w d w' :
  the_fd f w = (Ok d, w') ->
  w' = w /\ fds w !! f = Some d /\ fd_closed d = false.
Proof.
  unfold the_fd, bind, get. simpl. destruct (fds w !! f) as [d0|]; [|done].
  destruct (fd_closed d0) eqn:Ec; [done|]. unfold ret. intros E.
  inversion E; subst. done.
Qed.

Lemma contents_Ok d w c w' :
  contents d w = (Ok c, w') -> w' = w /\ files w !! fd_name d = Some c.
Proof.
  unfold contents, bind, get. simpl.
  destruct (files w !! fd_name d); [|done]. unfold ret. intros E.
  inversion E; subst. done.
Qed.

Lemma alloc_fd_Ok name w f w' :
  alloc_fd name w = (Ok f, w') ->
  fds w !! f = None /\ files w' = files w /\ tmp_seq w' = tmp_seq w /\
  faults w' = faults w /\ fds w' = <[f := mkFD name 0 false]> (fds w).
Proof.
  unfold alloc_fd. intros E. inversion E; subst. simpl. split; [|done].
  apply not_elem_of_dom. unfold fresh_fd. apply is_fresh.
Qed.

Ltac bind_inv H :=
  let a := fresh "a" in
  let s := fresh "s" in
  let E := fresh "E" in
  apply bind_Ok in H; destruct H as (a & s & E & H).

Ltac prim_inv E :=
  first
    [ apply the_fd_Ok in E; destruct E as (-> & ? & ?)
    | apply contents_Ok in E; destruct E as (-> & ?)
    | apply syscall_Ok in E; destruct E as (? & ? & ?)
    | apply alloc_fd_Ok in E; destruct E as (? & ? & ? & ? & ?) ].

Lemma os_OpenFile_Ok name create w f w' :
  os_OpenFile name create w = (Ok f, w') ->
  fds w !! f = None /\
  fds w' = <[f := mkFD name 0 false]> (fds w) /\
  tmp_seq w' = tmp_seq w /\
  match files w !! name with
  | Some _ => files w' = files w
  | None => create = true /\ files w' = <[name := []]> (files w)
  end.
Proof.
  unfold os_OpenFile. intros H. bind_inv H. prim_inv E.
  bind_inv H. inversion E; subst; clear E.
  replace (files s0 !! name) with (files w !! name) in * by congruence.
  destruct (files w !! name) as [c|] eqn:Ef.
  - prim_inv H. repeat split; congruence.
  - destruct create; [|done]. bind_inv H. inversion E; subst; clear E.
    prim_inv H. simpl in *. repeat split; congruence.
Qed.

Lemma os_CreateTemp_Ok dir prefix w f w' :
  os_CreateTemp dir prefix w = (Ok f, w') ->
  let name := Join dir (prefix +:+ pretty (tmp_seq w)) in
  fds w !! f = None /\
  fds w' = <[f := mkFD name 0 false]> (fds w) /\
  files w' = <[name := []]> (files w).
Proof.
  unfold os_CreateTemp. intros H. bind_inv H. prim_inv E.
  bind_inv H. inversion E; subst; clear E.
  bind_inv H. inversion E; subst; clear E.
  prim_inv H. simpl in *. repeat split; congruence.
Qed.

Lemma put_fd_Ok f d w u w' :
  put_fd f d w = (Ok u, w') ->
  files w' = files w /\ fds w' = <[f := d]> (fds w) /\ tmp_seq w' = tmp_seq w.
Proof. unfold put_fd, modify. intros E. inversion E; subst. done. Qed.

Lemma file_Name_Ok f w n w' :
  file_Name f w = (Ok n, w') ->
  w' = w /\ exists d, fds w !! f = Some d /\ fd_name d = n.
Proof.
  unfold file_Name, bind, get. simpl. destruct (fds w !! f) as [d|]; [|done].
  unfold ret. intros E. inversion E; subst. eauto.
Qed.

Lemma file_Write_Ok f bs w u w' :
  file_Write f bs w = (Ok u, w') ->
  exists d c,
    fds w !! f = Some d /\ fd_closed d = false /\
    files w !! fd_name d = Some c /\
    files w' = <[fd_name d := overwrite (fd_pos d) bs c]> (files w) /\
    fds w' = <[f := mkFD (fd_name d) (fd_pos d + length bs)%nat false]> (fds w) /\
    tmp_seq w' = tmp_seq w.
Proof.
  unfold file_Write. intros H. bind_inv H. prim_inv E.
  bind_inv H. prim_inv E. bind_inv H. prim_inv E.
  bind_inv H. inversion E; subst; clear E.
  apply put_fd_Ok in H. simpl in H. destruct H as (? & ? & ?).
  exists a, a1. repeat split; try congruence.
Qed.

Lemma file_Sync_Ok f w u w' :
  file_Sync f w = (Ok u, w') ->
  same_disk w w' /\ exists d, fds w !! f = Some d /\ fd_closed d = false.
Proof.
  unfold file_Sync. intros H. bind_inv H. prim_inv E.
  apply syscall_Ok in H. eauto.
Qed.

Lemma file_Close_Ok f w u w' :
  file_Close f w = (Ok u, w') ->
  exists d,
    fds w !! f = Some d /\ fd_closed d = false /\
    files w' = files w /\ tmp_seq w' = tmp_seq w /\
    fds w' = <[f := mkFD (fd_name d) (fd_pos d) true]> (fds w).
Proof.
  unfold file_Close. intros H. bind_inv H. prim_inv E.
  bind_inv H. apply put_fd_Ok in E. destruct E as (? & ? & ?).
  prim_inv H. exists a. repeat split; congruence.
Qed.

Lemma file_Seek_Ok f off wh w pos w' :
  file_Seek f off wh w = (Ok pos, w') ->
  exists d c,
    fds w !! f = Some d /\ fd_closed d = false /\
    files w !! fd_name d = Some c /\
    pos = match wh with
          | SeekStart => off
          | SeekCurrent => (fd_pos d + off)%nat
          | SeekEnd => (length c + off)%nat
          end /\
    files w' = files w /\ tmp_seq w' = tmp_seq w /\
    fds w' = <[f := mkFD (fd_name d) pos false]> (fds w).
Proof.
  unfold file_Seek. intros H. bind_inv H. prim_inv E.
  bind_inv H. prim_inv E. bind_inv H. prim_inv E.
  bind_inv H. apply put_fd_Ok in E. destruct E as (? & ? & ?).
  inversion H; subst; clear H.
  exists a, a1. repeat split; congruence.
Qed.

Lemma file_Truncate_Ok f size w u w' :
  file_Truncate f size w = (Ok u, w') ->
  exists d c,
    fds w !! f = Some d /\ fd_closed d = false /\
    files w !! fd_name d = Some c /\
    files w' = <[fd_name d := take size c ++ replicate (size - length c)%nat x00]>
                 (files w) /\
    fds w' = fds w /\ tmp_seq w' = tmp_seq w.
Proof.
  unfold file_Truncate. intros H. bind_inv H. prim_inv E.
  bind_inv H. prim_inv E. bind_inv H. prim_inv E.
  inversion H; subst; clear H. simpl.
  exists a, a1. repeat split; congruence.
Qed.

Lemma os_Rename_Ok old new w u w' :
  os_Rename old new w = (Ok u, w') ->
  exists c,
    files w !! old = Some c /\
    files w' = <[new := c]> (delete old (files w)) /\
    fds w' = fds w /\ tmp_seq w' = tmp_seq w.
Proof.
  unfold os_Rename. intros H. bind_inv H. prim_inv E.
  bind_inv H. inversion E; subst; clear E.
  destruct (files s0 !! old) as [c|] eqn:Ef; [|done].
  inversion H; subst; clear H. simpl.
  exists c. repeat split; congruence.
Qed.

Lemma io_ReadFull_Ok f n w bs w' :
  io_ReadFull f n w = (Ok bs, w') ->
  (n = 0%nat /\ bs = [] /\ w' = w) \/
  (n <> 0%nat /\ exists d c,
     fds w !! f = Some d /\ fd_closed d = false /\
     files w !! fd_name d = Some c /\
     (n <= length (drop (fd_pos d) c))%nat /\
     bs = take n (drop (fd_pos d) c) /\
     files w' = files w /\ tmp_seq w' = tmp_seq w /\
     fds w' = <[f := mkFD (fd_name d) (fd_pos d + n)%nat false]> (fds w)).
Proof.
  unfold io_ReadFull. destruct (Nat.eqb_spec n 0) as [->|Hn].
  { intros E. inversion E. by left. }
  intros H. right. split; [done|].
  bind_inv H. prim_inv E. bind_inv H. prim_inv E. bind_inv H. prim_inv E.
  destruct (Nat.eqb_spec (length (drop (fd_pos a) a1)) 0); [done|].
  destruct (Nat.ltb_spec (length (drop (fd_pos a) a1)) n).
  { bind_inv H. done. }
  bind_inv H. apply put_fd_Ok in E. destruct E as (? & ? & ?).
  inversion H; subst; clear H.
  exists a, a1. repeat split; try congruence; try lia.
Qed.

Lemma syscall_cases w :
  exists w', same_disk w w' /\ (reliable w -> reliable w') /\
    (syscall w = (Ok tt, w') \/
     syscall w = (Err ErrIO, w') /\ ~ reliable w).
Proof.
  unfold syscall, same_disk, reliable.
  destruct (faults w) as [|[|n] l] eqn:Ef.
  - exists w. repeat split; auto.
  - exists (set_faults l w). repeat split; auto; done.
  - exists (set_faults (n :: l) w). repeat split; auto; done.
Qed.

(** A record as [Encode] lays it out. *)
Definition frame (buf : list byte) : list byte :=
  I32.to_be (I32.of_Z (Z.of_nat (length buf))) ++ buf.

Lemma I32_of_Z_small z : 0 <= z < 2 ^ 31 -> I32.of_Z z = z.
Proof.
  intros Hz. unfold I32.of_Z. rewrite Z.mod_small by lia.
  destruct (Z.ltb_spec z (2 ^ 31)); lia.
Qed.

Lemma to_be_length z : length (I32.to_be z) = 4%nat.
Proof. reflexivity. Qed.

Lemma overwrite_end c bs : overwrite (length c) bs c = c ++ bs.
Proof.
  unfold overwrite. rewrite firstn_all, Nat.sub_diag. cbn [replicate app].
  rewrite drop_ge by lia. by rewrite app_nil_r.
Qed.

(** [io.ReadFull] when enough bytes are left: it returns them, unless the
    system call fails. *)
Lemma io_ReadFull_run f n w d c r w' :
  fds w !! f = Some d -> fd_closed d = false ->
  files w !! fd_name d = Some c ->
  (0 < n <= length (drop (fd_pos d) c))%nat ->
  io_ReadFull f n w = (r, w') ->
  files w' = files w /\ (reliable w -> reliable w') /\
  (r = Err ErrIO /\ ~ reliable w \/
   r = Ok (take n (drop (fd_pos d) c)) /\
   fds w' = <[f := mkFD (fd_name d) (fd_pos d + n)%nat false]> (fds w)).
Proof.
  intros Hfd Hc Hfile Hn. unfold io_ReadFull.
  destruct (Nat.eqb_spec n 0); [lia|].
  unfold bind at 1, the_fd, bind at 1, get. cbn beta iota. rewrite Hfd.
  cbn beta iota. rewrite Hc. unfold ret at 1, bind at 1.
  destruct (syscall_cases w) as (w1 & (Hf1 & Hd1 & Ht1) & Hr1 & [E1|[E1 Hn1]]);
    rewrite E1.
  2:{ intros E; inversion E; subst. split; [done|]. split; [done|]. by left. }
  unfold bind at 1, contents, bind at 1, get. cbn beta iota.
  rewrite Hf1, Hfile. unfold ret at 1.
  destruct (Nat.eqb_spec (length (drop (fd_pos d) c)) 0); [lia|].
  destruct (Nat.ltb_spec (length (drop (fd_pos d) c)) n); [lia|].
  unfold bind at 1, put_fd, modify, ret.
  intros E; inversion E; subst. cbn. split; [done|]. split; [done|].
  right. by rewrite Hd1.
Qed.

(** Reading a framed record back from the start of a descriptor gives the
    record, unless a system call fails. *)
Lemma Decode_frame {A} `{ProtoCodec A} f name w buf rest (x : A) r w' :
  fds w !! f = Some (mkFD name 0 false) ->
  files w !! name = Some (frame buf ++ rest) ->
  Unmarshal buf = Some x ->
  Z.of_nat (length buf) < 2 ^ 31 ->
  Decode f w = (r, w') ->
  files w' = files w /\ (reliable w -> reliable w') /\
  (r = Err ErrIO /\ ~ reliable w \/
   r = Ok x /\ fds w' = <[f := mkFD name (4 + length buf)%nat false]> (fds w)).
Proof.
  intros Hfd Hfile Hun Hlen. unfold Decode, bind at 1.
  assert (Hsz : I32.of_Z (Z.of_nat (length buf)) = Z.of_nat (length buf))
    by (apply I32_of_Z_small; lia).
  assert (Hfl : length (frame buf ++ rest) = (4 + length buf + length rest)%nat).
  { unfold frame. rewrite !length_app, to_be_length. lia. }
  destruct (io_ReadFull f 4 w) as [r1 w1] eqn:E1.
  eapply io_ReadFull_run in E1; [|exact Hfd|done|exact Hfile|].
  2:{ cbn [fd_pos]. rewrite drop_0, Hfl. lia. }
  cbn [fd_pos fd_name] in E1.
  destruct E1 as (Hf1 & Hr1 & [[-> Hn1]|[-> Hd1]]).
  { intros E; inversion E; subst. split; [done|]. split; [done|]. by left. }
  rewrite drop_0.
  replace (take 4 (frame buf ++ rest))
    with (I32.to_be (I32.of_Z (Z.of_nat (length buf)))).
  2:{ unfold frame. rewrite <- app_assoc. rewrite take_app_length'; done. }
  rewrite Hsz, I32_of_to_be by lia.
  destruct (Z.ltb_spec (Z.of_nat (length buf)) 0); [lia|].
  rewrite Nat2Z.id. unfold bind at 1.
  destruct (io_ReadFull f (length buf) w1) as [r2 w2] eqn:E2.
  destruct (Nat.eq_dec (length buf) 0) as [E0|E0].
  { unfold io_ReadFull in E2. rewrite E0 in E2. cbn in E2.
    inversion E2; subst. destruct buf; [|done]. rewrite Hun. unfold ret.
    intros E; inversion E; subst. split; [done|]. split; [done|].
    right. done. }
  eapply io_ReadFull_run in E2;
    [|rewrite Hd1; apply lookup_insert_eq|done|cbn [fd_name]; rewrite Hf1; exact Hfile|].
  2:{ cbn [fd_pos]. rewrite length_drop, Hfl. lia. }
  cbn [fd_pos fd_name] in E2.
  destruct E2 as (Hf2 & Hr2 & [[-> Hn2]|[-> Hd2]]).
  { intros E; inversion E; subst. split; [congruence|]. split; [tauto|].
    left. tauto. }
  replace (drop (0 + 4) (frame buf ++ rest)) with (buf ++ rest).
  2:{ unfold frame. rewrite <- app_assoc. rewrite drop_app_length'; done. }
  rewrite take_app_length, Hun. unfold ret.
  intros E; inversion E; subst. split; [congruence|]. split; [tauto|]. right.
  split; [done|]. rewrite Hd2, Hd1. by rewrite insert_insert_eq.
Qed.

Lemma os_OpenFile_run name create w c r w' :
  files w !! name = Some c ->
  os_OpenFile name create w = (r, w') ->
  files w' = files w /\ (reliable w -> reliable w') /\
  (r = Err ErrIO /\ ~ reliable w \/
   exists f, r = Ok f /\ fds w' = <[f := mkFD name 0 false]> (fds w)).
Proof.
  intros Hc. unfold os_OpenFile, bind at 1.
  destruct (syscall_cases w) as (w1 & (Hf1 & Hd1 & Ht1) & Hr1 & [E1|[E1 Hn1]]);
    rewrite E1.
  2:{ intros E; inversion E; subst. split; [done|]. split; [done|]. by left. }
  unfold bind, get. rewrite Hf1, Hc. unfold alloc_fd.
  intros E; inversion E; subst. cbn. split; [done|]. split; [done|].
  right. eexists. split; [done|]. by rewrite Hd1.
Qed.

(** ** System calls on a disk without faults *)

Lemma bind_run_Ok {S A B} (m : M S A) (k : A -> M S B) s a s1 :
  m s = (Ok a, s1) -> bind m k s = k a s1.
Proof. unfold bind. by intros ->. Qed.

Lemma wrapE_run_Ok {S A} msg (m : M S A) s a s1 :
  m s = (Ok a, s1) -> wrapE msg m s = (Ok a, s1).
Proof. unfold wrapE. by intros ->. Qed.

Lemma os_run {T A} (m : M World A) (p : T) w r w1 :
  m w = (r, w1) -> os m (p, w) = (r, (p, w1)).
Proof. unfold os, zoom. cbn [fst snd]. by intros ->. Qed.

Lemma fd_shape_lookup w f n c :
  fd_shape w !! f = Some (n, c) <->
  exists d, fds w !! f = Some d /\ fd_name d = n /\ fd_closed d = c.
Proof.
  unfold fd_shape. rewrite lookup_fmap. destruct (fds w !! f) as [d|]; cbn.
  - split.
    + intros E. inversion E. eauto.
    + intros (d' & E & <- & <-). by inversion E.
  - split; [done|]. by intros (? & ? & _).
Qed.

Lemma file_names_lookup w n : n ∈ file_names w <-> is_Some (files w !! n).
Proof. unfold file_names. apply elem_of_dom. Qed.

Lemma the_fd_open w f n :
  fd_shape w !! f = Some (n, false) ->
  exists d, the_fd f w = (Ok d, w) /\ fds w !! f = Some d /\
            fd_name d = n /\ fd_closed d = false.
Proof.
  intros (d & Hd & Hn & Hc)%fd_shape_lookup. exists d.
  split; [|done]. unfold the_fd, bind, get, ret. cbn beta iota.
  rewrite Hd. cbn beta iota. by rewrite Hc.
Qed.

Lemma contents_exists w d :
  fd_name d ∈ file_names w ->
  exists c, contents d w = (Ok c, w) /\ files w !! fd_name d = Some c.
Proof.
  intros [c Hc]%file_names_lookup. exists c.
  split; [|done]. unfold contents, bind, get, ret. cbn beta iota.
  by rewrite Hc.
Qed.

Lemma os_CreateTemp_reliable dir prefix w :
  reliable w ->
  let name := Join dir (prefix +:+ pretty (tmp_seq w)) in
  exists f w',
    os_CreateTemp dir prefix w = (Ok f, w') /\ reliable w' /\
    fds w !! f = None /\
    fd_shape w' = <[f := (name, false)]> (fd_shape w) /\
    file_names w' = {[name]} ∪ file_names w.
Proof.
  intros Hr name. unfold os_CreateTemp.
  rewrite (bind_run_Ok _ _ _ _ _ (syscall_reliable w Hr)).
  unfold bind at 1, get. unfold bind at 1, put. unfold alloc_fd.
  eexists _, _. split; [reflexivity|]. cbn.
  split; [done|]. split.
  { apply not_elem_of_dom. unfold fresh_fd. cbn. apply is_fresh. }
  unfold fd_shape, file_names. cbn. rewrite fmap_insert, dom_insert_L. done.
Qed.

Lemma file_Seek_reliable f off wh w n :
  reliable w -> fd_shape w !! f = Some (n, false) -> n ∈ file_names w ->
  exists pos w',
    file_Seek f off wh w = (Ok pos, w') /\ reliable w' /\
    fd_shape w' = fd_shape w /\ file_names w' = file_names w.
Proof.
  intros Hr Hs Hn. destruct (the_fd_open _ _ _ Hs) as (d & E1 & Hd & <- & Hc).
  destruct (contents_exists _ _ Hn) as (c & E2 & _).
  unfold file_Seek. rewrite (bind_run_Ok _ _ _ _ _ E1).
  rewrite (bind_run_Ok _ _ _ _ _ (syscall_reliable w Hr)).
  rewrite (bind_run_Ok _ _ _ _ _ E2).
  unfold bind, put_fd, modify, ret. eexists _, _. split; [reflexivity|].
  split; [done|]. unfold fd_shape, file_names. cbn. split; [|done].
  rewrite fmap_insert. cbn. apply insert_id. rewrite lookup_fmap, Hd. cbn.
  by rewrite Hc.
Qed.

Lemma file_Write_reliable f bs w n :
  reliable w -> fd_shape w !! f = Some (n, false) -> n ∈ file_names w ->
  exists w',
    file_Write f bs w = (Ok tt, w') /\ reliable w' /\
    fd_shape w' = fd_shape w /\ file_names w' = file_names w.
Proof.
  intros Hr Hs Hn. destruct (the_fd_open _ _ _ Hs) as (d & E1 & Hd & <- & Hc).
  destruct (contents_exists _ _ Hn) as (c & E2 & Hf).
  unfold file_Write. rewrite (bind_run_Ok _ _ _ _ _ E1).
  rewrite (bind_run_Ok _ _ _ _ _ (syscall_reliable w Hr)).
  rewrite (bind_run_Ok _ _ _ _ _ E2).
  unfold bind, put_fd, modify, ret. eexists. split; [reflexivity|].
  split; [done|]. unfold fd_shape, file_names. cbn. split.
  - rewrite fmap_insert. cbn. apply insert_id. rewrite lookup_fmap, Hd. cbn.
    by rewrite Hc.
  - rewrite dom_insert_L. apply subseteq_union_1_L.
    apply singleton_subseteq_l. by apply elem_of_dom_2 in Hf.
Qed.

Lemma file_Sync_reliable f w n :
  reliable w -> fd_shape w !! f = Some (n, false) ->
  file_Sync f w = (Ok tt, w).
Proof.
  intros Hr Hs. destruct (the_fd_open _ _ _ Hs) as (d & E1 & _).
  unfold file_Sync. rewrite (bind_run_Ok _ _ _ _ _ E1).
  by apply syscall_reliable.
Qed.

Lemma file_Close_reliable f w n :
  reliable w -> fd_shape w !! f = Some (n, false) ->
  exists w',
    file_Close f w = (Ok tt, w') /\ reliable w' /\
    fd_shape w' = <[f := (n, true)]> (fd_shape w) /\
    file_names w' = file_names w.
Proof.
  intros Hr Hs. destruct (the_fd_open _ _ _ Hs) as (d & E1 & Hd & <- & Hc).
  unfold file_Close. rewrite (bind_run_Ok _ _ _ _ _ E1).
  unfold bind at 1, put_fd, modify.
  eexists. split; [apply syscall_reliable; done|].
  split; [done|]. unfold fd_shape, file_names. cbn.
  by rewrite fmap_insert.
Qed.

Lemma file_Name_shape f w n c :
  fd_shape w !! f = Some (n, c) -> file_Name f w = (Ok n, w).
Proof.
  intros (d & Hd & <- & _)%fd_shape_lookup.
  unfold file_Name, bind, get, ret. cbn beta iota. by rewrite Hd.
Qed.

Lemma os_Rename_reliable old new w :
  reliable w -> old ∈ file_names w ->
  exists w',
    os_Rename old new w = (Ok tt, w') /\ reliable w' /\
    fd_shape w' = fd_shape w /\
    file_names w' = {[new]} ∪ (file_names w ∖ {[old]}).
Proof.
  intros Hr [c Hc]%file_names_lookup. unfold os_Rename.
  rewrite (bind_run_Ok _ _ _ _ _ (syscall_reliable w Hr)).
  unfold bind, get, put. cbn beta iota. rewrite Hc.
  eexists. split; [reflexivity|].
  split; [done|]. unfold fd_shape, file_names. cbn. split; [done|].
  by rewrite dom_insert_L, dom_delete_L.
Qed.

Lemma os_OpenFile_reliable name create w :
  reliable w -> name ∈ file_names w ->
  exists f w',
    os_OpenFile name create w = (Ok f, w') /\ reliable w' /\
    fds w !! f = None /\
    fd_shape w' = <[f := (name, false)]> (fd_shape w) /\
    file_names w' = file_names w.
Proof.
  intros Hr [c Hc]%file_names_lookup. unfold os_OpenFile.
  rewrite (bind_run_Ok _ _ _ _ _ (syscall_reliable w Hr)).
  unfold bind, get. cbn beta iota. rewrite Hc. unfold alloc_fd.
  eexists _, _. split; [reflexivity|]. split; [done|]. split.
  { apply not_elem_of_dom. unfold fresh_fd. apply is_fresh. }
  unfold fd_shape, file_names. cbn. by rewrite fmap_insert.
Qed.

Lemma Encode_file_reliable {A} `{ProtoCodec A} f (x : A) w n :
  reliable w -> fd_shape w !! f = Some (n, false) -> n ∈ file_names w ->
  is_Some (Marshal x) ->
  exists w',
    Encode (file_Write f) x w = (Ok tt, w') /\ reliable w' /\
    fd_shape w' = fd_shape w /\ file_names w' = file_names w.
Proof.
  intros Hr Hs Hn [buf HM]. unfold Encode. rewrite HM.
  destruct (file_Write_reliable f (I32.to_be (I32.of_Z (Z.of_nat (length buf))))
              w n Hr Hs Hn) as (w1 & E1 & Hr1 & Hs1 & Hn1).
  rewrite (bind_run_Ok _ _ _ _ _ E1).
  destruct (file_Write_reliable f buf w1 n Hr1) as (w2 & E2 & Hr2 & Hs2 & Hn2);
    [by rewrite Hs1|by rewrite Hn1|].
  exists w2. split; [done|]. split; [done|]. split; congruence.
Qed.
(** ** Computations that return no error *)

Lemma bind_Err {S A B} (m : M S A) (k : A -> M S B) s e s' :
  bind m k s = (Err e, s') ->
  m s = (Err e, s') \/ exists a s1, m s = (Ok a, s1) /\ k a s1 = (Err e, s').
Proof.
  unfold bind. destruct (m s) as [[a|e1| |] s1]; intros E; try discriminate.
  - right. eauto.
  - left. inversion E; subst. reflexivity.
Qed.

Lemma noErr_ret {S A} (a : A) : noErr (ret a : M S A).
Proof. intros s e s'. unfold ret. congruence. Qed.

Lemma noErr_panic {S A} : noErr (panic : M S A).
Proof. intros s e s'. unfold panic. congruence. Qed.

Lemma noErr_fatal {S A} : noErr (fun s => (Fatal, s) : outcome A * S).
Proof. intros s e s'. congruence. Qed.

Lemma noErr_bind {S A B} (m : M S A) (k : A -> M S B) :
  noErr m -> (forall a, noErr (k a)) -> noErr (bind m k).
Proof.
  intros Hm Hk s e s' E. apply bind_Err in E as [E|(a & s1 & _ & E)].
  - by apply Hm in E.
  - by apply Hk in E.
Qed.

Lemma noErr_orFatal {S A} (m : M S A) : noErr (orFatal m).
Proof.
  intros s e s'. unfold orFatal. destruct (m s) as [[?|?| |] ?]; congruence.
Qed.

Lemma noErr_attempt {S A} (m : M S A) : noErr (attempt m).
Proof.
  intros s e s'. unfold attempt. destruct (m s) as [[?|?| |] ?]; congruence.
Qed.

Lemma noErr_self {T} : noErr (self : M (T * World) T).
Proof. intros s e s'. unfold self, gets. congruence. Qed.

Lemma noErr_update {T} (f : T -> T) : noErr (update f).
Proof. intros s e s'. unfold update, modify. congruence. Qed.

Create HintDb noerr.
#[global] Hint Resolve noErr_ret noErr_panic noErr_fatal noErr_orFatal
  noErr_attempt noErr_self noErr_update : noerr.

(** Follow the shape of a method body: binds, branches, then the hints. *)
Ltac no_err :=
  repeat first
    [ progress intros
    | solve [auto with noerr]
    | match goal with
      | |- noErr (bind _ _) => apply noErr_bind
      | |- noErr (if ?c then _ else _) => destruct c
      | |- noErr (match ?x with _ => _ end) => destruct x
      end ].

(** An error a method can only have returned from its first lines. *)
Ltac absurd_Err :=
  match goal with
  | |- ?m ?s = (Err _, _) -> _ =>
      let Hn := fresh "Hn" in
      let E := fresh "E" in
      assert (noErr m) as Hn by no_err;
      intros E; exfalso; exact (Hn _ _ _ E)
  end.

(** ** The state storage *)

Ltac peel E :=
  repeat first [apply wrapE_Ok in E | apply orFatal_Ok in E];
  try (apply os_Ok in E; destruct E as (? & -> & E)).

Tactic Notation "peel" hyp(E) "as" ident(w) :=
  repeat first [apply wrapE_Ok in E | apply orFatal_Ok in E];
  apply os_Ok in E; destruct E as (w & -> & E).

(** One step of a method body that calls into the operating system. *)
Tactic Notation "os_step" hyp(H) "as" ident(w) ident(E) :=
  let a := fresh "a" in
  let s := fresh "s" in
  apply bind_Ok in H; destruct H as (a & s & E & H);
  repeat first [apply wrapE_Ok in E | apply orFatal_Ok in E];
  apply os_Ok in E; destruct E as (w & -> & E).

Lemma self_Ok {T} (p : T) w a s' :
  self (p, w) = (Ok a, s') -> a = p /\ s' = (p, w).
Proof. unfold self, gets. intros E. inversion E; subst. done. Qed.

Lemma update_Ok {T} (g : T -> T) (p : T) w u s' :
  update g (p, w) = (Ok u, s') -> s' = (g p, w).
Proof. unfold update, modify. intros E. inversion E; subst. done. Qed.

Lemma tmp_name_ne dir x : Join dir ("tmp-" +:+ x) <> Join dir "state.bin".
Proof.
  unfold Join. intros E. apply (inj (String.app dir)) in E. discriminate.
Qed.

Section StateStorageFacts.
Context `{ProtoCodec StateStorage.persistentState}.
Import StateStorage.

(** A successful [SetState] leaves the new pair in memory and its framed
    encoding as the whole content of the state file, and the storage open
    on that file. *)
Lemma SetState_Ok p w t v u p' w' :
  opened p w ->
  SetState t v (p, w) = (Ok u, (p', w')) ->
  exists buf f',
    Marshal (mkState t v) = Some buf /\
    p' = mkStorage (stateDir p) (Some f') (mkState t v) /\
    files w' !! Join (stateDir p) "state.bin" = Some (frame buf) /\
    exists d', fds w' !! f' = Some d' /\ fd_closed d' = false /\
               fd_name d' = Join (stateDir p) "state.bin".
Proof.
  intros (f & d & Hf & Hd & Hn) H0. unfold SetState in H0.
  bind_inv H0. apply self_Ok in E as [-> ->]. rewrite Hf in H0.
  bind_inv H0. peel E as w1. rename a into tf.
  apply os_CreateTemp_Ok in E. cbn zeta in E.
  destruct E as (Hfresh & Hfds1 & Hfiles1).
  bind_inv H0. apply update_Ok in E as ->.
  bind_inv H0. peel E as w3. unfold encodePersistentState, Encode in E.
  destruct (Marshal (mkState t v)) as [buf|] eqn:EM; [|done].
  set (tmp := Join (stateDir p) ("tmp-" +:+ pretty (tmp_seq w))) in *.
  set (sb := Join (stateDir p) "state.bin") in *.
  assert (Hne : tmp <> sb) by apply tmp_name_ne.
  assert (Hfa : f <> tf) by congruence.
  (* the two writes of the record *)
  apply bind_Ok in E. destruct E as (? & w2 & E0 & E).
  apply file_Write_Ok in E0.
  destruct E0 as (d0 & c0 & Hd0 & _ & Hc0 & Hfiles2 & Hfds2 & _).
  rewrite Hfds1, lookup_insert_eq in Hd0. inversion Hd0; subst d0; clear Hd0.
  cbn [fd_name fd_pos] in *.
  rewrite Hfiles1, lookup_insert_eq in Hc0. inversion Hc0; subst c0; clear Hc0.
  apply file_Write_Ok in E.
  destruct E as (d1 & c1 & Hd1 & _ & Hc1 & Hfiles3 & Hfds3 & _).
  rewrite Hfds2, lookup_insert_eq in Hd1. inversion Hd1; subst d1; clear Hd1.
  cbn [fd_name fd_pos] in *.
  rewrite Hfiles2, lookup_insert_eq in Hc1. inversion Hc1; subst c1; clear Hc1.
  assert (Hcontent : files w3 !! tmp = Some (frame buf)).
  { rewrite Hfiles3, lookup_insert_eq. f_equal.
    rewrite (overwrite_end [] _). cbn [app].
    apply (overwrite_end (I32.to_be _) buf). }
  assert (Hfx : fds w3 !! f = Some d).
  { rewrite Hfds3, Hfds2, Hfds1. by rewrite !lookup_insert_ne. }
  assert (Hax : exists da, fds w3 !! tf = Some da /\ fd_name da = tmp).
  { rewrite Hfds3, lookup_insert_eq. eauto. }
  clear Hfiles1 Hfiles2 Hfiles3 Hfds1 Hfds2 Hfds3 Hfresh.
  (* sync and the two closes *)
  bind_inv H0. peel E as w4. apply file_Sync_Ok in E as [(Hf4 & Hd4 & _) _].
  rewrite <- Hf4 in Hcontent. rewrite <- Hd4 in Hfx, Hax. clear Hf4 Hd4.
  bind_inv H0. peel E as w5. apply file_Close_Ok in E.
  destruct E as (da & Hda & _ & Hf5 & _ & Hd5).
  destruct Hax as (da' & Hda' & Hna). rewrite Hda in Hda'.
  inversion Hda'; subst da'; clear Hda'.
  rewrite <- Hf5 in Hcontent.
  assert (Hfx2 : fds w5 !! f = Some d) by (by rewrite Hd5, lookup_insert_ne).
  assert (Hax2 : exists da, fds w5 !! tf = Some da /\ fd_name da = tmp).
  { rewrite Hd5, lookup_insert_eq. eauto. }
  clear Hf5 Hd5 Hda Hfx.
  bind_inv H0. peel E as w6. apply file_Close_Ok in E.
  destruct E as (d' & Hd' & _ & Hf6 & _ & Hd6).
  rewrite Hfx2 in Hd'. inversion Hd'; subst d'; clear Hd'.
  rewrite <- Hf6 in Hcontent.
  assert (Hfx3 : exists df, fds w6 !! f = Some df /\ fd_name df = sb).
  { rewrite Hd6, lookup_insert_eq. eauto. }
  assert (Hax3 : exists da, fds w6 !! tf = Some da /\ fd_name da = tmp).
  { rewrite Hd6, lookup_insert_ne by done. done. }
  clear Hf6 Hd6 Hfx2 Hax2.
  (* the rename *)
  bind_inv H0. peel E as w7. apply file_Name_Ok in E as (-> & dn & Hdn & <-).
  destruct Hax3 as (da3 & Hda3 & Hna3). rewrite Hda3 in Hdn.
  inversion Hdn; subst dn; clear Hdn. rewrite Hna3 in H0.
  bind_inv H0. peel E as w8. apply file_Name_Ok in E as (-> & dn & Hdn & <-).
  destruct Hfx3 as (df3 & Hdf3 & Hnf3). rewrite Hdf3 in Hdn.
  inversion Hdn; subst dn; clear Hdn. rewrite Hnf3 in H0.
  bind_inv H0. peel E as w9. apply os_Rename_Ok in E.
  destruct E as (c & Hc & Hf7 & _ & _).
  rewrite Hcontent in Hc. inversion Hc; subst c; clear Hc.
  assert (Hsb : files w9 !! sb = Some (frame buf))
    by (by rewrite Hf7, lookup_insert_eq).
  clear Hf7 Hcontent.
  (* reopening the state file *)
  apply bind_Ok in H0. destruct H0 as (newFile & s10 & E & H0).
  apply attempt_Ok in E. destruct newFile as [nf|e].
  2:{ bind_inv H0. done. }
  peel E as w10. apply os_OpenFile_Ok in E. destruct E as (_ & Hd8 & _ & Hf8).
  rewrite Hsb in Hf8. rewrite <- Hf8 in Hsb.
  bind_inv H0. apply update_Ok in E as ->.
  bind_inv H0. peel E as w11. apply file_Seek_Ok in E.
  destruct E as (d9 & c9 & Hd9 & _ & _ & _ & Hf9 & _ & Hd10).
  rewrite Hd8, lookup_insert_eq in Hd9. inversion Hd9; subst d9; clear Hd9.
  inversion H0; subst; clear H0.
  exists buf, nf. split; [done|]. split; [by destruct p|].
  split; [by rewrite Hf9|].
  eexists. rewrite Hd10, lookup_insert_eq. done.
Qed.

(** [State] reads the memory of an open storage and changes nothing. *)
Lemma State_open p w f :
  file p = Some f ->
  State (p, w) = (Ok (term (state p), votedFor (state p)), (p, w)).
Proof.
  intros Hf. unfold State, bind, self, gets, ret. cbn [fst]. by rewrite Hf.
Qed.

Lemma States_open p w f n :
  file p = Some f ->
  States n (p, w) = (Ok (term (state p), votedFor (state p)), (p, w)).
Proof.
  intros Hf. induction n as [|n IH]; cbn [States].
  - by apply State_open with f.
  - unfold bind. by rewrite (State_open p w f).
Qed.

Lemma Open_run p w c r s :
  files w !! Join (stateDir p) "state.bin" = Some c ->
  Open (p, w) = (r, s) ->
  (exists e, r = Err e) /\ ~ reliable w \/
  exists f w', r = Ok tt /\ s = (set_file (Some f) p, w') /\
    files w' = files w /\ (reliable w -> reliable w') /\
    fds w' !! f = Some (mkFD (Join (stateDir p) "state.bin") 0 false).
Proof.
  intros Hc. unfold Open, bind at 1, self, gets. cbn [fst].
  unfold bind at 1, wrapE, os, zoom. cbn [snd fst].
  destruct (os_OpenFile (Join (stateDir p) "state.bin") true w)
    as [r1 w1] eqn:E1.
  eapply os_OpenFile_run in E1; [|exact Hc].
  destruct E1 as (Hf1 & Hr1 & [[-> Hn1]|(f & -> & Hd1)]).
  { intros E; inversion E; subst. left. eauto. }
  unfold update, modify. cbn [fst snd]. intros E; inversion E; subst.
  right. exists f, w1. repeat split; try done.
  rewrite Hd1. apply lookup_insert_eq.
Qed.

Lemma Replay_run p w f name buf x r s :
  file p = Some f ->
  fds w !! f = Some (mkFD name 0 false) ->
  files w !! name = Some (frame buf) ->
  Unmarshal buf = Some x ->
  Z.of_nat (length buf) < 2 ^ 31 ->
  Replay (p, w) = (r, s) ->
  (exists e, r = Err e) /\ ~ reliable w \/
  exists w', r = Ok tt /\ s = (set_state x p, w') /\
    files w' = files w /\ (reliable w -> reliable w').
Proof.
  intros Hf Hd Hc Hun Hlen. unfold Replay, bind at 1, self, gets. cbn [fst].
  rewrite Hf. unfold bind at 1, attempt, os, zoom. cbn [snd fst].
  destruct (decodePersistentState f w) as [r2 w2] eqn:E2.
  unfold decodePersistentState in E2.
  eapply (Decode_frame f _ w buf []) in E2;
    [|exact Hd|rewrite app_nil_r; exact Hc|exact Hun|exact Hlen].
  destruct E2 as (Hf2 & Hr2 & [[-> Hn2]|[-> Hd2]]).
  { destruct (decide (ErrIO = EOF)) as [?|_]; [done|]. unfold fail.
    intros E; inversion E; subst. left. eauto. }
  unfold update, modify. cbn [fst snd]. intros E; inversion E; subst.
  right. exists w2. done.
Qed.

(** Reopening a directory whose state file holds one framed record
    returns that record, unless a system call of the restarted process
    fails. *)
Lemma reopen_frame dir w buf t v r s :
  files w !! Join dir "state.bin" = Some (frame buf) ->
  Unmarshal buf = Some (mkState t v) ->
  Z.of_nat (length buf) < 2 ^ 31 ->
  reopen (mkStorage dir None (mkState 0 ""), w) = (r, s) ->
  r = Ok (t, v) \/ (exists e, r = Err e) /\ ~ reliable w.
Proof.
  intros Hfile Hun Hlen. unfold reopen, bind at 1.
  destruct (Open _) as [r1 s1] eqn:E1.
  eapply Open_run in E1; [|exact Hfile].
  destruct E1 as [[(e & ->) Hn]|(f & w1 & -> & -> & Hf1 & Hr1 & Hd1)].
  { intros E; inversion E; subst. right. eauto. }
  unfold bind at 1. destruct (Replay _) as [r2 s2] eqn:E2.
  eapply (Replay_run _ _ f) in E2;
    [|done|exact Hd1|rewrite Hf1; exact Hfile|exact Hun|exact Hlen].
  destruct E2 as [[(e & ->) Hn]|(w2 & -> & -> & Hf2 & Hr2)].
  { intros E; inversion E; subst. right. split; [eauto|tauto]. }
  rewrite (State_open _ _ f) by done. cbn.
  intros E; inversion E; subst. by left.
Qed.

Lemma Open_opened p w u p' w' :
  Open (p, w) = (Ok u, (p', w')) -> opened p' w'.
Proof.
  unfold Open. intros H0. bind_inv H0. apply self_Ok in E as [-> ->].
  apply bind_Ok in H0 as (f & s1 & E & H0). peel E as w1.
  apply os_OpenFile_Ok in E.
  destruct E as (_ & Hd & _). apply update_Ok in H0. inversion H0; subst.
  exists f. eexists. split; [done|]. rewrite Hd, lookup_insert_eq. done.
Qed.

Lemma ready_opened p w : ready p w -> opened p w.
Proof.
  intros (f & Hf & (d & Hd & Hn & _)%fd_shape_lookup & _).
  exists f, d. done.
Qed.

(** On a disk without faults [SetState] succeeds and leaves the storage
    open. *)
Lemma SetState_reliable p w t v :
  ready p w -> reliable w -> is_Some (Marshal (mkState t v)) ->
  exists p' w',
    SetState t v (p, w) = (Ok tt, (p', w')) /\ reliable w' /\ ready p' w'.
Proof.
  intros (f & Hf & Hsf & Hsb) Hr HM.
  unfold SetState, bind at 1, self, gets. cbn [fst]. rewrite Hf.
  destruct (os_CreateTemp_reliable (stateDir p) "tmp-" w Hr)
    as (tmp & w1 & E1 & Hr1 & Hfresh & Hs1 & Hn1).
  rewrite (bind_run_Ok _ _ _ _ _ (wrapE_run_Ok _ _ _ _ _ (os_run _ p _ _ _ E1))).
  set (tn := Join (stateDir p) ("tmp-" +:+ pretty (tmp_seq w))) in *.
  set (sb := Join (stateDir p) "state.bin") in *.
  assert (Hft : f <> tmp).
  { intros ->. apply fd_shape_lookup in Hsf as (d & Hd & _). congruence. }
  unfold bind at 1, update, modify. cbn [fst snd].
  set (p1 := set_state (mkState t v) p).
  destruct (Encode_file_reliable tmp (mkState t v) w1 tn)
    as (w2 & E2 & Hr2 & Hs2 & Hn2);
    [done|rewrite Hs1; apply lookup_insert_eq
    |rewrite Hn1; apply elem_of_union_l, elem_of_singleton; done|done|].
  unfold encodePersistentState.
  rewrite (bind_run_Ok _ _ _ _ _ (wrapE_run_Ok _ _ _ _ _ (os_run _ p1 _ _ _ E2))).
  assert (Hst2 : fd_shape w2 !! tmp = Some (tn, false)).
  { rewrite Hs2, Hs1. apply lookup_insert_eq. }
  rewrite (bind_run_Ok _ _ _ _ _ (wrapE_run_Ok _ _ _ _ _
             (os_run _ p1 _ _ _ (file_Sync_reliable _ _ _ Hr2 Hst2)))).
  destruct (file_Close_reliable tmp w2 tn Hr2 Hst2) as (w3 & E3 & Hr3 & Hs3 & Hn3).
  rewrite (bind_run_Ok _ _ _ _ _ (wrapE_run_Ok _ _ _ _ _ (os_run _ p1 _ _ _ E3))).
  assert (Hsf3 : fd_shape w3 !! f = Some (sb, false)).
  { rewrite Hs3, lookup_insert_ne by done.
    rewrite Hs2, Hs1, lookup_insert_ne by done. done. }
  destruct (file_Close_reliable f w3 sb Hr3 Hsf3) as (w4 & E4 & Hr4 & Hs4 & Hn4).
  rewrite (bind_run_Ok _ _ _ _ _ (wrapE_run_Ok _ _ _ _ _ (os_run _ p1 _ _ _ E4))).
  assert (Hst4 : fd_shape w4 !! tmp = Some (tn, true)).
  { rewrite Hs4, lookup_insert_ne by done. rewrite Hs3. apply lookup_insert_eq. }
  rewrite (bind_run_Ok _ _ _ _ _ (os_run _ p1 _ _ _ (file_Name_shape _ _ _ _ Hst4))).
  assert (Hsf4 : fd_shape w4 !! f = Some (sb, true)).
  { rewrite Hs4. apply lookup_insert_eq. }
  rewrite (bind_run_Ok _ _ _ _ _ (os_run _ p1 _ _ _ (file_Name_shape _ _ _ _ Hsf4))).
  destruct (os_Rename_reliable tn sb w4 Hr4) as (w5 & E5 & Hr5 & Hs5 & Hn5).
  { rewrite Hn4, Hn3, Hn2, Hn1. apply elem_of_union_l, elem_of_singleton. done. }
  rewrite (bind_run_Ok _ _ _ _ _ (wrapE_run_Ok _ _ _ _ _ (os_run _ p1 _ _ _ E5))).
  destruct (os_OpenFile_reliable sb false w5 Hr5)
    as (nf & w6 & E6 & Hr6 & Hfresh6 & Hs6 & Hn6).
  { rewrite Hn5. apply elem_of_union_l, elem_of_singleton. done. }
  unfold bind at 1, attempt. cbn [stateDir p1 set_state].
  fold sb. rewrite (os_run _ p1 _ _ _ E6).
  unfold bind at 1, update, modify. cbn [fst snd].
  destruct (file_Seek_reliable nf 0 SeekEnd w6 sb Hr6)
    as (pos & w7 & E7 & Hr7 & Hs7 & Hn7).
  { rewrite Hs6. apply lookup_insert_eq. }
  { rewrite Hn6, Hn5. apply elem_of_union_l, elem_of_singleton. done. }
  rewrite (bind_run_Ok _ _ _ _ _ (wrapE_run_Ok _ _ _ _ _ (os_run _ _ _ _ _ E7))).
  eexists _, w7. split; [reflexivity|]. split; [done|].
  exists nf. cbn [file stateDir set_file p1 set_state]. fold sb.
  split; [done|]. split.
  - rewrite Hs7, Hs6. apply lookup_insert_eq.
  - rewrite Hn7, Hn6, Hn5. apply elem_of_union_l, elem_of_singleton. done.
Qed.

Lemma SetState_Ok_ready p w t v u p' w' :
  opened p w ->
  SetState t v (p, w) = (Ok u, (p', w')) ->
  ready p' w' /\ stateDir p' = stateDir p /\ state p' = mkState t v.
Proof.
  intros Hop HS.
  destruct (SetState_Ok _ _ _ _ _ _ _ Hop HS)
    as (buf & f' & _ & -> & Hfile & d' & Hd' & Hc' & Hn').
  split; [|done]. exists f'. cbn [file stateDir]. split; [done|]. split.
  - apply fd_shape_lookup. eauto.
  - apply file_names_lookup. eauto.
Qed.

(** The round trip of the state storage.  After [SetState t v] has
    returned without error on an opened storage, the calls of [State] that
    follow it, with no other call in between, return [(t, v)]; and a process
    restarted on the same directory after a crash (a new storage object,
    [Open], [Replay]) gets [(t, v)] from [State] whenever it gets an
    answer, and does get one when none of its system calls fails.  The
    protobuf codec is assumed to decode what it encoded for this pair, and
    the encoding to fit the 32-bit length of a frame. *)
Theorem setState_then_state_returns_it p w t v p' w' buf :
  opened p w ->
  SetState t v (p, w) = (Ok tt, (p', w')) ->
  Marshal (mkState t v) = Some buf ->
  Unmarshal buf = Some (mkState t v) ->
  Z.of_nat (length buf) < 2 ^ 31 ->
  (forall n, States n (p', w') = (Ok (t, v), (p', w'))) /\
  (forall sched x, afterCrash (stateDir p) sched w' = Ok x -> x = (t, v)) /\
  afterCrash (stateDir p) [] w' = Ok (t, v).
Proof.
  intros Hop Hset HM HU Hlen.
  destruct (SetState_Ok _ _ _ _ _ _ _ Hop Hset)
    as (buf' & f' & HM' & -> & Hfile & _).
  rewrite HM in HM'. inversion HM'; subst buf'; clear HM'.
  split; [|split].
  - intros n. by rewrite (States_open _ _ f').
  - intros sched x. unfold afterCrash.
    destruct (reopen _) as [r s] eqn:E. cbn [fst]. intros ->.
    eapply reopen_frame in E; [|exact Hfile|exact HU|exact Hlen].
    destruct E as [E|[(e & E) _]]; congruence.
  - unfold afterCrash. destruct (reopen _) as [r s] eqn:E. cbn [fst].
    eapply reopen_frame in E; [|exact Hfile|exact HU|exact Hlen].
    destruct E as [E|[_ Hn]]; [done|]. by destruct Hn.
Qed.

End StateStorageFacts.

Lemma setState_then_state_witness :
  StateStorage.afterCrash (Join "d" "state") []
    (snd (snd (StateStorage.SetState 7 "n2" Wire.opened_storage)))
  = Ok (7, "n2").
Proof.
  refine (proj2 (proj2 (setState_then_state_returns_it
    (fst Wire.opened_storage) (snd Wire.opened_storage) 7 "n2"
    (fst (snd (StateStorage.SetState 7 "n2" Wire.opened_storage)))
    (snd (snd (StateStorage.SetState 7 "n2" Wire.opened_storage)))
    (default [] (Marshal (StateStorage.mkState 7 "n2"))) _ _ _ _ _))).
  - apply (Open_opened (fst Wire.new_storage) (snd Wire.new_storage) tt).
    vm_compute. reflexivity.
  - vm_compute. reflexivity.
  - vm_compute. reflexivity.
  - vm_compute. reflexivity.
  - vm_compute. reflexivity.
Defined.

(** C7, as the code behaves: [Close] closes the descriptor but keeps it in
    the [file] field, so the storage still counts as open.  After [Open]
    and [Close], [State] returns the zero pair without an error. *)
Theorem state_after_close_returns_value :
  fst (Wire.after_close StateStorage.State) = Ok (0, "").
Proof. vm_compute. reflexivity. Qed.

(** After [Open] and [Close], [SetState] fails on the closed descriptor,
    not with the "not open" error, once it has replaced the pair in
    memory; the next [State] returns the pair that was never persisted. *)
Theorem setState_after_close_error :
  fst (Wire.after_close (StateStorage.SetState 7 "n2"))
    = Err (WrapError ErrClosed "failed while persisting state")
  /\ Wire.set_after_close 7 "n2" = Ok (7, "n2").
Proof. split; vm_compute; reflexivity. Qed.

(** C5, as the code behaves.  [SetState 7 "n2"] succeeds; in the
    [SetState 9 "n3"] that follows, [tmpFile.Sync] fails (the fourteenth
    system call) and the call returns the error; [State] then returns
    [(9, "n3")] without error, a pair that was never persisted: a process
    restarted on the directory reads [(7, "n2")]. *)
Theorem state_after_failed_setState_was_not_persisted :
  fst (Wire.set_then_failed_set 13)
    = Ok (inr (WrapError ErrIO "failed while persisting state"), (9, "n3")) /\
  StateStorage.afterCrash (Join "d" "state") []
    (snd (snd (Wire.set_then_failed_set 13))) = Ok (7, "n2").
Proof. split; vm_compute; reflexivity. Qed.

(** The same holds wherever the second call fails after it has created
    its temporary file and before it renames it. *)
Lemma state_after_failed_setState_any_step :
  Forall (fun k =>
    fst (Wire.set_then_failed_set k)
      = Ok (inr (WrapError ErrIO "failed while persisting state"), (9, "n3"))
    /\ StateStorage.afterCrash (Join "d" "state") []
         (snd (snd (Wire.set_then_failed_set k))) = Ok (7, "n2"))
    (seq 11 6).
Proof. repeat constructor; vm_compute; reflexivity. Qed.

(** ** The log *)

Section LogFacts.
Import Log.

Lemma at_index_Ok {A} (s : list A) i x :
  at_index s i = Ok x <-> 0 <= i /\ s !! Z.to_nat i = Some x.
Proof.
  unfold at_index. destruct (Z.ltb_spec i 0).
  - split; [done|lia].
  - destruct (s !! Z.to_nat i) eqn:E; split; try done.
    + intros [= ->]. done.
    + intros [_ [= ->]]. done.
    + intros [_ ?]. done.
Qed.

Lemma at_index_Panic {A} (s : list A) i :
  i < 0 \/ len s <= i -> at_index s i = Panic.
Proof.
  unfold at_index, len. intros Hi. destruct (Z.ltb_spec i 0); [done|].
  rewrite lookup_ge_None_2; [done|lia].
Qed.

Lemma at_index_never_Err {A} (s : list A) i e : at_index s i <> Err e.
Proof.
  unfold at_index. destruct (i <? 0); [done|]. by destruct (s !! Z.to_nat i).
Qed.

Lemma contiguous_len l : contiguous l -> 1 <= len (entries l).
Proof.
  intros (Hne & _). unfold len. destruct (entries l); [done|].
  cbn [length]. lia.
Qed.

Lemma contiguous_first l :
  contiguous l ->
  exists e0, at_index (entries l) 0 = Ok e0 /\ Index e0 = firstIndex l.
Proof.
  intros (Hne & _). unfold firstIndex. destruct (entries l) as [|e0 ?]; [done|].
  exists e0. done.
Qed.

Lemma contiguous_lookup l (p : nat) :
  contiguous l -> (p < length (entries l))%nat ->
  exists e, entries l !! p = Some e /\ Index e = firstIndex l + Z.of_nat p.
Proof.
  intros (_ & Hidx & _) Hp. destruct (lookup_lt_is_Some_2 _ _ Hp) as [e He].
  exists e. split; [done|]. by apply Hidx.
Qed.

Lemma contiguous_last l :
  contiguous l ->
  exists e, at_index (entries l) (len (entries l) - 1) = Ok e /\
            Index e = lastIndex l.
Proof.
  intros Hc. pose proof (contiguous_len l Hc) as Hl. unfold len in *.
  destruct (contiguous_lookup l (length (entries l) - 1) Hc) as (e & He & Hi);
    [lia|].
  exists e. split.
  - apply at_index_Ok. split; [lia|].
    replace (Z.to_nat (Z.of_nat (length (entries l)) - 1))
      with (length (entries l) - 1)%nat by lia. done.
  - rewrite Hi. unfold lastIndex, len. lia.
Qed.

Lemma contiguous_bounds l :
  contiguous l ->
  0 <= firstIndex l /\ firstIndex l <= lastIndex l /\
  lastIndex l < U64.modulus.
Proof.
  intros Hc. pose proof (contiguous_len l Hc).
  destruct Hc as (_ & _ & ? & ?). unfold lastIndex in *. lia.
Qed.

(** [GetEntry] on a log that satisfies the invariants, by the comparisons
    the code makes. *)
Lemma GetEntry_unfold l f index :
  contiguous l -> file l = Some f ->
  GetEntry l index =
    let logIndex := U64.sub index (firstIndex l) in
    if (logIndex <=? 0) || (lastIndex l <? logIndex)
    then Err errIndexDoesNotExist
    else at_index (entries l) logIndex.
Proof.
  intros Hc Hf. unfold GetEntry. rewrite Hf.
  destruct (contiguous_first l Hc) as (e0 & -> & ->).
  destruct (contiguous_last l Hc) as (e1 & -> & ->). done.
Qed.

Lemma GetEntry_in_range l f index :
  contiguous l -> file l = Some f ->
  firstIndex l < index <= lastIndex l ->
  exists e, GetEntry l index = Ok e /\ Index e = index /\
            entries l !! Z.to_nat (index - firstIndex l) = Some e.
Proof.
  intros Hc Hf Hi. rewrite (GetEntry_unfold l f) by done. cbn zeta.
  pose proof (contiguous_bounds l Hc) as (? & ? & ?).
  rewrite U64_sub_small by lia.
  destruct (Z.leb_spec (index - firstIndex l) 0); [lia|].
  destruct (Z.ltb_spec (lastIndex l) (index - firstIndex l)); [lia|].
  cbn [orb].
  destruct (contiguous_lookup l (Z.to_nat (index - firstIndex l)) Hc)
    as (e & He & Hidx).
  { unfold lastIndex, len in *. lia. }
  exists e. split; [|split; [|done]].
  - apply at_index_Ok. split; [lia|done].
  - rewrite Hidx. lia.
Qed.

Lemma GetEntry_Ok l index e :
  contiguous l -> U64.valid index ->
  GetEntry l index = Ok e ->
  firstIndex l < index <= lastIndex l /\ Index e = index /\
  entries l !! Z.to_nat (index - firstIndex l) = Some e.
Proof.
  intros Hc Hv HG. destruct (file l) as [f|] eqn:Hf.
  2:{ unfold GetEntry in HG. by rewrite Hf in HG. }
  rewrite (GetEntry_unfold l f) in HG by done. cbn zeta in HG.
  pose proof (contiguous_bounds l Hc) as (? & ? & ?).
  unfold U64.valid in Hv.
  destruct (Z.leb_spec (U64.sub index (firstIndex l)) 0); [done|].
  destruct (Z.ltb_spec (lastIndex l) (U64.sub index (firstIndex l))); [done|].
  cbn [orb] in HG. apply at_index_Ok in HG as [_ HG].
  pose proof (lookup_lt_Some _ _ _ HG) as Hlt.
  destruct (Z.lt_ge_cases index (firstIndex l)) as [Hlo|Hhi].
  { rewrite U64_sub_borrow in * by (unfold U64.valid; lia).
    unfold lastIndex, len in *. lia. }
  rewrite U64_sub_small in * by lia.
  destruct Hc as (_ & Hidx & _). pose proof (Hidx _ _ HG) as Hi.
  unfold lastIndex, len in *. repeat split; try lia. done.
Qed.

(** Past the last index of a compacted log the position test of
    [GetEntry] passes and the slice access is out of range. *)
Lemma GetEntry_past_end l f index :
  contiguous l -> file l = Some f ->
  lastIndex l < index <= lastIndex l + firstIndex l ->
  index < U64.modulus ->
  GetEntry l index = Panic.
Proof.
  intros Hc Hf Hi Hv. rewrite (GetEntry_unfold l f) by done. cbn zeta.
  pose proof (contiguous_bounds l Hc) as (? & ? & ?).
  rewrite U64_sub_small by lia.
  destruct (Z.leb_spec (index - firstIndex l) 0); [lia|].
  destruct (Z.ltb_spec (lastIndex l) (index - firstIndex l)); [lia|].
  cbn [orb]. apply at_index_Panic. right. unfold lastIndex in *. lia.
Qed.

Lemma Contains_spec l index :
  contiguous l -> U64.valid index ->
  Contains l index =
    Ok (bool_decide (firstIndex l < index <= lastIndex l)).
Proof.
  intros Hc Hv. unfold Contains.
  destruct (contiguous_first l Hc) as (e0 & -> & ->).
  pose proof (contiguous_bounds l Hc) as (? & ? & ?).
  unfold U64.valid in Hv. f_equal.
  destruct (Z.lt_ge_cases index (firstIndex l)) as [Hlo|Hhi].
  - rewrite U64_sub_borrow by (unfold U64.valid; lia).
    rewrite bool_decide_eq_false_2 by lia.
    destruct (Z.leb_spec (index - firstIndex l + U64.modulus) 0); [done|].
    cbn [orb]. unfold lastIndex in *.
    destruct (Z.leb_spec (len (entries l))
                (index - firstIndex l + U64.modulus)); [done|lia].
  - rewrite U64_sub_small by lia. unfold lastIndex in *.
    destruct (Z.leb_spec (index - firstIndex l) 0);
      destruct (Z.leb_spec (len (entries l)) (index - firstIndex l));
      cbn [orb negb];
      [rewrite bool_decide_eq_false_2 by lia
      |rewrite bool_decide_eq_false_2 by lia
      |rewrite bool_decide_eq_false_2 by lia
      |rewrite bool_decide_eq_true_2 by lia]; done.
Qed.

Lemma LastIndex_spec l : contiguous l -> LastIndex l = Ok (lastIndex l).
Proof.
  intros Hc. unfold LastIndex.
  by destruct (contiguous_last l Hc) as (e & -> & ->).
Qed.

Lemma NextIndex_spec l :
  contiguous l -> NextIndex l = Ok (U64.add (lastIndex l) 1).
Proof.
  intros Hc. unfold NextIndex.
  by destruct (contiguous_last l Hc) as (e & -> & ->).
Qed.

Lemma LastTerm_spec l :
  contiguous l ->
  exists e, last (entries l) = Some e /\ LastTerm l = Ok (Term e).
Proof.
  intros Hc. unfold LastTerm.
  destruct (contiguous_last l Hc) as (e & He & _). rewrite He.
  exists e. split; [|done]. apply at_index_Ok in He as [_ He].
  rewrite last_lookup. rewrite <- He. f_equal. unfold len. lia.
Qed.

Lemma position_check l index :
  contiguous l -> U64.valid index ->
  (U64.sub index (firstIndex l) <=? 0)
  || (len (entries l) <=? U64.sub index (firstIndex l))
  = negb (bool_decide (firstIndex l < index <= lastIndex l)).
Proof.
  intros Hc Hv. pose proof (Contains_spec l index Hc Hv) as HC.
  unfold Contains in HC. destruct (contiguous_first l Hc) as (e0 & E0 & Hi0).
  rewrite E0, Hi0 in HC. injection HC as HC'. rewrite <- HC'.
  by rewrite negb_involutive.
Qed.

Lemma position_in_range l index :
  contiguous l -> firstIndex l < index <= lastIndex l ->
  U64.sub index (firstIndex l) = index - firstIndex l.
Proof.
  intros Hc Hi. pose proof (contiguous_bounds l Hc) as (? & ? & ?).
  apply U64_sub_small. lia.
Qed.

Lemma same_content_refl e : same_content e e.
Proof. done. Qed.

Lemma same_content_set_Offset o e : same_content e (set_Offset o e).
Proof. done. Qed.

Lemma same_content_trans e1 e2 e3 :
  same_content e1 e2 -> same_content e2 e3 -> same_content e1 e3.
Proof. unfold same_content. intros (?&?&?&?) (?&?&?&?). repeat split; congruence. Qed.

Lemma Forall2_same_content_refl es : Forall2 same_content es es.
Proof. induction es; constructor; done. Qed.

Lemma Forall2_same_content_trans es1 es2 es3 :
  Forall2 same_content es1 es2 -> Forall2 same_content es2 es3 ->
  Forall2 same_content es1 es3.
Proof.
  intros H1. revert es3. induction H1; intros es3 H2; inversion H2; subst.
  - constructor.
  - constructor; [by eapply same_content_trans|auto].
Qed.

(** A suffix of a contiguous log, up to offsets, is a contiguous log. *)
Lemma contiguous_suffix l l' (k : nat) :
  contiguous l -> (k < length (entries l))%nat ->
  Forall2 same_content (drop k (entries l)) (entries l') ->
  contiguous l' /\ firstIndex l' = firstIndex l + Z.of_nat k /\
  lastIndex l' = lastIndex l.
Proof.
  intros Hc Hk HF.
  pose proof (Forall2_length _ _ _ HF) as Hlen. rewrite length_drop in Hlen.
  assert (Hlk : forall (p : nat) e', entries l' !! p = Some e' ->
            Index e' = firstIndex l + Z.of_nat k + Z.of_nat p).
  { intros p e' He'.
    destruct (Forall2_lookup_r _ _ _ _ _ HF He') as (e & He & Hs).
    rewrite lookup_drop in He. destruct Hc as (_ & Hidx & _).
    apply Hidx in He. destruct Hs as (-> & _). lia. }
  assert (Hfirst : firstIndex l' = firstIndex l + Z.of_nat k).
  { unfold firstIndex at 1. destruct (entries l') as [|e0 r] eqn:E.
    - cbn in Hlen. lia.
    - rewrite (Hlk 0%nat e0) by done. lia. }
  pose proof (contiguous_bounds l Hc) as (? & ? & ?).
  assert (Hlast : lastIndex l' = lastIndex l).
  { unfold lastIndex, len in *. rewrite Hfirst. lia. }
  split; [|done]. split; [|split; [|split]].
  - intros E. rewrite E in Hlen. cbn in Hlen. lia.
  - intros p e' He'. rewrite Hfirst. by apply Hlk.
  - lia.
  - lia.
Qed.

Context `{ProtoCodec LogEntry}.

Lemma rewriteEntries_Ok tmp msg n : forall pos l w u l' w',
  rewriteEntries tmp msg pos n (l, w) = (Ok u, (l', w')) ->
  Forall2 same_content (entries l) (entries l') /\
  file l' = file l /\ path l' = path l.
Proof.
  induction n as [|n IH]; intros pos l w u l' w' H0; cbn [rewriteEntries] in H0.
  - inversion H0; subst. split; [apply Forall2_same_content_refl|done].
  - bind_inv H0. apply self_Ok in E as [-> ->].
    destruct (entries l !! pos) as [entry|] eqn:He; [|done].
    os_step H0 as w1 E1.
    apply bind_Ok in H0 as (? & s2 & E2 & H0). apply update_Ok in E2 as ->.
    os_step H0 as w3 E3.
    apply IH in H0 as (HF & Hf & Hp). cbn [entries file path set_entries] in *.
    split; [|done]. eapply Forall2_same_content_trans; [|exact HF].
    rewrite <- (list_insert_id (entries l) pos entry) at 1 by done.
    apply Forall2_insert; [apply Forall2_same_content_refl|].
    apply same_content_set_Offset.
Qed.

Lemma rename_Ok tmp l w u l' w' :
  rename tmp (l, w) = (Ok u, (l', w')) ->
  entries l' = entries l /\ path l' = path l /\ is_Some (file l').
Proof.
  unfold rename. intros H0. bind_inv H0. apply self_Ok in E as [-> ->].
  destruct (file l) as [f|].
  2:{ bind_inv H0. bind_inv H0. done. }
  os_step H0 as w1 E1. os_step H0 as w2 E2. os_step H0 as w3 E3.
  os_step H0 as w4 E4. os_step H0 as w5 E5. os_step H0 as w6 E6.
  os_step H0 as w7 E7.
  apply bind_Ok in H0 as (? & s8 & E8 & H0). apply update_Ok in E8 as ->.
  os_step H0 as w9 E9. inversion H0; subst. cbn. eauto.
Qed.

Lemma Compact_Ok l w index u l' w' :
  contiguous l -> U64.valid index ->
  Compact index (l, w) = (Ok u, (l', w')) ->
  firstIndex l < index <= lastIndex l /\
  Forall2 same_content
    (drop (Z.to_nat (index - firstIndex l)) (entries l)) (entries l') /\
  is_Some (file l') /\ path l' = path l.
Proof.
  intros Hc Hv. unfold Compact. intros H0.
  bind_inv H0. apply self_Ok in E as [-> ->].
  destruct (file l) as [f|]; [|done].
  apply bind_Ok in H0 as (first & s1 & E & H0).
  destruct (contiguous_first l Hc) as (e0 & E0 & Hi0).
  unfold liftO in E. rewrite E0 in E. inversion E; subst first s1; clear E.
  rewrite Hi0, (position_check l index Hc Hv) in H0.
  destruct (bool_decide_reflect (firstIndex l < index <= lastIndex l))
    as [Hin|]; [|done].
  cbn [negb] in H0. rewrite (position_in_range l index Hc Hin) in H0.
  split; [done|].
  os_step H0 as w1 E1.
  apply bind_Ok in H0 as (? & [l1 w1'] & E2 & H0).
  apply rewriteEntries_Ok in E2 as (HF & Hf1 & Hp1).
  apply bind_Ok in H0 as (? & [l2 w2] & E3 & H0).
  apply wrapE_Ok in E3. apply rename_Ok in E3 as (He2 & Hp2 & Hf2).
  bind_inv H0. apply self_Ok in E as [-> ->].
  apply update_Ok in H0. inversion H0; subst. cbn [entries file path set_entries].
  split; [|split; [done|congruence]].
  rewrite He2. by apply Forall2_drop.
Qed.

Lemma Compact_out_of_range l f w index :
  contiguous l -> file l = Some f -> U64.valid index ->
  ~ firstIndex l < index <= lastIndex l ->
  Compact index (l, w) = (Err errIndexDoesNotExist, (l, w)).
Proof.
  intros Hc Hf Hv Hout. unfold Compact, bind at 1, self, gets. cbn [fst].
  rewrite Hf. destruct (contiguous_first l Hc) as (e0 & E0 & Hi0).
  unfold bind, liftO. rewrite E0, Hi0, (position_check l index Hc Hv).
  by rewrite bool_decide_eq_false_2.
Qed.

Lemma is_open_shape l w :
  is_open l w <->
  exists f, file l = Some f /\
    fd_shape w !! f = Some (Join (path l) "log.bin", false) /\
    Join (path l) "log.bin" ∈ file_names w.
Proof.
  unfold is_open. split.
  - intros (f & d & Hf & Hd & Hc & Hn & Hx). exists f. split; [done|]. split.
    + apply fd_shape_lookup. eauto.
    + apply file_names_lookup. by rewrite <- Hn.
  - intros (f & Hf & (d & Hd & Hn & Hc)%fd_shape_lookup & Hx%file_names_lookup).
    exists f, d. rewrite Hn. done.
Qed.

Hypothesis Marshal_total : forall e : LogEntry, is_Some (Marshal e).

Lemma rewriteEntries_reliable tmp msg tn n : forall pos l w,
  reliable w -> fd_shape w !! tmp = Some (tn, false) -> tn ∈ file_names w ->
  (pos + n <= length (entries l))%nat ->
  exists l' w',
    rewriteEntries tmp msg pos n (l, w) = (Ok tt, (l', w')) /\
    reliable w' /\ fd_shape w' = fd_shape w /\
    file_names w' = file_names w /\ file l' = file l /\ path l' = path l.
Proof.
  induction n as [|n IH]; intros pos l w Hr Hs Hn Hlen; cbn [rewriteEntries].
  - exists l, w. done.
  - unfold bind at 1, self, gets. cbn [fst].
    destruct (lookup_lt_is_Some_2 (entries l) pos) as [entry He]; [lia|].
    rewrite He.
    destruct (file_Seek_reliable tmp 0 SeekCurrent w tn Hr Hs Hn)
      as (off & w1 & E1 & Hr1 & Hs1 & Hn1).
    rewrite (bind_run_Ok _ _ _ _ _ (wrapE_run_Ok _ _ _ _ _ (os_run _ l _ _ _ E1))).
    unfold bind at 1, update, modify. cbn [fst snd].
    destruct (Encode_file_reliable tmp (set_Offset (Z.of_nat off) entry) w1 tn)
      as (w2 & E2 & Hr2 & Hs2 & Hn2);
      [done|by rewrite Hs1|by rewrite Hn1|apply Marshal_total|].
    unfold encodeLogEntry.
    rewrite (bind_run_Ok _ _ _ _ _ (wrapE_run_Ok _ _ _ _ _ (os_run _ _ _ _ _ E2))).
    destruct (IH (S pos) (set_entries (<[pos:=set_Offset (Z.of_nat off) entry]>
                                         (entries l)) l) w2)
      as (l' & w' & E3 & Hr3 & Hs3 & Hn3 & Hf3 & Hp3);
      [done|by rewrite Hs2, Hs1|by rewrite Hn2, Hn1
      |cbn [entries set_entries]; rewrite length_insert; lia|].
    exists l', w'. split; [done|]. split; [done|].
    split; [congruence|]. split; [congruence|]. done.
Qed.

Lemma rename_reliable tmp tn l w f :
  reliable w -> file l = Some f ->
  fd_shape w !! f = Some (Join (path l) "log.bin", false) ->
  fd_shape w !! tmp = Some (tn, false) -> f <> tmp ->
  tn ∈ file_names w ->
  exists l' w',
    rename tmp (l, w) = (Ok tt, (l', w')) /\ reliable w' /\ is_open l' w'.
Proof.
  intros Hr Hf Hsf Hst Hne Hn. unfold rename, bind at 1, self, gets.
  cbn [fst]. rewrite Hf.
  rewrite (bind_run_Ok _ _ _ _ _ (os_run _ l _ _ _ (file_Sync_reliable _ _ _ Hr Hst))).
  destruct (file_Close_reliable tmp w tn Hr Hst) as (w1 & E1 & Hr1 & Hs1 & Hn1).
  rewrite (bind_run_Ok _ _ _ _ _ (os_run _ l _ _ _ E1)).
  assert (Hsf1 : fd_shape w1 !! f = Some (Join (path l) "log.bin", false)).
  { rewrite Hs1, lookup_insert_ne by done. done. }
  destruct (file_Close_reliable f w1 _ Hr1 Hsf1) as (w2 & E2 & Hr2 & Hs2 & Hn2).
  rewrite (bind_run_Ok _ _ _ _ _ (os_run _ l _ _ _ E2)).
  assert (Hst2 : fd_shape w2 !! tmp = Some (tn, true)).
  { rewrite Hs2, lookup_insert_ne by done. rewrite Hs1. apply lookup_insert_eq. }
  rewrite (bind_run_Ok _ _ _ _ _ (os_run _ l _ _ _ (file_Name_shape _ _ _ _ Hst2))).
  assert (Hsf2 : fd_shape w2 !! f = Some (Join (path l) "log.bin", true)).
  { rewrite Hs2. apply lookup_insert_eq. }
  rewrite (bind_run_Ok _ _ _ _ _ (os_run _ l _ _ _ (file_Name_shape _ _ _ _ Hsf2))).
  destruct (os_Rename_reliable tn (Join (path l) "log.bin") w2 Hr2)
    as (w3 & E3 & Hr3 & Hs3 & Hn3); [by rewrite Hn2, Hn1|].
  rewrite (bind_run_Ok _ _ _ _ _ (os_run _ l _ _ _ E3)).
  destruct (os_OpenFile_reliable (Join (path l) "log.bin") false w3 Hr3)
    as (nf & w4 & E4 & Hr4 & Hfresh & Hs4 & Hn4).
  { rewrite Hn3. apply elem_of_union_l, elem_of_singleton. done. }
  rewrite (bind_run_Ok _ _ _ _ _ (os_run _ l _ _ _ E4)).
  unfold bind at 1, update, modify. cbn [fst snd].
  destruct (file_Seek_reliable nf 0 SeekEnd w4 (Join (path l) "log.bin") Hr4)
    as (pos & w5 & E5 & Hr5 & Hs5 & Hn5).
  { rewrite Hs4. apply lookup_insert_eq. }
  { rewrite Hn4, Hn3. apply elem_of_union_l, elem_of_singleton. done. }
  rewrite (bind_run_Ok _ _ _ _ _ (os_run _ _ _ _ _ E5)).
  eexists _, w5. split; [reflexivity|]. split; [done|].
  apply is_open_shape. exists nf. cbn [file path set_file].
  split; [done|]. split.
  - rewrite Hs5, Hs4. apply lookup_insert_eq.
  - rewrite Hn5, Hn4, Hn3. apply elem_of_union_l, elem_of_singleton. done.
Qed.

Lemma Compact_reliable l w index :
  log_inv l w -> reliable w ->
  firstIndex l < index <= lastIndex l ->
  exists l' w',
    Compact index (l, w) = (Ok tt, (l', w')) /\ reliable w' /\
    is_open l' w'.
Proof.
  intros [Hc Ho] Hr Hin.
  apply is_open_shape in Ho as (f & Hf & Hsf & Hlog).
  pose proof (contiguous_bounds l Hc) as (? & ? & ?).
  assert (Hv : U64.valid index) by (unfold U64.valid; lia).
  unfold Compact, bind at 1, self, gets. cbn [fst]. rewrite Hf.
  destruct (contiguous_first l Hc) as (e0 & E0 & Hi0).
  unfold bind at 1, liftO. rewrite E0, Hi0, (position_check l index Hc Hv).
  rewrite bool_decide_eq_true_2 by done. cbn [negb].
  rewrite (position_in_range l index Hc Hin).
  destruct (os_CreateTemp_reliable (path l) "tmp-" w Hr)
    as (tmp & w1 & E1 & Hr1 & Hfresh & Hs1 & Hn1).
  rewrite (bind_run_Ok _ _ _ _ _ (wrapE_run_Ok _ _ _ _ _ (os_run _ l _ _ _ E1))).
  set (tn := Join (path l) ("tmp-" +:+ pretty (tmp_seq w))) in *.
  assert (Hft : f <> tmp).
  { intros ->. apply fd_shape_lookup in Hsf as (d & Hd & _). congruence. }
  destruct (rewriteEntries_reliable tmp "failed to compact log" tn
              (length (entries l) - Z.to_nat (index - firstIndex l))
              (Z.to_nat (index - firstIndex l)) l w1)
    as (l2 & w2 & E2 & Hr2 & Hs2 & Hn2 & Hf2 & Hp2).
  { done. }
  { rewrite Hs1. apply lookup_insert_eq. }
  { rewrite Hn1. apply elem_of_union_l, elem_of_singleton. done. }
  { unfold lastIndex, len in *. lia. }
  rewrite (bind_run_Ok _ _ _ _ _ E2).
  destruct (rename_reliable tmp tn l2 w2 f)
    as (l3 & w3 & E3 & Hr3 & Ho3).
  { done. }
  { congruence. }
  { rewrite Hp2, Hs2, Hs1, lookup_insert_ne by done. done. }
  { rewrite Hs2, Hs1. apply lookup_insert_eq. }
  { done. }
  { rewrite Hn2, Hn1. apply elem_of_union_l, elem_of_singleton. done. }
  rewrite (bind_run_Ok _ _ _ _ _ (wrapE_run_Ok _ _ _ _ _ E3)).
  unfold bind at 1, self, gets. cbn [fst]. unfold update, modify. cbn [fst snd].
  eexists _, w3. split; [reflexivity|]. split; [done|].
  destruct Ho3 as (f3 & d3 & ?). exists f3, d3. done.
Qed.

(** C6. On an open log that satisfies the invariants, [Compact index]
    with [firstIndex < index <= lastIndex] succeeds when no system call
    fails; afterwards the log satisfies the invariants, its first index is
    [index], its last index is the old one, and its entries are the old
    entries from [index] on with their index, term, data and type
    unchanged.  For any other [index] it fails with "index does not
    exist" and leaves the log and the disk as they were. *)
Theorem compact_keeps_suffix l w index :
  log_inv l w -> U64.valid index ->
  (firstIndex l < index <= lastIndex l -> reliable w ->
   exists l' w',
     Compact index (l, w) = (Ok tt, (l', w')) /\
     log_inv l' w' /\ firstIndex l' = index /\
     lastIndex l' = lastIndex l /\
     Forall2 same_content
       (drop (Z.to_nat (index - firstIndex l)) (entries l)) (entries l')) /\
  (~ firstIndex l < index <= lastIndex l ->
   Compact index (l, w) = (Err errIndexDoesNotExist, (l, w))).
Proof.
  intros Hinv Hv. split.
  - intros Hin Hr.
    destruct (Compact_reliable l w index Hinv Hr Hin) as (l' & w' & E & _ & Ho).
    destruct Hinv as [Hc _].
    destruct (Compact_Ok _ _ _ _ _ _ Hc Hv E) as (_ & HF & _ & _).
    destruct (contiguous_suffix l l' (Z.to_nat (index - firstIndex l)) Hc)
      as (Hc' & Hf' & Hl'); [unfold lastIndex, len in *; lia|done|].
    exists l', w'. split; [done|]. split; [done|]. split; [lia|]. done.
  - intros Hout. destruct Hinv as [Hc (f & d & Hf & _)].
    by apply (Compact_out_of_range l f).
Qed.

End LogFacts.

Lemma compacted_log_inv : Log.log_inv LogWire.compacted_log LogWire.compacted_disk.
Proof.
  split.
  - split; [done|]. split; [|done].
    intros [|[|[|p]]] e; cbn; intros [= <-]; done.
  - exists 0%nat. eexists. split; [done|]. split; [done|].
    split; [done|]. split; [done|]. eexists. done.
Qed.

Lemma compact_keeps_suffix_witness :
  exists l' w',
    Log.Compact 6 (LogWire.compacted_log, LogWire.compacted_disk)
      = (Ok tt, (l', w')) /\
    Log.log_inv l' w' /\ Log.firstIndex l' = 6 /\
    Log.lastIndex l' = Log.lastIndex LogWire.compacted_log /\
    Forall2 Log.same_content
      (drop (Z.to_nat (6 - Log.firstIndex LogWire.compacted_log))
         (Log.entries LogWire.compacted_log))
      (Log.entries l').
Proof.
  refine (proj1 (compact_keeps_suffix (fun e => _) LogWire.compacted_log
                   LogWire.compacted_disk 6 compacted_log_inv _) _ _).
  - eexists. reflexivity.
  - vm_compute. split; [discriminate|reflexivity].
  - vm_compute. split; [reflexivity|discriminate].
  - reflexivity.
Defined.

(** C4, as the code behaves: [GetEntry] compares the position
    [index - firstIndex] with the last index, not with the number of
    entries.  On the log compacted at 5 that ends at 7, [GetEntry(8)]
    passes the test at position 3 of 3 entries and the slice access
    panics, where the other methods ([Contains], [Truncate], [Compact])
    report that the index does not exist. *)
Theorem getEntry_past_end_panics :
  Log.GetEntry LogWire.compacted_log 8 = Panic /\
  Log.Contains LogWire.compacted_log 8 = Ok false /\
  fst (Log.Truncate 8 (LogWire.compacted_log, LogWire.compacted_disk))
    = Err errIndexDoesNotExist.
Proof. repeat split; vm_compute; reflexivity. Qed.

(** ** The log: truncating, appending and discarding *)

Section LogUpdates.
Import Log.

(** A prefix of a well-formed log that keeps the sentinel. *)
Lemma contiguous_take l l' (k : nat) :
  contiguous l -> (0 < k <= length (entries l))%nat ->
  entries l' = take k (entries l) ->
  contiguous l' /\ firstIndex l' = firstIndex l /\
  lastIndex l' = firstIndex l + Z.of_nat k - 1.
Proof.
  intros Hc Hk He.
  assert (Hfirst : firstIndex l' = firstIndex l).
  { unfold firstIndex. rewrite He. destruct (entries l) as [|e0 r].
    - cbn in Hk. lia.
    - destruct k; [lia|done]. }
  assert (Hlen : length (entries l') = k).
  { rewrite He, length_take. lia. }
  pose proof (contiguous_bounds l Hc) as (? & ? & ?).
  assert (Hlast : lastIndex l' = firstIndex l + Z.of_nat k - 1).
  { unfold lastIndex, len. rewrite Hfirst, Hlen. done. }
  split; [|done]. split; [|split; [|split]].
  - intros E. rewrite E in Hlen. cbn in Hlen. lia.
  - intros p e Hp. rewrite He in Hp. apply lookup_take_Some in Hp as [Hp _].
    rewrite Hfirst. destruct Hc as (_ & Hidx & _). by apply Hidx.
  - lia.
  - rewrite Hlast. unfold lastIndex, len in *. lia.
Qed.

(** Entries that follow the last index extend a well-formed log. *)
Lemma contiguous_app l l' es :
  contiguous l -> entries l' = entries l ++ es ->
  (forall (k : nat) e, es !! k = Some e ->
     Index e = lastIndex l + 1 + Z.of_nat k /\ Index e < U64.modulus) ->
  contiguous l' /\ firstIndex l' = firstIndex l /\
  lastIndex l' = lastIndex l + len es.
Proof.
  intros Hc He Hes.
  pose proof (contiguous_bounds l Hc) as (? & ? & ?).
  pose proof (contiguous_len l Hc) as Hl.
  assert (Hfirst : firstIndex l' = firstIndex l).
  { unfold firstIndex. rewrite He. destruct (entries l) as [|e0 r]; [|done].
    unfold len in Hl. cbn in Hl. lia. }
  assert (Hlast : lastIndex l' = lastIndex l + len es).
  { unfold lastIndex, len. rewrite Hfirst, He, length_app. lia. }
  split; [|done]. split; [|split; [|split]].
  - rewrite He. intros E. apply app_eq_nil in E as [E _].
    by destruct Hc as (Hne & _).
  - intros p e Hp. rewrite He in Hp. rewrite Hfirst.
    apply lookup_app_Some in Hp as [Hp|[Hge Hp]].
    + destruct Hc as (_ & Hidx & _). by apply Hidx.
    + apply Hes in Hp as [-> _]. unfold lastIndex, len. lia.
  - lia.
  - rewrite Hlast. destruct es as [|e es] using rev_ind.
    + unfold len. cbn. lia.
    + clear IHes.
      destruct (Hes (length es) e) as [Hi Hv].
      { by rewrite lookup_app_r, Nat.sub_diag by lia. }
      unfold len. rewrite length_app. cbn. lia.
Qed.

Lemma contiguous_singleton l e :
  entries l = [e] -> U64.valid (Index e) ->
  contiguous l /\ firstIndex l = Index e /\ lastIndex l = Index e.
Proof.
  intros He [Hv0 Hv1].
  assert (Hfirst : firstIndex l = Index e) by (unfold firstIndex; by rewrite He).
  assert (Hlast : lastIndex l = Index e).
  { unfold lastIndex, len. rewrite Hfirst, He. cbn. lia. }
  split; [|done]. split; [|split; [|split]].
  - by rewrite He.
  - intros p e' Hp. rewrite He in Hp. rewrite Hfirst.
    destruct p; cbn in Hp; [|done]. inversion Hp; subst. lia.
  - lia.
  - lia.
Qed.

Context `{ProtoCodec LogEntry}.

Lemma Truncate_Ok l w index u l' w' :
  contiguous l -> U64.valid index ->
  Truncate index (l, w) = (Ok u, (l', w')) ->
  firstIndex l < index <= lastIndex l /\
  entries l' = take (Z.to_nat (index - firstIndex l)) (entries l) /\
  file l' = file l.
Proof.
  intros Hc Hv. unfold Truncate. intros H0.
  bind_inv H0. apply self_Ok in E as [-> ->].
  destruct (file l) as [f|] eqn:Hf; [|done].
  apply bind_Ok in H0 as (first & s1 & E & H0).
  destruct (contiguous_first l Hc) as (e0 & E0 & Hi0).
  unfold liftO in E. rewrite E0 in E. inversion E; subst first s1; clear E.
  rewrite Hi0, (position_check l index Hc Hv) in H0.
  destruct (bool_decide_reflect (firstIndex l < index <= lastIndex l))
    as [Hin|]; [|done].
  cbn [negb] in H0. rewrite (position_in_range l index Hc Hin) in H0.
  split; [done|].
  apply bind_Ok in H0 as (e & s1 & E & H0).
  unfold liftO in E. inversion E; subst s1; clear E.
  destruct (Offset e <? 0); [done|].
  os_step H0 as w1 E1. os_step H0 as w2 E2. os_step H0 as w3 E3.
  apply update_Ok in H0. inversion H0; subst. cbn. done.
Qed.

Lemma writeEntries_Ok f msg es : forall w es' w',
  writeEntries f msg es w = (Ok es', w') -> Forall2 same_content es es'.
Proof.
  induction es as [|e es IH]; intros w es' w' H0; cbn in H0.
  - inversion H0; subst. constructor.
  - apply bind_Ok in H0 as (offset & w1 & E1 & H0).
    apply bind_Ok in H0 as (? & w2 & E2 & H0).
    apply bind_Ok in H0 as (rest & w3 & E3 & H0).
    inversion H0; subst. constructor.
    + apply same_content_set_Offset.
    + by eapply IH.
Qed.

Lemma Log_AppendEntries_Ok es l w u l' w' :
  AppendEntries es (l, w) = (Ok u, (l', w')) ->
  exists es', entries l' = entries l ++ es' /\
    Forall2 same_content es es' /\ file l' = file l.
Proof.
  unfold AppendEntries. intros H0.
  bind_inv H0. apply self_Ok in E as [-> ->].
  destruct (file l) as [f|] eqn:Hf; [|done].
  apply bind_Ok in H0 as (es' & s1 & E1 & H0).
  apply os_Ok in E1 as (w1 & -> & E1). apply writeEntries_Ok in E1.
  os_step H0 as w2 E2.
  apply update_Ok in H0. inversion H0; subst. cbn. eauto.
Qed.

Lemma DiscardEntries_Ok index term l w u l' w' :
  DiscardEntries index term (l, w) = (Ok u, (l', w')) ->
  entries l' = [mkEntry index term 0 [] NoOpEntry] /\ is_Some (file l').
Proof.
  unfold DiscardEntries. intros H0.
  bind_inv H0. apply self_Ok in E as [-> ->].
  destruct (file l) as [f|] eqn:Hf; [|done].
  os_step H0 as w1 E1. os_step H0 as w2 E2.
  apply bind_Ok in H0 as (? & [l3 w3] & E3 & H0).
  apply wrapE_Ok in E3. apply rename_Ok in E3 as (He3 & Hp3 & Hf3).
  apply update_Ok in H0. inversion H0; subst. cbn. done.
Qed.

End LogUpdates.

(** ** The snapshot storage *)

Lemma os_keeps_receiver {T A} (m : M World A) (p : T) w r s :
  os m (p, w) = (r, s) -> fst s = p.
Proof.
  unfold os, zoom. cbn [fst snd]. destruct (m w). intros E.
  inversion E; subst. done.
Qed.

Section SnapshotFacts.
Context `{ProtoCodec SnapshotStorage.Snapshot}.
Import SnapshotStorage.

(** [SaveSnapshot] touches the receiver in its last statement only. *)
Lemma SaveSnapshot_receiver snapshot p w r p' w' :
  SaveSnapshot snapshot (p, w) = (r, (p', w')) ->
  match r with
  | Ok _ => p' = set_snapshots (snapshots p ++ [snapshot]) p
  | _ => p' = p
  end.
Proof.
  unfold SaveSnapshot, bind at 1, self, gets. cbn [fst].
  destruct (file p) as [f|].
  2:{ unfold fail. intros E. inversion E; subst. done. }
  unfold bind at 1, wrapE.
  destruct (os _ (p, w)) as [r1 [p1 w1]] eqn:E1.
  apply os_keeps_receiver in E1. cbn [fst] in E1. subst p1.
  destruct r1 as [[]|e| |]; try (intros E; inversion E; subst; done).
  unfold bind at 1.
  destruct (os (file_Sync f) (p, w1)) as [r2 [p2 w2]] eqn:E2.
  apply os_keeps_receiver in E2. cbn [fst] in E2. subst p2.
  destruct r2 as [[]|e| |]; try (intros E; inversion E; subst; done).
Qed.

(** C10. When [SaveSnapshot] returns an error, the storage object is what
    it was before the call, so [LastSnapshot] and [ListSnapshots] answer
    as they did. *)
Theorem saveSnapshot_error_keeps_snapshots snapshot p w e p' w' :
  SaveSnapshot snapshot (p, w) = (Err e, (p', w')) ->
  snapshots p' = snapshots p /\
  LastSnapshot p' = LastSnapshot p /\
  ListSnapshots p' = ListSnapshots p.
Proof. intros E. apply SaveSnapshot_receiver in E. by subst. Qed.

End SnapshotFacts.

Lemma saveSnapshot_error_witness :
  let s := SnapshotStorage.mkSnapshot 9 2 [x62] in
  let after :=
    fst (snd (SnapshotStorage.SaveSnapshot s
                (SnapshotWire.one_snapshot, SnapshotWire.failing_disk))) in
  SnapshotStorage.snapshots after
    = SnapshotStorage.snapshots SnapshotWire.one_snapshot /\
  SnapshotStorage.LastSnapshot after
    = SnapshotStorage.LastSnapshot SnapshotWire.one_snapshot /\
  SnapshotStorage.ListSnapshots after
    = SnapshotStorage.ListSnapshots SnapshotWire.one_snapshot.
Proof.
  intros s after.
  refine (saveSnapshot_error_keeps_snapshots s SnapshotWire.one_snapshot
            SnapshotWire.failing_disk
            (WrapError ErrIO "failed to save snapshot") after
            (snd (snd (SnapshotStorage.SaveSnapshot s
               (SnapshotWire.one_snapshot, SnapshotWire.failing_disk)))) _).
  vm_compute. reflexivity.
Defined.

(** ** The node *)

Lemma readLog_run {A} (q : Log.persistentLog -> outcome A) r w :
  Raft.readLog q (r, w) = (q (Raft.log r), (r, w)).
Proof. reflexivity. Qed.

Lemma readLog_Ok {A} (q : Log.persistentLog -> outcome A) r w a s' :
  Raft.readLog q (r, w) = (Ok a, s') -> s' = (r, w) /\ q (Raft.log r) = Ok a.
Proof. unfold Raft.readLog. cbn. intros E. inversion E; subst. done. Qed.

Lemma onLog_Ok {A} (m : Log.Method A) r w a s' :
  Raft.onLog m (r, w) = (Ok a, s') ->
  exists l' w', s' = (Raft.set_log l' r, w') /\
                m (Raft.log r, w) = (Ok a, (l', w')).
Proof.
  unfold Raft.onLog, zoom. cbn [fst snd].
  destruct (m (Raft.log r, w)) as [o [l' w']]. intros E.
  inversion E; subst. eauto.
Qed.

Lemma onStateStorage_Ok {A} (m : StateStorage.Method A) r w a s' :
  Raft.onStateStorage m (r, w) = (Ok a, s') ->
  exists p' w', s' = (Raft.set_stateStorage p' r, w') /\
                m (Raft.stateStorage r, w) = (Ok a, (p', w')).
Proof.
  unfold Raft.onStateStorage, zoom. cbn [fst snd].
  destruct (m (Raft.stateStorage r, w)) as [o [p' w']]. intros E.
  inversion E; subst. eauto.
Qed.

Lemma onSnapshotStorage_Ok {A} (m : SnapshotStorage.Method A) r w a s' :
  Raft.onSnapshotStorage m (r, w) = (Ok a, s') ->
  exists p' w', s' = (Raft.set_snapshotStorage p' r, w') /\
                m (Raft.snapshotStorage r, w) = (Ok a, (p', w')).
Proof.
  unfold Raft.onSnapshotStorage, zoom. cbn [fst snd].
  destruct (m (Raft.snapshotStorage r, w)) as [o [p' w']]. intros E.
  inversion E; subst. eauto.
Qed.

Lemma Log_contiguous_nonneg l : Log.contiguous l -> 0 <= Log.firstIndex l.
Proof. by intros (_ & _ & ? & _). Qed.

Section RaftFacts.
Context {state_codec : ProtoCodec StateStorage.persistentState}.
Context {entry_codec : ProtoCodec Log.LogEntry}.
Context {snapshot_codec : ProtoCodec SnapshotStorage.Snapshot}.
Import Raft.

(** *** Persisting the term and the vote, stepping down *)

Lemma persistTermAndVote_Ok r w u r' w' :
  StateStorage.opened (stateStorage r) w ->
  persistTermAndVote (r, w) = (Ok u, (r', w')) ->
  exists p' buf,
    r' = set_stateStorage p' r /\
    Marshal (StateStorage.mkState (currentTerm r) (votedFor r)) = Some buf /\
    StateStorage.state p' = StateStorage.mkState (currentTerm r) (votedFor r) /\
    StateStorage.stateDir p' = StateStorage.stateDir (stateStorage r) /\
    files w' !! Join (StateStorage.stateDir (stateStorage r)) "state.bin"
      = Some (frame buf) /\
    StateStorage.ready p' w'.
Proof.
  intros Hop. unfold persistTermAndVote. intros H0.
  bind_inv H0. apply self_Ok in E as [-> ->].
  apply orFatal_Ok in H0. apply onStateStorage_Ok in H0 as (p' & w1 & E & HS).
  inversion E; subst r' w1; clear E.
  destruct (SetState_Ok _ _ _ _ _ _ _ Hop HS) as (buf & f' & HM & Hp & Hfile & _).
  destruct (SetState_Ok_ready _ _ _ _ _ _ _ Hop HS) as (Hrdy & Hdir & Hst).
  exists p', buf. done.
Qed.

Hypothesis Marshal_state :
  forall s : StateStorage.persistentState, is_Some (Marshal s).

Lemma persistTermAndVote_reliable r w :
  StateStorage.ready (stateStorage r) w -> reliable w ->
  exists p' w',
    persistTermAndVote (r, w) = (Ok tt, (set_stateStorage p' r, w')) /\
    reliable w' /\ StateStorage.ready p' w'.
Proof.
  intros Hrdy Hr. unfold persistTermAndVote, bind, self, gets. cbn [fst].
  destruct (SetState_reliable (stateStorage r) w (currentTerm r) (votedFor r)
              Hrdy Hr (Marshal_state _)) as (p' & w' & E & Hr' & Hrdy').
  exists p', w'. split; [|done].
  unfold orFatal, onStateStorage, zoom. cbn [fst snd]. by rewrite E.
Qed.

Lemma becomeFollower_Ok leaderID term r w u r' w' :
  StateStorage.opened (stateStorage r) w ->
  becomeFollower leaderID term (r, w) = (Ok u, (r', w')) ->
  exists p', r' = steppedDown leaderID term p' r /\
    StateStorage.ready p' w' /\
    StateStorage.stateDir p' = StateStorage.stateDir (stateStorage r).
Proof.
  intros Hop. unfold becomeFollower. intros H0.
  do 4 (apply bind_Ok in H0 as (? & ? & E & H0); apply update_Ok in E as ->).
  apply bind_Ok in H0 as (? & [r1 w1] & E & H0).
  apply persistTermAndVote_Ok in E as (p' & buf & -> & _ & _ & Hdir & _ & Hrdy);
    [|exact Hop].
  bind_inv H0. apply self_Ok in E as [-> ->].
  apply bind_Ok in H0 as (? & ? & E & H0). apply update_Ok in E as ->.
  apply update_Ok in H0. inversion H0; subst. exists p'. done.
Qed.

Lemma becomeFollower_reliable leaderID term r w :
  StateStorage.ready (stateStorage r) w -> reliable w ->
  exists p' w',
    becomeFollower leaderID term (r, w)
      = (Ok tt, (steppedDown leaderID term p' r, w')) /\
    reliable w' /\ StateStorage.ready p' w'.
Proof.
  intros Hrdy Hr. unfold becomeFollower.
  do 4 (unfold bind at 1, update at 1, modify; cbn [fst snd]).
  match goal with |- context [bind persistTermAndVote _ (?r1, w)] =>
    destruct (persistTermAndVote_reliable r1 w Hrdy Hr)
      as (p' & w' & E & Hr' & Hrdy') end.
  rewrite (bind_run_Ok _ _ _ _ _ E).
  exists p', w'. split; [|done]. reflexivity.
Qed.

(** *** RequestVote *)

Lemma outOfDate_reflect a b c d :
  (a <? b) || ((a =? b) && (c <? d)) = true <-> a < b \/ (a = b /\ d > c).
Proof.
  destruct (Z.ltb_spec a b); destruct (Z.eqb_spec a b);
    destruct (Z.ltb_spec c d); cbn; split; try done; try lia.
Qed.

Lemma not_voted_for_other (v c : string) :
  v = "" \/ v = c -> negb (String.eqb v "") && negb (String.eqb v c) = false.
Proof.
  intros [->| ->].
  - done.
  - rewrite String.eqb_refl. cbn. apply andb_false_r.
Qed.

(** C1. A node that is not shut down receives a vote request whose term
    is not below its own, and has not voted for another candidate in the
    term of the request (a vote cast in an older term is cleared when the
    node steps down to the term of the request).  The
    response, when the call returns one, refuses the vote exactly when the
    last log term of the request is below that of the log, or equal to it
    with a last log index below that of the log.  When it grants the vote
    the node has the candidate as [votedFor], at the term of the request,
    and the state file holds exactly the record of that term and vote.
    The call does return a response when no system call fails. *)
Theorem requestVote_grants_iff_log_up_to_date r w request now :
  state r <> Shutdown ->
  currentTerm r <= RequestVoteRequest.Term request ->
  (RequestVoteRequest.Term request = currentTerm r ->
   votedFor r = "" \/ votedFor r = RequestVoteRequest.CandidateID request) ->
  Log.contiguous (log r) ->
  StateStorage.ready (stateStorage r) w ->
  exists lastEntry,
    last (Log.entries (log r)) = Some lastEntry /\
    let outOfDate :=
      RequestVoteRequest.LastLogTerm request < Log.Term lastEntry \/
      (RequestVoteRequest.LastLogTerm request = Log.Term lastEntry /\
       Log.lastIndex (log r) > RequestVoteRequest.LastLogIndex request) in
    let granted :=
      StateStorage.mkState (RequestVoteRequest.Term request)
        (RequestVoteRequest.CandidateID request) in
    (forall response r' w',
       RequestVote request now (r, w) = (Ok response, (r', w')) ->
       (RequestVoteResponse.VoteGranted response = false <-> outOfDate) /\
       (RequestVoteResponse.VoteGranted response = true ->
        votedFor r' = RequestVoteRequest.CandidateID request /\
        currentTerm r' = RequestVoteRequest.Term request /\
        StateStorage.state (stateStorage r') = granted /\
        exists buf, Marshal granted = Some buf /\
          files w' !! Join (StateStorage.stateDir (stateStorage r)) "state.bin"
            = Some (frame buf))) /\
    (reliable w ->
     exists response r' w',
       RequestVote request now (r, w) = (Ok response, (r', w'))).
Proof.
  intros Hst Hterm Hvote Hc Hrdy.
  destruct (LastTerm_spec _ Hc) as (lastEntry & Hlast & HLT).
  pose proof (LastIndex_spec _ Hc) as HLI.
  exists lastEntry. split; [done|]. cbn zeta. split.
  - intros response r' w' H0. unfold RequestVote in H0.
    bind_inv H0. apply self_Ok in E as [-> ->].
    destruct (decide (state r = Shutdown)); [done|].
    destruct (Z.ltb_spec (RequestVoteRequest.Term request) (currentTerm r));
      [lia|].
    apply bind_Ok in H0 as (? & [r1 w1] & E & H0).
    assert (Hr1 : log r1 = log r /\
              currentTerm r1 = RequestVoteRequest.Term request /\
              (votedFor r1 = "" \/
               votedFor r1 = RequestVoteRequest.CandidateID request) /\
              StateStorage.ready (stateStorage r1) w1 /\
              StateStorage.stateDir (stateStorage r1)
                = StateStorage.stateDir (stateStorage r)).
    { destruct (Z.ltb_spec (currentTerm r) (RequestVoteRequest.Term request)).
      - apply becomeFollower_Ok in E as (p' & -> & Hrdy' & Hdir);
          [|by apply ready_opened].
        cbn. auto.
      - inversion E; subst. split; [done|]. split; [lia|].
        split; [apply Hvote; lia|]. done. }
    clear E. destruct Hr1 as (Hlog & Hct & Hv1 & Hrdy1 & Hdir1).
    bind_inv H0. apply self_Ok in E as [-> ->].
    rewrite (not_voted_for_other _ _ Hv1) in H0.
    apply bind_Ok in H0 as (lastTerm & ? & E & H0).
    apply readLog_Ok in E as [-> E]. rewrite Hlog, HLT in E.
    inversion E; subst lastTerm; clear E.
    apply bind_Ok in H0 as (lastIndex & ? & E & H0).
    apply readLog_Ok in E as [-> E]. rewrite Hlog, HLI in E.
    inversion E; subst lastIndex; clear E.
    match type of H0 with (if ?c then _ else _) _ = _ =>
      destruct c eqn:Hood end.
    + inversion H0; subst. cbn. split; [|done].
      split; [|done]. intros _. by apply outOfDate_reflect.
    + apply bind_Ok in H0 as (? & ? & E & H0). apply update_Ok in E as ->.
      apply bind_Ok in H0 as (? & ? & E & H0). apply update_Ok in E as ->.
      apply bind_Ok in H0 as (? & [r2 w2] & E & H0).
      apply persistTermAndVote_Ok in E
        as (p' & buf & -> & HM & Hstate & Hdir2 & Hfile & _);
        [|by apply ready_opened].
      cbn in HM, Hstate, Hfile. rewrite Hct in HM, Hstate.
      rewrite Hdir1 in Hfile.
      inversion H0; subst. cbn. split.
      * split; [done|]. intros Hout%outOfDate_reflect. congruence.
      * intros _. split; [done|]. split; [done|]. split; [done|].
        exists buf. done.
  - intros Hr. unfold RequestVote, bind at 1, self, gets. cbn [fst].
    destruct (decide (state r = Shutdown)); [done|].
    destruct (Z.ltb_spec (RequestVoteRequest.Term request) (currentTerm r));
      [lia|].
    assert (Hstep : exists r1 w1,
      (if currentTerm r <? RequestVoteRequest.Term request
       then becomeFollower (RequestVoteRequest.CandidateID request)
              (RequestVoteRequest.Term request)
       else ret ()) (r, w) = (Ok tt, (r1, w1)) /\
      reliable w1 /\ StateStorage.ready (stateStorage r1) w1 /\
      log r1 = log r /\
      (votedFor r1 = "" \/
       votedFor r1 = RequestVoteRequest.CandidateID request)).
    { destruct (Z.ltb_spec (currentTerm r) (RequestVoteRequest.Term request)).
      - destruct (becomeFollower_reliable
                    (RequestVoteRequest.CandidateID request)
                    (RequestVoteRequest.Term request) r w Hrdy Hr)
          as (p' & w1 & E & Hr1 & Hrdy1).
        eexists _, w1. split; [exact E|]. cbn. auto.
      - exists r, w. split; [done|]. split; [done|]. split; [done|].
        split; [done|]. apply Hvote. lia. }
    destruct Hstep as (r1 & w1 & E & Hr1 & Hrdy1 & Hlog & Hv1).
    rewrite (bind_run_Ok _ _ _ _ _ E).
    unfold bind at 1, self, gets. cbn [fst].
    rewrite (not_voted_for_other _ _ Hv1).
    unfold bind at 1. rewrite readLog_run, Hlog, HLT.
    unfold bind at 1. rewrite readLog_run, Hlog, HLI.
    match goal with |- context [if ?c then _ else _] => destruct c end.
    { eexists _, _, _. reflexivity. }
    do 2 (unfold bind at 1, update at 1, modify; cbn [fst snd]).
    match goal with |- context [bind persistTermAndVote _ (?r2, w1)] =>
      destruct (persistTermAndVote_reliable r2 w1 Hrdy1 Hr1)
        as (p' & w2 & E2 & _) end.
    rewrite (bind_run_Ok _ _ _ _ _ E2). eexists _, _, _. reflexivity.
Qed.

(** *** Read-only operations *)

(** On a leader, [submitReadOnlyOperation] records an operation whose
    type is [LeaseBasedReadOnly], whatever type the caller passed. *)
Lemma submitReadOnlyOperation_opType r w bytes ty ch u r' w' :
  state r = Leader ->
  submitReadOnlyOperation bytes ty ch (r, w) = (Ok u, (r', w')) ->
  pendingReadOnly (operationManager r')
  = pendingReadOnly (operationManager r)
    ++ [mkOperation bytes LeaseBasedReadOnly 0 0 (commitIndex r) (Some ch) false].
Proof.
  intros Hl. unfold submitReadOnlyOperation, bind at 1, self, gets.
  cbn [fst]. rewrite Hl. cbn [bool_decide negb].
  rewrite bool_decide_eq_true_2 by done. cbn [negb].
  unfold bind at 1, update, modify. cbn [fst snd].
  unfold bind at 1. cbn [fst].
  match goal with |- context [if ?c then _ else _] => destruct c end.
  - intros E. inversion E; subst. done.
  - unfold ret. intros E. inversion E; subst. done.
Qed.

(** *** Replication requests *)

Lemma filter_contiguous (es : list Log.LogEntry) b p hi lii :
  (forall (i : nat) e, es !! i = Some e -> Log.Index e = b + Z.of_nat i) ->
  b + Log.len es <= hi -> lii <= p ->
  filter (fun e => p < Log.Index e /\ Log.Index e < hi /\ lii < Log.Index e) es
  = drop (Z.to_nat (p + 1 - b)) es.
Proof.
  revert b. induction es as [|e es IH]; intros b Hidx Hhi Hlii.
  { by rewrite drop_nil. }
  assert (He : Log.Index e = b) by (rewrite (Hidx 0%nat e); [lia|done]).
  assert (Hes : forall (i : nat) e', es !! i = Some e' ->
            Log.Index e' = b + 1 + Z.of_nat i).
  { intros i e' Hi. rewrite (Hidx (S i) e' Hi). lia. }
  unfold Log.len in *. cbn [length] in Hhi.
  specialize (IH (b + 1) Hes ltac:(lia) Hlii).
  destruct (Z.lt_ge_cases p b) as [Hlo|Hhi'].
  - rewrite filter_cons_True by lia. rewrite IH.
    replace (Z.to_nat (p + 1 - (b + 1))) with 0%nat by lia.
    replace (Z.to_nat (p + 1 - b)) with 0%nat by lia. done.
  - rewrite filter_cons_False by lia. rewrite IH.
    replace (Z.to_nat (p + 1 - b)) with (S (Z.to_nat (p + 1 - (b + 1)))) by lia.
    done.
Qed.

Lemma collectEntries_run n : forall index r w f,
  Log.contiguous (log r) -> Log.file (log r) = Some f ->
  Log.firstIndex (log r) <= lastIncludedIndex r < index ->
  index + Z.of_nat n <= Log.lastIndex (log r) + 1 ->
  Log.lastIndex (log r) < U64.max ->
  collectEntries n index (r, w)
  = (Ok (take n (drop (Z.to_nat (index - Log.firstIndex (log r)))
                   (Log.entries (log r)))), (r, w)).
Proof.
  induction n as [|n IH]; intros index r w f Hc Hf Hlo Hhi Hmax;
    cbn [collectEntries].
  { by rewrite take_0. }
  unfold bind at 1, self, gets. cbn [fst].
  destruct (Z.leb_spec index (lastIncludedIndex r)); [lia|].
  destruct (GetEntry_in_range (log r) f index Hc Hf) as (e & HG & Hi & Hl);
    [lia|].
  unfold bind at 1, orFatal. rewrite readLog_run, HG.
  assert (Hmax' : Log.lastIndex (log r) < U64.modulus - 1) by exact Hmax.
  rewrite U64_add_small by (pose proof (Log_contiguous_nonneg (log r) Hc); lia).
  rewrite (bind_run_Ok _ _ _ _ _
             (IH (index + 1) r w f Hc Hf ltac:(lia) ltac:(lia) Hmax)).
  unfold ret. do 2 f_equal.
  rewrite (drop_S _ _ _ Hl). cbn [take]. do 3 f_equal. lia.
Qed.

(** C9, amended.  For a peer other than the node itself whose next index
    [ni] lies between 1 and the next index of the log, the leader builds a
    request with [prevLogIndex = max(ni - 1, lastIncludedIndex)].  When
    [ni] is above [lastIncludedIndex] its entries are exactly the entries
    of the log in [(prevLogIndex, log.nextIndex)], in order; when [ni] is
    at or below [lastIncludedIndex] (the peer needs entries that were
    compacted away) the loop stops at its first index and the request
    carries no entry.  The node is left as it was. *)
Theorem sendAppendEntries_request_entries r w peer now ni f :
  state r = Leader -> peer <> id r ->
  Log.contiguous (log r) -> Log.file (log r) = Some f ->
  Log.firstIndex (log r) <= lastIncludedIndex r <= Log.lastIndex (log r) ->
  Log.lastIndex (log r) < U64.max ->
  nextIndex r !! peer = Some ni ->
  1 <= ni <= Log.lastIndex (log r) + 1 ->
  Log.lastIndex (log r) + 1 - ni <= maxSliceCap ->
  exists request,
    sendAppendEntries_request peer now (r, w) = (Ok (Some request), (r, w)) /\
    AppendEntriesRequest.PrevLogIndex request
      = Z.max (ni - 1) (lastIncludedIndex r) /\
    AppendEntriesRequest.Entries request
      = if lastIncludedIndex r <? ni
        then filter (fun e =>
                 AppendEntriesRequest.PrevLogIndex request < Log.Index e
                 /\ Log.Index e < Log.lastIndex (log r) + 1
                 /\ lastIncludedIndex r < Log.Index e)
               (Log.entries (log r))
        else [].
Proof.
  intros Hl Hpeer Hc Hf Hlii Hmax Hni Hrange Hcap.
  pose proof (contiguous_bounds (log r) Hc) as (Hb0 & Hb1 & Hb2).
  unfold U64.max in Hmax.
  unfold sendAppendEntries_request, bind at 1, self, gets. cbn [fst].
  rewrite Hl. rewrite bool_decide_eq_true_2 by done. cbn [negb].
  destruct (String.eqb_spec peer (id r)) as [?|_]; [done|].
  rewrite Hni. change (default 0 (Some ni)) with ni.
  rewrite (U64_sub_small ni 1) by lia.
  unfold bind at 1. rewrite readLog_run, (NextIndex_spec _ Hc).
  rewrite U64_add_small by lia.
  set (prev := Z.max (ni - 1) (lastIncludedIndex r)).
  assert (Hprev : exists t,
    (if (lastIncludedIndex r <? prev) && (prev <? Log.lastIndex (log r) + 1)
     then
       let! prevEntry := orFatal (readLog (fun l => Log.GetEntry l prev)) in
       ret (Log.Term prevEntry)
     else ret (lastIncludedTerm r)) (r, w) = (Ok t, (r, w))).
  { destruct (Z.ltb_spec (lastIncludedIndex r) prev);
      destruct (Z.ltb_spec prev (Log.lastIndex (log r) + 1)); cbn [andb];
      try (eexists; reflexivity).
    destruct (GetEntry_in_range (log r) f prev Hc Hf) as (e & HG & _);
      [lia|].
    unfold bind, orFatal. rewrite readLog_run, HG. eexists. reflexivity. }
  destruct Hprev as (t & Hprev). unfold bind at 1. rewrite Hprev.
  rewrite (U64_sub_small _ ni) by lia.
  destruct (Z.ltb_spec maxSliceCap (Log.lastIndex (log r) + 1 - ni)); [lia|].
  destruct (Z.ltb_spec (lastIncludedIndex r) ni) as [Hgt|Hle].
  - rewrite (bind_run_Ok _ _ _ _ _
       (collectEntries_run (Z.to_nat (Log.lastIndex (log r) + 1 - ni)) ni r w f
          Hc Hf ltac:(lia) ltac:(lia) ltac:(unfold U64.max; lia))).
    eexists. split; [reflexivity|]. cbn. split; [done|].
    destruct Hc as (_ & Hidx & _).
    rewrite (filter_contiguous _ (Log.firstIndex (log r)));
      [|done|unfold Log.lastIndex; lia|unfold prev; lia].
    rewrite take_ge.
    + f_equal. unfold prev. lia.
    + rewrite length_drop. unfold Log.lastIndex, Log.len in *. lia.
  - assert (HE : collectEntries (Z.to_nat (Log.lastIndex (log r) + 1 - ni)) ni
                   (r, w) = (Ok [], (r, w))).
    { destruct (Z.to_nat (Log.lastIndex (log r) + 1 - ni)); [done|].
      cbn [collectEntries]. unfold bind, self, gets. cbn [fst].
      destruct (Z.leb_spec ni (lastIncludedIndex r)); [done|lia]. }
    rewrite (bind_run_Ok _ _ _ _ _ HE).
    eexists. split; [reflexivity|]. done.
Qed.

(** *** The commit loop *)

Lemma hasQuorum_majority r c :
  hasQuorum r c = true -> Z.of_nat (size (peers r)) < 2 * c.
Proof.
  unfold hasQuorum. intros Hq%Z.ltb_lt.
  pose proof (Z.div_mod (Z.of_nat (size (peers r))) 2 ltac:(lia)).
  pose proof (Z.mod_pos_bound (Z.of_nat (size (peers r))) 2 ltac:(lia)).
  lia.
Qed.

(** One iteration of the loop: it leaves the node alone, or it sets the
    commit index to the index of the iteration, and then only if the
    entry there is of the current term and a majority matches. *)
Lemma commitStep_Ok index r w u r' w' :
  Log.contiguous (log r) -> U64.valid index ->
  commitStep index (r, w) = (Ok u, (r', w')) ->
  w' = w /\ Log.firstIndex (log r) < index <= Log.lastIndex (log r) /\
  (r' = r \/ r' = set_commitIndex index r /\ committable r index).
Proof.
  intros Hc Hv. unfold commitStep. intros H0.
  bind_inv H0. apply self_Ok in E as [-> ->].
  apply bind_Ok in H0 as (e & s1 & E & H0). apply orFatal_Ok in E.
  apply readLog_Ok in E as [-> HG].
  destruct (GetEntry_Ok _ _ _ Hc Hv HG) as (Hrange & Hi & _).
  destruct (Z.eqb_spec (Log.Term e) (currentTerm r)) as [Ht|_]; cbn [negb] in H0.
  2:{ inversion H0; subst. auto. }
  destruct (hasQuorum r (countMatches r index)) eqn:Hq.
  - apply update_Ok in H0. inversion H0; subst. split; [done|]. split; [done|].
    right. split; [done|]. exists e. repeat split; try done.
    by apply hasQuorum_majority.
  - inversion H0; subst. auto.
Qed.

Lemma committable_set_commitIndex c r i :
  committable (set_commitIndex c r) i <-> committable r i.
Proof. done. Qed.

Lemma commitScan_Ok n : forall index r w u r' w',
  Log.contiguous (log r) -> 0 <= index ->
  index + Z.of_nat n <= U64.modulus ->
  commitScan n index (r, w) = (Ok u, (r', w')) ->
  w' = w /\
  (n <> 0%nat -> Log.firstIndex (log r) < index) /\
  (r' = r \/
   exists i, r' = set_commitIndex i r /\ index <= i < index + Z.of_nat n /\
             committable r i).
Proof.
  induction n as [|n IH]; intros index r w u r' w' Hc H0 Hn HS;
    cbn [commitScan] in HS.
  { inversion HS; subst. split; [done|]. split; [done|]. by left. }
  apply bind_Ok in HS as (? & [r1 w1] & E & HS).
  apply commitStep_Ok in E as (-> & Hrange & Hr1);
    [|done|unfold U64.valid; lia].
  assert (Hc1 : Log.contiguous (log r1)) by (by destruct Hr1 as [->|[-> _]]).
  assert (Hlog : log r1 = log r) by (by destruct Hr1 as [->|[-> _]]).
  destruct n as [|n].
  { cbn [commitScan] in HS. inversion HS; subst. split; [done|].
    split; [lia|]. destruct Hr1 as [->|[-> Hcm]]; [by left|].
    right. exists index. split; [done|]. split; [lia|done]. }
  rewrite U64_add_small in HS by lia.
  apply IH in HS as (-> & _ & Hr'); [|done|lia|lia].
  split; [done|]. split; [lia|].
  destruct Hr' as [->|(i & -> & Hi & Hcm)].
  - destruct Hr1 as [->|[-> Hcm]]; [by left|].
    right. exists index. split; [done|]. split; [lia|done].
  - right. exists i. split.
    + by destruct Hr1 as [->|[-> _]].
    + split; [lia|]. destruct Hr1 as [->|[-> _]]; done.
Qed.

Lemma commitLoop_iteration_Ok r w u r' w' :
  Log.contiguous (log r) -> U64.valid (commitIndex r) ->
  commitLoop_iteration (r, w) = (Ok u, (r', w')) ->
  w' = w /\
  (r' = r \/
   exists i, r' = set_commitIndex i r /\
     commitIndex r < i <= Log.lastIndex (log r) /\ committable r i).
Proof.
  intros Hc Hv. unfold commitLoop_iteration. intros H0.
  bind_inv H0. apply self_Ok in E as [-> ->].
  destruct (bool_decide (state r = Leader)); cbn [negb] in H0.
  2:{ inversion H0; subst. auto. }
  apply bind_Ok in H0 as (lastIndex & s1 & E & H0).
  apply readLog_Ok in E as [-> HL]. rewrite (LastIndex_spec _ Hc) in HL.
  inversion HL; subst lastIndex; clear HL.
  pose proof (contiguous_bounds _ Hc) as (Hb0 & Hb1 & Hb2).
  pose proof (U64_wrap_valid (commitIndex r + 1)) as Hsv.
  fold (U64.add (commitIndex r) 1) in Hsv. unfold U64.valid in Hsv, Hv.
  destruct (Z.ltb_spec (Log.lastIndex (log r)) (U64.add (commitIndex r) 1)).
  { inversion H0; subst. auto. }
  destruct (Z.ltb_spec (Log.lastIndex (log r)) U64.max) as [Hmax|_].
  2:{ bind_inv H0. done. }
  unfold U64.max in Hmax.
  apply commitScan_Ok in H0 as (-> & Hfirst & Hr'); [|done|lia|lia].
  split; [done|]. destruct Hr' as [->|(i & -> & Hi & Hcm)]; [by left|].
  right. exists i. split; [done|]. split; [|done].
  assert (Hstart : U64.add (commitIndex r) 1 = commitIndex r + 1).
  { destruct (Z.eq_dec (commitIndex r) (U64.modulus - 1)) as [Heq|Hneq].
    - exfalso. rewrite Heq in Hfirst.
      replace (U64.add (U64.modulus - 1) 1) with 0 in Hfirst by reflexivity.
      rewrite Heq in Hi.
      replace (U64.add (U64.modulus - 1) 1) with 0 in Hi by reflexivity.
      lia.
    - apply U64_add_small. lia. }
  lia.
Qed.


(** C2. An iteration of the commit loop sets the commit index to [index]
    only if the entry at [index] is of the current term and more than half
    of the cluster, the leader counted, has a match index of at least
    [index]; and a whole pass of the loop leaves the node as it was or
    moves its commit index, and nothing else, to an index above the old
    one and within the log that meets these two conditions. *)
Theorem commit_needs_current_term_and_quorum r w :
  Log.contiguous (log r) -> U64.valid (commitIndex r) ->
  (forall index u r' w',
     U64.valid index ->
     commitStep index (r, w) = (Ok u, (r', w')) ->
     commitIndex r' <> commitIndex r ->
     commitIndex r' = index /\ committable r index) /\
  (forall u r' w',
     commitLoop_iteration (r, w) = (Ok u, (r', w')) ->
     w' = w /\
     (r' = r \/
      exists i, r' = set_commitIndex i r /\
        commitIndex r < i <= Log.lastIndex (log r) /\ committable r i)).
Proof.
  intros Hc Hv. split.
  { intros index u r' w' Hvi HS Hne.
    apply commitStep_Ok in HS as (_ & _ & [->|[-> Hcm]]); done. }
  intros u r' w' H0. by eapply commitLoop_iteration_Ok.
Qed.

End RaftFacts.

(** C8, as the code behaves: a [LinearizableReadOnly] operation submitted
    to the leader is recorded with the type [LeaseBasedReadOnly]. *)
Theorem submitReadOnly_records_lease_based :
  Raft.pendingReadOnly (Raft.operationManager (fst (snd
     (Raft.submitReadOnlyOperation [x61] Raft.LinearizableReadOnly 9
        (Demo.leader, Demo.disk)))))
  = [Raft.mkOperation [x61] Raft.LeaseBasedReadOnly 0 0 5 (Some 9%nat) false].
Proof. vm_compute. reflexivity. Qed.

Lemma sendAppendEntries_request_witness :
  exists request,
    Raft.sendAppendEntries_request "n2" 0 (Demo.leader_ahead, Demo.disk)
      = (Ok (Some request), (Demo.leader_ahead, Demo.disk)) /\
    Raft.AppendEntriesRequest.PrevLogIndex request = Z.max (6 - 1) 5 /\
    Raft.AppendEntriesRequest.Entries request
      = if 5 <? 6
        then filter (fun e =>
                 Raft.AppendEntriesRequest.PrevLogIndex request < Log.Index e
                 /\ Log.Index e < 7 + 1 /\ 5 < Log.Index e)
               (Log.entries LogWire.compacted_log)
        else [].
Proof.
  refine (sendAppendEntries_request_entries Demo.leader_ahead Demo.disk "n2" 0
            6 0%nat _ _ (proj1 compacted_log_inv) _ _ _ _ _ _).
  - reflexivity.
  - discriminate.
  - reflexivity.
  - vm_compute. split; discriminate.
  - reflexivity.
  - reflexivity.
  - vm_compute. split; discriminate.
  - vm_compute. discriminate.
Defined.

(** The request of that instance carries the entries 6 and 7 of the log,
    after the previous index 5. *)
Lemma sendAppendEntries_request_demo :
  exists request,
    fst (Raft.sendAppendEntries_request "n2" 0 (Demo.leader_ahead, Demo.disk))
      = Ok (Some request) /\
    Raft.AppendEntriesRequest.PrevLogIndex request = 5 /\
    Log.Index <$> Raft.AppendEntriesRequest.Entries request = [6; 7].
Proof. eexists. split; [vm_compute; reflexivity|]. split; reflexivity. Qed.

(** C9, as stated, fails: for [n3], whose next index 3 is below the
    compaction point 5, the leader builds a request with
    [prevLogIndex = 5] and no entry, although the log holds the entries 6
    and 7 in [(5, 8)]. *)
Lemma sendAppendEntries_request_counterexample :
  exists request,
    fst (Raft.sendAppendEntries_request "n3" 0 (Demo.leader, Demo.disk))
      = Ok (Some request) /\
    ~ Raft.entriesAsSpecified Demo.leader request.
Proof.
  eexists. split; [vm_compute; reflexivity|].
  intros [HE _]. vm_compute in HE. discriminate.
Qed.

(** The option [maxEntriesPerRPC] is never read: with sixty entries to
    send and the option at fifty, the request carries the sixty. *)
Lemma sendAppendEntries_request_exceeds_maxEntriesPerRPC :
  exists request,
    fst (Raft.sendAppendEntries_request "n2" 0 (Demo.busy_leader, Demo.disk))
      = Ok (Some request) /\
    Raft.maxEntriesPerRPC (Raft.options Demo.busy_leader) = 50 /\
    length (Raft.AppendEntriesRequest.Entries request) = 60%nat.
Proof. eexists. split; [vm_compute; reflexivity|]. split; reflexivity. Qed.

Lemma commit_needs_current_term_and_quorum_witness :
  let after := snd (Raft.commitLoop_iteration (Demo.leader, Demo.disk)) in
  snd after = Demo.disk /\
  (fst after = Demo.leader \/
   exists i, fst after = Raft.set_commitIndex i Demo.leader /\
     Raft.commitIndex Demo.leader < i
       <= Log.lastIndex (Raft.log Demo.leader) /\
     Raft.committable Demo.leader i).
Proof.
  refine (proj2 (commit_needs_current_term_and_quorum Demo.leader Demo.disk
                   (proj1 compacted_log_inv) _) tt _ _ _).
  - vm_compute. split; [discriminate|reflexivity].
  - vm_compute. reflexivity.
Defined.

(** On the demonstration leader the pass does commit: index 6 is of an
    older term and is skipped, index 7 is of the current term and matched
    by [n2]. *)
Lemma commitLoop_iteration_demo :
  Raft.commitIndex (fst (snd (Raft.commitLoop_iteration (Demo.leader, Demo.disk))))
  = 7.
Proof. vm_compute. reflexivity. Qed.

(** A follower that voted for [n3] in term 3 and whose log ends at index
    7, term 3, receives the request of [n2] for term 4. *)
Lemma requestVote_witness :
  exists lastEntry,
    last (Log.entries (Raft.log Demo.voted_follower)) = Some lastEntry /\
    let request := Raft.RequestVoteRequest.mk "n2" 4 7 3 in
    let outOfDate :=
      3 < Log.Term lastEntry \/
      (3 = Log.Term lastEntry /\
       Log.lastIndex (Raft.log Demo.voted_follower) > 7) in
    let granted := StateStorage.mkState 4 "n2" in
    (forall response r' w',
       Raft.RequestVote request 10 (Demo.voted_follower, Demo.disk)
         = (Ok response, (r', w')) ->
       (Raft.RequestVoteResponse.VoteGranted response = false <-> outOfDate) /\
       (Raft.RequestVoteResponse.VoteGranted response = true ->
        Raft.votedFor r' = "n2" /\ Raft.currentTerm r' = 4 /\
        StateStorage.state (Raft.stateStorage r') = granted /\
        exists buf, Marshal granted = Some buf /\
          files w' !! Join (Join "d" "state") "state.bin" = Some (frame buf))) /\
    (reliable Demo.disk ->
     exists response r' w',
       Raft.RequestVote request 10 (Demo.voted_follower, Demo.disk)
         = (Ok response, (r', w'))).
Proof.
  refine (requestVote_grants_iff_log_up_to_date (fun s => _)
            Demo.voted_follower
            Demo.disk (Raft.RequestVoteRequest.mk "n2" 4 7 3) 10 _ _ _
            (proj1 compacted_log_inv) _).
  - eexists. reflexivity.
  - discriminate.
  - vm_compute. discriminate.
  - vm_compute. discriminate.
  - exists 1%nat. split; [reflexivity|]. split.
    + vm_compute. reflexivity.
    + apply file_names_lookup. eexists. vm_compute. reflexivity.
Defined.

(** On that input the vote is granted and persisted: the vote for [n3]
    was cast in term 3 and does not count in term 4. *)
Lemma requestVote_demo :
  fst (Raft.RequestVote (Raft.RequestVoteRequest.mk "n2" 4 7 3) 10
         (Demo.voted_follower, Demo.disk))
  = Ok (Raft.RequestVoteResponse.mk 4 true).
Proof. vm_compute. reflexivity. Qed.

(** In its own term 3 the same follower refuses [n2]: it has voted for
    [n3]. *)
Lemma requestVote_same_term_demo :
  fst (Raft.RequestVote (Raft.RequestVoteRequest.mk "n2" 3 7 3) 10
         (Demo.voted_follower, Demo.disk))
  = Ok (Raft.RequestVoteResponse.mk 3 false).
Proof. vm_compute. reflexivity. Qed.

(** The oldest revision of [requestVote] compares the term of the
    request, not the term of its last log entry, with the last term of
    the log: a candidate of term 5 whose log ends in term 1 is not found
    out of date by a log that ends in term 3. *)
Lemma legacy_requestVote_compares_request_term :
  let request := Raft.RequestVoteRequest.mk "n2" 5 9 1 in
  Raft.legacyOutOfDate request 3 7 = false /\
  Raft.RequestVoteRequest.LastLogTerm request < 3.
Proof. split; [reflexivity|]. cbn. lia. Qed.
(** ** The node, step by step *)

Lemma noErr_readLog_LastIndex : noErr (Raft.readLog Log.LastIndex).
Proof.
  intros [r w] e s'. unfold Raft.readLog, Log.LastIndex. cbn [fst].
  destruct (Log.at_index _ _); congruence.
Qed.

Lemma noErr_readLog_NextIndex : noErr (Raft.readLog Log.NextIndex).
Proof.
  intros [r w] e s'. unfold Raft.readLog, Log.NextIndex. cbn [fst].
  destruct (Log.at_index _ _); congruence.
Qed.

Lemma noErr_readLog_Contains index :
  noErr (Raft.readLog (fun l => Log.Contains l index)).
Proof.
  intros [r w] e s'. unfold Raft.readLog, Log.Contains. cbn [fst].
  destruct (Log.at_index _ _); congruence.
Qed.

Lemma noErr_deliver ch resp : noErr (Raft.deliver ch resp).
Proof. unfold Raft.deliver. no_err. Qed.

#[global] Hint Resolve noErr_readLog_LastIndex noErr_readLog_NextIndex
  noErr_readLog_Contains noErr_deliver : noerr.

Section NodeFacts.
Context {state_codec : ProtoCodec StateStorage.persistentState}.
Context {entry_codec : ProtoCodec Log.LogEntry}.
Context {snapshot_codec : ProtoCodec SnapshotStorage.Snapshot}.
Import Raft Node.

(** *** Where a method can return an error *)

Lemma noErr_persistTermAndVote : noErr persistTermAndVote.
Proof. unfold persistTermAndVote. no_err. Qed.
Hint Resolve noErr_persistTermAndVote : noerr.

Lemma noErr_becomeFollower leaderID term : noErr (becomeFollower leaderID term).
Proof. unfold becomeFollower. no_err. Qed.
Hint Resolve noErr_becomeFollower : noerr.

Lemma noErr_firstOfTerm n base term : noErr (firstOfTerm n base term).
Proof. induction n as [|n IH]; cbn [firstOfTerm]; no_err. Qed.
Hint Resolve noErr_firstOfTerm : noerr.

Lemma noErr_reconcile es : noErr (reconcile es).
Proof. induction es as [|e es IH]; cbn [reconcile]; no_err. Qed.
Hint Resolve noErr_reconcile : noerr.

Lemma noErr_commitScan n : forall index, noErr (commitScan n index).
Proof.
  induction n as [|n IH]; intros index; cbn [commitScan]; [no_err|].
  apply noErr_bind; [|intros _; apply IH]. unfold commitStep. no_err.
Qed.
Hint Resolve noErr_commitScan : noerr.

Lemma noErr_commitLoop_iteration : noErr commitLoop_iteration.
Proof.
  unfold commitLoop_iteration. generalize (Z.to_nat U64.modulus).
  intros cycle. no_err.
Qed.

Lemma noErr_takeSnapshot bytes : noErr (takeSnapshot bytes).
Proof. unfold takeSnapshot. no_err. Qed.
Hint Resolve noErr_takeSnapshot : noerr.

Lemma noErr_applyLoop_begin : noErr applyLoop_begin.
Proof. unfold applyLoop_begin. no_err. Qed.

Lemma noErr_applyLoop_end a response needSnapshot bytes :
  noErr (applyLoop_end a response needSnapshot bytes).
Proof. unfold applyLoop_end. no_err. Qed.

Lemma noErr_SubmitOperation operation operationType ch :
  noErr (SubmitOperation operation operationType ch).
Proof.
  unfold SubmitOperation, submitReplicatedOperation, submitReadOnlyOperation.
  no_err.
Qed.

(** The handlers return an error only from their first test, on a node
    that was shut down, and leave it as it was. *)
Lemma AppendEntries_Err request now r w e s' :
  AppendEntries request now (r, w) = (Err e, s') -> s' = (r, w).
Proof.
  unfold AppendEntries, bind at 1, self, gets. cbn [fst].
  destruct (decide (state r = Shutdown)).
  { intros E. inversion E; subst. done. }
  destruct (_ <? _); [discriminate|]. absurd_Err.
Qed.

Lemma InstallSnapshot_Err request now restored r w e s' :
  InstallSnapshot request now restored (r, w) = (Err e, s') -> s' = (r, w).
Proof.
  unfold InstallSnapshot, bind at 1, self, gets. cbn [fst].
  destruct (decide (state r = Shutdown)).
  { intros E. inversion E; subst. done. }
  destruct (_ <? _); [discriminate|]. absurd_Err.
Qed.

(** *** What a call that returns has done *)

Lemma set_log_same r : set_log (log r) r = r.
Proof. by destruct r. Qed.

Lemma becomeFollower_shape leaderID term r w u r' w' :
  becomeFollower leaderID term (r, w) = (Ok u, (r', w')) ->
  exists p', r' = steppedDown leaderID term p' r.
Proof.
  unfold becomeFollower. intros H0.
  do 4 (apply bind_Ok in H0 as (? & ? & E & H0); apply update_Ok in E as ->).
  apply bind_Ok in H0 as (? & [r1 w1] & E & H0).
  unfold persistTermAndVote in E.
  bind_inv E. apply self_Ok in E0 as [-> ->].
  apply orFatal_Ok in E. apply onStateStorage_Ok in E as (p' & w2 & E & _).
  inversion E; subst r1 w1; clear E.
  bind_inv H0. apply self_Ok in E as [-> ->].
  apply bind_Ok in H0 as (? & ? & E & H0). apply update_Ok in E as ->.
  apply update_Ok in H0. inversion H0; subst. by exists p'.
Qed.

Lemma firstOfTerm_Ok n base term : forall s index s',
  firstOfTerm n base term s = (Ok index, s') -> s' = s.
Proof.
  induction n as [|n IH]; intros [r w] index s' H0; cbn [firstOfTerm] in H0.
  { by inversion H0. }
  apply bind_Ok in H0 as (entry & s1 & E & H0).
  apply orFatal_Ok, readLog_Ok in E as [-> _].
  destruct (negb _); [by inversion H0|]. by apply IH in H0.
Qed.

(** The loop over the entries of a request leaves a well-formed log that
    still reaches the commit index, and entries to append that follow its
    last index. *)
Lemma reconcile_Ok es : forall base r w toAppend r' w',
  Log.contiguous (log r) -> 0 <= base <= Log.lastIndex (log r) + 1 ->
  commitIndex r <= Log.lastIndex (log r) ->
  (forall (k : nat) e, es !! k = Some e ->
     Log.Index e = base + Z.of_nat k /\ Log.Index e < U64.modulus) ->
  (forall e existing, e ∈ es -> Log.Index e <= commitIndex r ->
     Log.GetEntry (log r) (Log.Index e) = Ok existing ->
     Log.Term existing = Log.Term e) ->
  reconcile es (r, w) = (Ok toAppend, (r', w')) ->
  exists l', r' = set_log l' r /\ Log.contiguous l' /\
    commitIndex r <= Log.lastIndex l' /\
    forall (k : nat) e, toAppend !! k = Some e ->
      Log.Index e = Log.lastIndex l' + 1 + Z.of_nat k /\
      Log.Index e < U64.modulus.
Proof.
  induction es as [|entry rest IH];
    intros base r w toAppend r' w' Hc Hbase Hci Hes Hag H0;
    cbn [reconcile] in H0.
  { inversion H0; subst. exists (log r'). rewrite set_log_same.
    split; [done|]. split; [done|]. split; [done|].
    intros k e He. by rewrite lookup_nil in He. }
  apply bind_Ok in H0 as (lastIndex & s1 & E & H0).
  apply readLog_Ok in E as [-> HL]. rewrite (LastIndex_spec _ Hc) in HL.
  inversion HL; subst lastIndex; clear HL.
  destruct (Hes 0%nat entry eq_refl) as [Hi0 Hv0].
  destruct (Z.ltb_spec (Log.lastIndex (log r)) (Log.Index entry)) as [Hlt|Hge].
  { inversion H0; subst. exists (log r'). rewrite set_log_same.
    split; [done|]. split; [done|]. split; [done|].
    intros k e He. apply Hes in He as [-> ?]. lia. }
  apply bind_Ok in H0 as (existing & s1 & E & H0).
  apply attempt_Ok in E. destruct existing as [existing|err].
  2:{ done. }
  apply readLog_Ok in E as [-> HG].
  assert (Hv : U64.valid (Log.Index entry)) by (unfold U64.valid; lia).
  destruct (GetEntry_Ok _ _ _ Hc Hv HG) as (Hrange & Hie & _).
  destruct (Log.IsConflict existing entry) eqn:Hcf; cbn [negb] in H0.
  - apply bind_Ok in H0 as (? & s1 & E & H0). apply orFatal_Ok in E.
    apply onLog_Ok in E as (l' & w1 & -> & HT). inversion H0; subst; clear H0.
    apply Truncate_Ok in HT as (_ & Het & _); [|done|done].
    assert (Hk : (0 < Z.to_nat (Log.Index entry - Log.firstIndex (log r))
                  <= length (Log.entries (log r)))%nat).
    { unfold Log.lastIndex, Log.len in Hrange. lia. }
    destruct (contiguous_take _ l' _ Hc Hk Het) as (Hc' & Hf' & Hl').
    exists l'. split; [done|]. split; [done|].
    assert (Hnew : Log.lastIndex l' = Log.Index entry - 1) by lia.
    split.
    + cbn. destruct (Z.le_gt_cases (Log.Index entry) (commitIndex r)) as [Hle|];
        [|lia].
      exfalso. unfold Log.IsConflict in Hcf.
      apply andb_prop in Hcf as [_ Hcf].
      rewrite (Hag entry existing) in Hcf; try done.
      * by rewrite Z.eqb_refl in Hcf.
      * apply list_elem_of_here.
    + intros k e He. apply Hes in He as [-> ?]. lia.
  - apply (IH (base + 1)) in H0 as (l' & -> & Hc' & Hci' & Hta); try done.
    + exists l'. done.
    + lia.
    + intros k e He. destruct (Hes (S k) e He) as [-> ?]. lia.
    + intros e ex Hin. apply Hag. by apply list_elem_of_further.
Qed.

(** [AppendEntries] on a node whose log is well formed and reaches the
    commit index, for a request that is consecutive and agrees with what
    is committed: the log stays well formed, [lastApplied] stays, and the
    commit index grows within the log. *)
Lemma AppendEntries_Ok request now r w response r' w' :
  Log.contiguous (log r) -> commitIndex r <= Log.lastIndex (log r) ->
  consecutive request -> agreesWithCommitted r request ->
  AppendEntries request now (r, w) = (Ok response, (r', w')) ->
  Log.contiguous (log r') /\ lastApplied r' = lastApplied r /\
  commitIndex r <= commitIndex r' <= Log.lastIndex (log r').
Proof.
  intros Hc Hci [Hprev Hcons] Hag. unfold AppendEntries. intros H0.
  bind_inv H0. apply self_Ok in E as [-> ->].
  destruct (decide (state r = Shutdown)); [done|].
  destruct (_ <? _).
  { inversion H0; subst. split; [done|]. split; [done|]. lia. }
  apply bind_Ok in H0 as (? & ? & E & H0). apply update_Ok in E as ->.
  apply bind_Ok in H0 as (? & ? & E & H0). apply update_Ok in E as ->.
  apply bind_Ok in H0 as (? & [r1 w1] & E & H0).
  assert (Hr1 : log r1 = log r /\ commitIndex r1 = commitIndex r /\
                lastApplied r1 = lastApplied r).
  { destruct (_ <? _).
    - apply becomeFollower_shape in E as (p' & ->). done.
    - inversion E; subst. done. }
  clear E. destruct Hr1 as (Hlog & Hcommit & Happlied).
  assert (Hkeep : Log.contiguous (log r1) /\ lastApplied r1 = lastApplied r /\
                  commitIndex r <= commitIndex r1 <= Log.lastIndex (log r1)).
  { rewrite Hlog, Hcommit. split; [done|]. split; [done|]. lia. }
  bind_inv H0. apply self_Ok in E as [-> ->].
  destruct (_ <? _); [by inversion H0; subst|].
  apply bind_Ok in H0 as (nextIdx & ? & E & H0).
  apply readLog_Ok in E as [-> HN].
  rewrite Hlog, (NextIndex_spec _ Hc) in HN. inversion HN; subst nextIdx; clear HN.
  destruct (Z.leb_spec (U64.add (Log.lastIndex (log r)) 1)
              (AppendEntriesRequest.PrevLogIndex request)) as [|Hnext];
    [by inversion H0; subst|].
  destruct (_ && _); [by inversion H0; subst|].
  apply bind_Ok in H0 as (conflict & s2 & E & H0).
  assert (Hs2 : s2 = (r1, w1)).
  { destruct (_ <? _); [|by inversion E].
    apply bind_Ok in E as (prevLogEntry & s3 & E1 & E).
    apply orFatal_Ok, readLog_Ok in E1 as [-> _].
    destruct (negb _); [|by inversion E].
    apply bind_Ok in E as (index & s3 & E1 & E).
    apply firstOfTerm_Ok in E1 as ->. by inversion E. }
  subst s2. clear E.
  destruct conflict as [index|]; [by inversion H0; subst|].
  pose proof (contiguous_bounds _ Hc) as (Hb0 & Hb1 & Hb2).
  assert (Hmax : AppendEntriesRequest.PrevLogIndex request
                 <= Log.lastIndex (log r)).
  { destruct Hprev as [Hp0 Hp1].
    destruct (Z.eq_dec (Log.lastIndex (log r)) (U64.modulus - 1)) as [Heq|Hne].
    - rewrite Heq in Hnext.
      replace (U64.add (U64.modulus - 1) 1) with 0 in Hnext by reflexivity.
      lia.
    - rewrite U64_add_small in Hnext by lia. lia. }
  apply bind_Ok in H0 as (toAppend & [r2 w2] & E & H0).
  apply (reconcile_Ok _ (AppendEntriesRequest.PrevLogIndex request + 1))
    in E as (l2 & -> & Hc2 & Hci2 & Hta).
  2:{ by rewrite Hlog. }
  2:{ rewrite Hlog. destruct Hprev. lia. }
  2:{ rewrite Hlog, Hcommit. done. }
  2:{ intros k e He. apply Hcons in He as [-> ?]. lia. }
  2:{ intros e ex Hin. rewrite Hlog, Hcommit. by apply Hag. }
  apply bind_Ok in H0 as (? & s3 & E & H0). apply orFatal_Ok in E.
  apply onLog_Ok in E as (l3 & w3 & -> & HA). cbn [log set_log] in HA.
  apply Log_AppendEntries_Ok in HA as (es' & He3 & HF & _).
  destruct (contiguous_app l2 l3 es' Hc2 He3) as (Hc3 & _ & Hl3).
  { intros k e' He'.
    destruct (Forall2_lookup_r _ _ _ _ _ HF He') as (e & He & Hs).
    apply Hta in He. destruct Hs as (-> & _). done. }
  assert (Hlen : 0 <= Log.len es') by (unfold Log.len; lia).
  bind_inv H0. apply self_Ok in E as [-> ->].
  apply bind_Ok in H0 as (? & s4 & E & H0). inversion H0; subst; clear H0.
  cbn [commitIndex set_log] in E.
  destruct (Z.ltb_spec (commitIndex r1)
              (AppendEntriesRequest.LeaderCommit request)) as [Hlc|_].
  - apply bind_Ok in E as (lastIndex & s5 & E1 & E).
    apply readLog_Ok in E1 as [-> HL]. cbn [log set_log] in HL.
    rewrite (LastIndex_spec _ Hc3) in HL. inversion HL; subst lastIndex.
    apply update_Ok in E. inversion E; subst. cbn.
    cbn in Hci2. split; [done|]. split; [done|]. lia.
  - inversion E; subst. cbn. cbn in Hci2. split; [done|]. split; [done|]. lia.
Qed.

Lemma attempt_readLog_Ok {A} (q : Log.persistentLog -> outcome A) r w x s' :
  attempt (readLog q) (r, w) = (Ok x, s') ->
  s' = (r, w) /\
  match x with
  | inl a => q (log r) = Ok a
  | inr e => q (log r) = Err e
  end.
Proof.
  intros E. apply attempt_Ok in E. unfold readLog in E. cbn [fst] in E.
  destruct x; inversion E; subst; done.
Qed.

(** [InstallSnapshot] either leaves the log and the indices as they were,
    or installs a snapshot above the commit index: both indices become
    its index, and the log starts there. *)
Lemma InstallSnapshot_Ok request now restored r w response r' w' :
  Log.contiguous (log r) ->
  U64.valid (InstallSnapshotRequest.LastIncludedIndex request) ->
  InstallSnapshot request now restored (r, w) = (Ok response, (r', w')) ->
  (log r' = log r /\ commitIndex r' = commitIndex r /\
   lastApplied r' = lastApplied r) \/
  (Log.contiguous (log r') /\
   commitIndex r < InstallSnapshotRequest.LastIncludedIndex request /\
   commitIndex r' = InstallSnapshotRequest.LastIncludedIndex request /\
   lastApplied r' = InstallSnapshotRequest.LastIncludedIndex request /\
   InstallSnapshotRequest.LastIncludedIndex request <= Log.lastIndex (log r')).
Proof.
  intros Hc Hv. unfold InstallSnapshot. intros H0.
  bind_inv H0. apply self_Ok in E as [-> ->].
  destruct (decide (state r = Shutdown)); [done|].
  destruct (InstallSnapshotRequest.Term request <? currentTerm r).
  { inversion H0; subst. by left. }
  cbn zeta in H0.
  apply bind_Ok in H0 as (? & [r1 w1] & E & H0).
  assert (Hr1 : log r1 = log r /\ commitIndex r1 = commitIndex r /\
                lastApplied r1 = lastApplied r).
  { destruct (currentTerm r <? InstallSnapshotRequest.Term request).
    - apply becomeFollower_shape in E as (p' & ->). done.
    - inversion E; subst. done. }
  clear E. destruct Hr1 as (Hlog & Hcommit & Happlied).
  apply bind_Ok in H0 as (? & ? & E & H0). apply update_Ok in E as ->.
  bind_inv H0. apply self_Ok in E as [-> ->].
  cbn [lastIncludedIndex commitIndex set_lastContact] in H0.
  destruct (Z.leb_spec (InstallSnapshotRequest.LastIncludedIndex request)
              (lastIncludedIndex r1)) as [|Hli]; cbn [orb] in H0.
  { inversion H0; subst. by left. }
  destruct (Z.leb_spec (InstallSnapshotRequest.LastIncludedIndex request)
              (commitIndex r1)) as [|Hgt].
  { inversion H0; subst. by left. }
  right.
  apply bind_Ok in H0 as (contains & ? & E & H0).
  apply readLog_Ok in E as [-> _].
  apply bind_Ok in H0 as (entry & s2 & E & H0).
  assert (Hentry : s2 = (set_lastContact now r1, w1) /\
            forall e, entry = Some e ->
              Log.GetEntry (log r)
                (InstallSnapshotRequest.LastIncludedIndex request) = Ok e).
  { destruct contains.
    - apply bind_Ok in E as (found & s3 & E1 & E).
      apply attempt_readLog_Ok in E1 as [-> Hx]. cbn [log set_lastContact] in Hx.
      inversion E; subst. split; [done|]. intros e He.
      destruct found; [|done]. inversion He; subst. by rewrite <- Hlog.
    - inversion E; subst. done. }
  clear E. destruct Hentry as [-> Hentry].
  apply bind_Ok in H0 as (? & s3 & E & H0). apply orFatal_Ok in E.
  apply onSnapshotStorage_Ok in E as (p' & w2 & -> & _).
  do 4 (apply bind_Ok in H0 as (? & ? & E & H0); apply update_Ok in E as ->).
  apply bind_Ok in H0 as (? & s4 & E & H0).
  destruct restored; [|done]. inversion E; subst s4; clear E.
  match type of H0 with (if negb ?k then _ else _) _ = _ =>
    destruct k eqn:Hkeep end; cbn [negb] in H0.
  - (* the entry at the index has the term of the snapshot: compact *)
    destruct entry as [e|]; [|done]. specialize (Hentry e eq_refl).
    apply bind_Ok in H0 as (? & s5 & E & H0). apply orFatal_Ok in E.
    apply onLog_Ok in E as (l' & w3 & -> & HC). inversion H0; subst; clear H0.
    cbn in HC. rewrite Hlog in HC.
    apply Compact_Ok in HC as (Hrange & HF & _); [|done|done].
    destruct (contiguous_suffix (log r) l'
                (Z.to_nat (InstallSnapshotRequest.LastIncludedIndex request
                           - Log.firstIndex (log r))) Hc) as (Hc' & _ & Hl');
      [|exact HF|].
    { unfold Log.lastIndex, Log.len in Hrange. lia. }
    cbn. split; [done|]. split; [lia|]. split; [done|]. split; [done|]. lia.
  - apply bind_Ok in H0 as (? & s5 & E & H0). apply orFatal_Ok in E.
    apply onLog_Ok in E as (l' & w3 & -> & HD). inversion H0; subst; clear H0.
    apply DiscardEntries_Ok in HD as (He' & _).
    destruct (contiguous_singleton l' _ He') as (Hc' & _ & Hl'); [done|].
    cbn. cbn in Hl'. split; [done|]. split; [lia|]. split; [done|].
    split; [done|]. lia.
Qed.

Lemma deliver_Ok ch resp r w u r' w' :
  deliver ch resp (r, w) = (Ok u, (r', w')) ->
  log r' = log r /\ commitIndex r' = commitIndex r /\
  lastApplied r' = lastApplied r.
Proof.
  unfold deliver. destruct ch as [c|]; intros E.
  - apply update_Ok in E. inversion E; subst. done.
  - inversion E; subst. done.
Qed.

Lemma takeSnapshot_Ok bytes r w u r' w' :
  Log.contiguous (log r) -> U64.valid (lastApplied r) ->
  takeSnapshot bytes (r, w) = (Ok u, (r', w')) ->
  Log.contiguous (log r') /\
  Log.lastIndex (log r') = Log.lastIndex (log r) /\
  commitIndex r' = commitIndex r /\ lastApplied r' = lastApplied r.
Proof.
  intros Hc Hv. unfold takeSnapshot. intros H0.
  bind_inv H0. apply self_Ok in E as [-> ->].
  destruct (lastApplied r <=? lastIncludedIndex r).
  { inversion H0; subst. done. }
  destruct bytes as [bytes|]; [|done].
  apply bind_Ok in H0 as (e & s1 & E & H0).
  apply orFatal_Ok, readLog_Ok in E as [-> HG].
  destruct (GetEntry_Ok _ _ _ Hc Hv HG) as (Hrange & Hi & _).
  do 2 (apply bind_Ok in H0 as (? & ? & E & H0); apply update_Ok in E as ->).
  apply bind_Ok in H0 as (? & s2 & E & H0). apply orFatal_Ok in E.
  apply onSnapshotStorage_Ok in E as (p' & w2 & -> & _).
  apply orFatal_Ok in H0. apply onLog_Ok in H0 as (l' & w3 & E & HC).
  inversion E; subst r' w'; clear E. cbn in HC. rewrite Hi in HC.
  apply Compact_Ok in HC as (_ & HF & _); [|done|done].
  destruct (contiguous_suffix (log r) l'
              (Z.to_nat (lastApplied r - Log.firstIndex (log r))) Hc)
    as (Hc' & _ & Hl'); [|exact HF|].
  { unfold Log.lastIndex, Log.len in Hrange. lia. }
  cbn. done.
Qed.

Lemma applyLoop_begin_Ok r w pending r' w' :
  Log.contiguous (log r) -> 0 <= lastApplied r ->
  commitIndex r <= Log.lastIndex (log r) ->
  applyLoop_begin (r, w) = (Ok pending, (r', w')) ->
  log r' = log r /\ commitIndex r' = commitIndex r /\
  match pending with
  | None => lastApplied r <= lastApplied r' /\
            (lastApplied r <= commitIndex r -> lastApplied r' <= commitIndex r)
  | Some a => lastApplied r' = lastApplied r /\
              applying_lastApplied a = lastApplied r /\
              lastApplied r < commitIndex r
  end.
Proof.
  intros Hc H0a Hci. unfold applyLoop_begin. intros H0.
  pose proof (contiguous_bounds _ Hc) as (_ & _ & Hb).
  bind_inv H0. apply self_Ok in E as [-> ->].
  destruct (Z.ltb_spec (lastApplied r) (commitIndex r)) as [Hlt|Hge];
    cbn [negb] in H0.
  2:{ inversion H0; subst. split; [done|]. split; [done|]. lia. }
  apply bind_Ok in H0 as (entry & s1 & E & H0).
  apply orFatal_Ok, readLog_Ok in E as [-> _].
  destruct (bool_decide _).
  - apply bind_Ok in H0 as (? & ? & E & H0). apply update_Ok in E as ->.
    inversion H0; subst. cbn. rewrite U64_add_small by lia.
    split; [done|]. split; [done|]. lia.
  - apply bind_Ok in H0 as (? & ? & E & H0). apply update_Ok in E as ->.
    inversion H0; subst. cbn. done.
Qed.

Lemma applyLoop_end_Ok a response needSnapshot bytes r w u r' w' :
  Log.contiguous (log r) -> 0 <= lastApplied r ->
  commitIndex r <= Log.lastIndex (log r) ->
  (lastApplied r = applying_lastApplied a -> lastApplied r < commitIndex r) ->
  applyLoop_end a response needSnapshot bytes (r, w) = (Ok u, (r', w')) ->
  Log.contiguous (log r') /\
  Log.lastIndex (log r') = Log.lastIndex (log r) /\
  commitIndex r' = commitIndex r /\
  lastApplied r <= lastApplied r' /\
  (lastApplied r <= commitIndex r -> lastApplied r' <= commitIndex r).
Proof.
  intros Hc H0a Hci Hpend. unfold applyLoop_end. intros H0.
  pose proof (contiguous_bounds _ Hc) as (_ & _ & Hb).
  apply bind_Ok in H0 as (? & [r1 w1] & E & H0).
  apply deliver_Ok in E as (Hlog & Hcommit & Happlied).
  bind_inv H0. apply self_Ok in E as [-> ->].
  destruct (Z.eqb_spec (lastApplied r1) (applying_lastApplied a)) as [Heq|_];
    cbn [negb] in H0.
  2:{ inversion H0; subst. rewrite Hlog, Hcommit, Happlied.
      split; [done|]. split; [done|]. split; [done|]. lia. }
  rewrite Happlied in Heq. specialize (Hpend Heq).
  apply bind_Ok in H0 as (? & ? & E & H0). apply update_Ok in E as ->.
  rewrite Happlied, U64_add_small in H0 by lia.
  destruct needSnapshot.
  - apply takeSnapshot_Ok in H0 as (Hc' & Hl' & Hcm' & Hla').
    + cbn in Hl', Hcm', Hla'. rewrite Hlog in Hl'.
      rewrite Hl', Hcm', Hla', Hcommit. split; [done|]. split; [done|].
      split; [done|]. lia.
    + cbn. by rewrite Hlog.
    + cbn. unfold U64.valid. lia.
  - inversion H0; subst. cbn. rewrite Hlog, Hcommit.
    split; [done|]. split; [done|]. split; [done|]. lia.
Qed.

Lemma SubmitOperation_Ok operation operationType ch r w u r' w' :
  Log.contiguous (log r) ->
  (operationType = Replicated -> Log.lastIndex (log r) < U64.max) ->
  SubmitOperation operation operationType ch (r, w) = (Ok u, (r', w')) ->
  Log.contiguous (log r') /\
  Log.lastIndex (log r) <= Log.lastIndex (log r') /\
  commitIndex r' = commitIndex r /\ lastApplied r' = lastApplied r.
Proof.
  intros Hc Hmax. unfold SubmitOperation.
  pose proof (contiguous_bounds _ Hc) as (Hb0 & Hb1 & _).
  destruct operationType; intros H0.
  - (* Replicated *)
    specialize (Hmax eq_refl). unfold U64.max in Hmax.
    unfold submitReplicatedOperation in H0.
    bind_inv H0. apply self_Ok in E as [-> ->].
    destruct (bool_decide _); cbn [negb] in H0.
    2:{ apply deliver_Ok in H0 as (-> & -> & ->). split; [done|]. lia. }
    apply bind_Ok in H0 as (nextIdx & ? & E & H0).
    apply readLog_Ok in E as [-> HN]. rewrite (NextIndex_spec _ Hc) in HN.
    inversion HN; subst nextIdx; clear HN.
    rewrite U64_add_small in H0 by lia.
    apply bind_Ok in H0 as (? & s1 & E & H0). apply orFatal_Ok in E.
    apply onLog_Ok in E as (l' & w1 & -> & HA).
    apply update_Ok in H0. inversion H0; subst; clear H0.
    unfold Log.AppendEntry in HA.
    apply Log_AppendEntries_Ok in HA as (es' & He' & HF & _).
    destruct (contiguous_app (log r) l' es' Hc He') as (Hc' & _ & Hl').
    { intros k e' Hk.
      destruct (Forall2_lookup_r _ _ _ _ _ HF Hk) as (e & He & Hs).
      destruct k; cbn in He; [|done]. inversion He; subst e.
      destruct Hs as (-> & _). cbn. lia. }
    cbn. split; [done|]. unfold Log.len in Hl'. split; [lia|done].
  - (* LeaseBasedReadOnly *)
    unfold submitReadOnlyOperation in H0.
    bind_inv H0. apply self_Ok in E as [-> ->].
    destruct (bool_decide _); cbn [negb] in H0.
    2:{ apply deliver_Ok in H0 as (-> & -> & ->). split; [done|]. lia. }
    apply bind_Ok in H0 as (? & ? & E & H0). apply update_Ok in E as ->.
    bind_inv H0. apply self_Ok in E as [-> ->].
    destruct (_ && _).
    + apply update_Ok in H0. inversion H0; subst. cbn. split; [done|]. lia.
    + inversion H0; subst. cbn. split; [done|]. lia.
  - (* LinearizableReadOnly *)
    unfold submitReadOnlyOperation in H0.
    bind_inv H0. apply self_Ok in E as [-> ->].
    destruct (bool_decide _); cbn [negb] in H0.
    2:{ apply deliver_Ok in H0 as (-> & -> & ->). split; [done|]. lia. }
    apply bind_Ok in H0 as (? & ? & E & H0). apply update_Ok in E as ->.
    bind_inv H0. apply self_Ok in E as [-> ->].
    destruct (_ && _).
    + apply update_Ok in H0. inversion H0; subst. cbn. split; [done|]. lia.
    + inversion H0; subst. cbn. split; [done|]. lia.
  - apply deliver_Ok in H0 as (-> & -> & ->). split; [done|]. lia.
Qed.

(** *** The steps keep the system consistent *)

Lemma consistent_ordered s : consistent s -> ordered (node s).
Proof.
  intros (Hc & _ & Hla & Hci & _). exists (Log.lastIndex (log (node s))).
  split; [by apply LastIndex_spec|done].
Qed.

Lemma step_consistent ev s s' :
  consistent s -> admissible ev s -> step ev s = Some s' -> consistent s'.
Proof.
  destruct s as [r w pend]. unfold consistent, step. cbn [node world applying].
  intros (Hc & H0a & Hla & Hci & Hpend) Hadm.
  destruct ev as [request now|request now restored| | |response needSnapshot
                  bytes|operation operationType ch].
  - destruct Hadm as [Hcons Hag].
    destruct (AppendEntries request now (r, w)) as [[resp|e| |] [r' w']] eqn:E;
      cbn [after]; intros Hs; inversion Hs; subst s'; clear Hs;
      cbn [node world applying].
    + apply AppendEntries_Ok in E as (Hc' & Hla' & Hci'); try done.
      rewrite Hla'. split; [done|]. split; [done|]. split; [lia|].
      split; [lia|]. destruct pend as [a|]; [|done].
      destruct Hpend as [Hle Himp]. split; [done|]. intros Heq.
      specialize (Himp Heq). lia.
    + apply AppendEntries_Err in E. inversion E; subst. done.
  - cbn in Hadm.
    destruct (InstallSnapshot request now restored (r, w))
      as [[resp|e| |] [r' w']] eqn:E;
      cbn [after]; intros Hs; inversion Hs; subst s'; clear Hs;
      cbn [node world applying].
    + apply InstallSnapshot_Ok in E
        as [(Hlog & Hcm & Hap)|(Hc' & Hgt & Hcm & Hap & Hli)]; try done.
      * rewrite Hlog, Hcm, Hap. done.
      * rewrite Hcm, Hap. split; [done|]. split; [lia|]. split; [lia|].
        split; [done|]. destruct pend as [a|]; [|done].
        destruct Hpend as [Hle Himp]. split; [lia|]. intros Heq. lia.
    + apply InstallSnapshot_Err in E. inversion E; subst. done.
  - destruct (commitLoop_iteration (r, w)) as [[u|e| |] [r' w']] eqn:E;
      cbn [after]; intros Hs; inversion Hs; subst s'; clear Hs;
      cbn [node world applying].
    + apply commitLoop_iteration_Ok in E
        as (_ & [->|(i & -> & Hi & _)]); try done.
      * cbn. split; [done|]. split; [done|]. split; [lia|]. split; [lia|].
        destruct pend as [a|]; [|done].
        destruct Hpend as [Hle Himp]. split; [done|]. intros Heq.
        specialize (Himp Heq). lia.
      * pose proof (contiguous_bounds _ Hc). unfold U64.valid. lia.
    + by apply noErr_commitLoop_iteration in E.
  - destruct pend as [a|]; [done|].
    destruct (applyLoop_begin (r, w)) as [[pending|e| |] [r' w']] eqn:E;
      cbn [after]; intros Hs; inversion Hs; subst s'; clear Hs;
      cbn [node world applying].
    + apply applyLoop_begin_Ok in E as (Hlog & Hcm & Hp); try done.
      rewrite Hlog, Hcm. destruct pending as [a|].
      * destruct Hp as (Hap & Ha & Hlt). rewrite Hap, Ha.
        split; [done|]. split; [done|]. split; [done|]. split; [done|].
        split; [lia|]. done.
      * destruct Hp as (Hge & Hle). split; [done|]. split; [lia|].
        split; [by apply Hle|]. done.
    + by apply noErr_applyLoop_begin in E.
  - destruct pend as [a|]; [|done]. destruct Hpend as [Hle Himp].
    destruct (applyLoop_end a response needSnapshot bytes (r, w))
      as [[u|e| |] [r' w']] eqn:E;
      cbn [after]; intros Hs; inversion Hs; subst s'; clear Hs;
      cbn [node world applying].
    + apply applyLoop_end_Ok in E as (Hc' & Hl' & Hcm & Hge & Hle'); try done.
      rewrite Hl', Hcm. split; [done|]. split; [lia|].
      split; [by apply Hle'|]. done.
    + by apply noErr_applyLoop_end in E.
  - destruct (SubmitOperation operation operationType ch (r, w))
      as [[u|e| |] [r' w']] eqn:E;
      cbn [after]; intros Hs; inversion Hs; subst s'; clear Hs;
      cbn [node world applying].
    + apply SubmitOperation_Ok in E as (Hc' & Hl' & Hcm & Hap); try done.
      * rewrite Hcm, Hap. split; [done|]. split; [done|]. split; [done|].
        split; [lia|]. done.
      * intros ->. exact Hadm.
    + by apply noErr_SubmitOperation in E.
Qed.

(** C3, amended.  From a consistent system (a well-formed log, ordered
    indices), every sequence of steps of the two handlers, the two loops
    and the submission of operations, each admissible where it happens,
    ends in a system whose indices are ordered:
    [lastApplied <= commitIndex <= log.LastIndex()].  A step is admissible
    when it is an [AppendEntries] request with consecutive entries that
    does not conflict with an entry at or below the commit index, a
    submission to a log whose last index is below the largest [uint64],
    or any other step. *)
Theorem admissible_steps_keep_indices_ordered s evs s' :
  consistent s -> reaches s evs s' -> ordered (node s') /\ consistent s'.
Proof.
  intros Hs Hr. induction Hr as [s|s ev s1 evs s' Hadm Hstep _ IH].
  - split; [by apply consistent_ordered|done].
  - apply IH. by eapply step_consistent.
Qed.

End NodeFacts.

Lemma newcomer_consistent : Node.consistent NodeDemo.start.
Proof.
  destruct (contiguous_singleton (Raft.log Demo.newcomer) _ eq_refl)
    as (Hc & _ & _); [vm_compute; split; [discriminate|reflexivity]|].
  split; [exact Hc|]. vm_compute. repeat split; discriminate.
Qed.

Lemma first_request_admissible :
  Node.admissible (Node.OnAppendEntries Demo.first_request 1) NodeDemo.start.
Proof.
  split.
  - split; [vm_compute; split; [discriminate|reflexivity]|].
    intros [|[|[|k]]] e He; cbn in He; inversion He; subst;
      vm_compute; split; reflexivity.
  - intros e existing Hin Hle. exfalso.
    repeat (inversion Hin as [|? ? ? Hin']; subst; clear Hin;
            [vm_compute in Hle; by apply Hle|rename Hin' into Hin]).
    inversion Hin.
Qed.

Lemma admissible_steps_witness :
  Node.ordered (Node.node (NodeDemo.after_events 6)) /\
  Node.consistent (NodeDemo.after_events 6).
Proof.
  refine (admissible_steps_keep_indices_ordered NodeDemo.start
            NodeDemo.events (NodeDemo.after_events 6) newcomer_consistent _).
  apply (Node.reaches_cons _ _ (NodeDemo.after_events 1));
    [exact first_request_admissible|vm_compute; reflexivity|].
  apply (Node.reaches_cons _ _ (NodeDemo.after_events 2));
    [exact I|vm_compute; reflexivity|].
  apply (Node.reaches_cons _ _ (NodeDemo.after_events 3));
    [vm_compute; split; [discriminate|reflexivity]|vm_compute; reflexivity|].
  apply (Node.reaches_cons _ _ (NodeDemo.after_events 4));
    [exact I|vm_compute; reflexivity|].
  apply (Node.reaches_cons _ _ (NodeDemo.after_events 5));
    [vm_compute; reflexivity|vm_compute; reflexivity|].
  apply (Node.reaches_cons _ _ (NodeDemo.after_events 6));
    [exact I|vm_compute; reflexivity|].
  apply Node.reaches_nil.
Defined.

(** At the end of these events the snapshot has replaced the log: both
    indices are 5, the index the log ends at. *)
Lemma admissible_steps_demo :
  Node.steps NodeDemo.events NodeDemo.start = Some (NodeDemo.after_events 6) /\
  Raft.lastApplied (Node.node (NodeDemo.after_events 6)) = 5 /\
  Raft.commitIndex (Node.node (NodeDemo.after_events 6)) = 5 /\
  Log.LastIndex (Raft.log (Node.node (NodeDemo.after_events 6))) = Ok 5.
Proof.
  split; [vm_compute; reflexivity|]. split; [vm_compute; reflexivity|].
  split; vm_compute; reflexivity.
Qed.

(** C3, as stated, fails.  The newcomer commits the three entries of
    term 1 it received from [n2]; a request of [n3] for term 2 then brings
    an entry of term 2 at index 1.  The handler truncates the log at
    index 1 and appends the entry: the log ends at index 1, below the
    commit index 3. *)
Lemma appendEntries_below_commit_counterexample :
  Node.steps NodeDemo.conflict NodeDemo.start = Some NodeDemo.after_conflict /\
  Log.LastIndex (Raft.log (Node.node NodeDemo.after_conflict)) = Ok 1 /\
  Raft.commitIndex (Node.node NodeDemo.after_conflict) = 3 /\
  ~ Node.ordered (Node.node NodeDemo.after_conflict).
Proof.
  split; [vm_compute; reflexivity|].
  split; [vm_compute; reflexivity|]. split; [vm_compute; reflexivity|].
  intros (lastIndex & HL & _ & Hle). vm_compute in HL.
  inversion HL; subst lastIndex. vm_compute in Hle. by apply Hle.
Qed.

(** The second request is the one that is not admissible: its entry is
    in conflict with the committed entry at index 1. *)
Lemma conflicting_request_not_admissible :
  ~ Node.admissible (Node.OnAppendEntries Demo.conflicting_request 2)
      (NodeDemo.after_events 1).
Proof.
  intros [_ Hag].
  specialize (Hag (Log.mkEntry 1 2 0 [x64] Log.OperationEntry)
                  (Log.mkEntry 1 1 0 [x61] Log.OperationEntry)).
  cbn in Hag. discriminate Hag.
  - apply list_elem_of_here.
  - vm_compute. discriminate.
  - vm_compute. reflexivity.
Qed.

(** Why a submission needs room above the last index: on a leader whose
    log ends at the largest [uint64], [NextIndex] wraps to 0, the new
    entry gets the index 0 and the log then ends below the commit
    index. *)
Lemma submit_at_largest_index_demo :
  let s' := default NodeDemo.start
              (Node.step (Node.Submit [x65] Raft.Replicated 4%nat)
                 (Node.mkSystem Demo.leader_at_largest_index Demo.disk None)) in
  Log.LastIndex (Raft.log (Node.node s')) = Ok 0 /\
  Raft.commitIndex (Node.node s') = U64.max.
Proof. split; vm_compute; reflexivity. Qed.
(** ** Further properties of the log *)

Section LogProperties.
Import Log.
Context `{ProtoCodec LogEntry}.

(** [Truncate(index)] on a well-formed open log.  When it returns without
    error, [index] was above the first index and at most the last, and
    the log is the prefix of the entries before [index]: well formed, with
    the same first index, ending at [index - 1].  For any other index it
    returns [errIndexDoesNotExist] and touches neither the log nor the
    disk. *)
Theorem truncate_keeps_prefix l w index :
  contiguous l -> is_Some (file l) -> U64.valid index ->
  (forall u l' w',
     Truncate index (l, w) = (Ok u, (l', w')) ->
     firstIndex l < index <= lastIndex l /\
     entries l' = take (Z.to_nat (index - firstIndex l)) (entries l) /\
     contiguous l' /\ firstIndex l' = firstIndex l /\
     lastIndex l' = index - 1 /\ file l' = file l) /\
  (~ firstIndex l < index <= lastIndex l ->
   Truncate index (l, w) = (Err errIndexDoesNotExist, (l, w))).
Proof.
  intros Hc [f Hf] Hv. split.
  - intros u l' w' HT.
    apply Truncate_Ok in HT as (Hrange & He & Hfile); [|done|done].
    assert (Hk : (0 < Z.to_nat (index - firstIndex l)
                  <= length (entries l))%nat).
    { unfold lastIndex, len in Hrange. lia. }
    destruct (contiguous_take l l' _ Hc Hk He) as (Hc' & Hf' & Hl').
    split; [done|]. split; [done|]. split; [done|]. split; [done|].
    split; [lia|done].
  - intros Hout. unfold Truncate, bind at 1, self, gets. cbn [fst].
    rewrite Hf. destruct (contiguous_first l Hc) as (e0 & E0 & Hi0).
    unfold bind, liftO. rewrite E0, Hi0, (position_check l index Hc Hv).
    by rewrite bool_decide_eq_false_2.
Qed.

(** [AppendEntries(entries)].  On a log that is not open it returns
    [errLogNotOpen] and changes nothing.  When it returns without error
    the log holds its old entries followed by the new ones, each with its
    index, term, data and type (the offset is the one it was written at);
    and if the new entries are numbered from the index after the last,
    the log stays well formed and ends [len(entries)] further. *)
Theorem appendEntries_extends_log es l w :
  (file l = None ->
   AppendEntries es (l, w) = (Err errLogNotOpen, (l, w))) /\
  (forall u l' w',
     AppendEntries es (l, w) = (Ok u, (l', w')) ->
     exists es',
       entries l' = entries l ++ es' /\ Forall2 same_content es es' /\
       file l' = file l /\
       (contiguous l ->
        (forall (k : nat) e, es !! k = Some e ->
           Index e = lastIndex l + 1 + Z.of_nat k /\ Index e < U64.modulus) ->
        contiguous l' /\ firstIndex l' = firstIndex l /\
        lastIndex l' = lastIndex l + len es /\
        LastIndex l' = Ok (lastIndex l + len es))).
Proof.
  split.
  - intros Hf. unfold AppendEntries, bind, self, gets. cbn [fst].
    by rewrite Hf.
  - intros u l' w' HA.
    apply Log_AppendEntries_Ok in HA as (es' & He & HF & Hfile).
    exists es'. split; [done|]. split; [done|]. split; [done|].
    intros Hc Hes.
    destruct (contiguous_app l l' es' Hc He) as (Hc' & Hf' & Hl').
    { intros k e' He'.
      destruct (Forall2_lookup_r _ _ _ _ _ HF He') as (e & Hk & Hs).
      apply Hes in Hk. destruct Hs as (-> & _). done. }
    assert (Hlen : len es' = len es).
    { unfold len. by rewrite (Forall2_length _ _ _ HF). }
    rewrite Hlen in Hl'. split; [done|]. split; [done|]. split; [done|].
    rewrite <- Hl'. by apply LastIndex_spec.
Qed.

(** [DiscardEntries(index, term)].  On a log that is not open it returns
    [errLogNotOpen].  When it returns without error the log is the
    placeholder entry of that index and term alone: the first and the
    last index are [index], the last term is [term], the log contains no
    index, and the file is open again. *)
Theorem discardEntries_leaves_placeholder index term l w :
  U64.valid index ->
  (file l = None ->
   DiscardEntries index term (l, w) = (Err errLogNotOpen, (l, w))) /\
  (forall u l' w',
     DiscardEntries index term (l, w) = (Ok u, (l', w')) ->
     entries l' = [mkEntry index term 0 [] NoOpEntry] /\
     contiguous l' /\ is_Some (file l') /\
     LastIndex l' = Ok index /\ LastTerm l' = Ok term /\
     NextIndex l' = Ok (U64.add index 1) /\
     forall i, U64.valid i -> Contains l' i = Ok false).
Proof.
  intros Hv. split.
  - intros Hf. unfold DiscardEntries, bind, self, gets. cbn [fst].
    by rewrite Hf.
  - intros u l' w' HD. apply DiscardEntries_Ok in HD as (He & Hfile).
    destruct (contiguous_singleton l' _ He) as (Hc & Hf' & Hl'); [done|].
    cbn in Hf', Hl'.
    split; [done|]. split; [done|]. split; [done|].
    split; [by rewrite (LastIndex_spec _ Hc), Hl'|].
    split; [unfold LastTerm; by rewrite He|].
    split; [by rewrite (NextIndex_spec _ Hc), Hl'|].
    intros i Hi. rewrite (Contains_spec _ _ Hc Hi), Hf', Hl'.
    f_equal. apply bool_decide_eq_false_2. lia.
Qed.

(** [GetEntry] and [Contains] inside the log.  On a well-formed open log
    and for an index above the first index and at most the last,
    [GetEntry] returns the entry whose index it is.  At or below the
    first index it returns [errIndexDoesNotExist], as long as the sum of
    the first and the last index fits a [uint64] (the position it
    computes wraps around and is compared with the last index).
    [Contains] is true exactly for the indices above the first and at
    most the last. *)
Theorem getEntry_inside_the_log l index :
  contiguous l -> is_Some (file l) -> U64.valid index ->
  (firstIndex l < index <= lastIndex l ->
   exists e, GetEntry l index = Ok e /\ Index e = index /\
     entries l !! Z.to_nat (index - firstIndex l) = Some e) /\
  (index <= firstIndex l -> lastIndex l + firstIndex l < U64.modulus ->
   GetEntry l index = Err errIndexDoesNotExist) /\
  Contains l index = Ok (bool_decide (firstIndex l < index <= lastIndex l)).
Proof.
  intros Hc [f Hf] Hv. split; [|split].
  - intros Hin. by eapply GetEntry_in_range.
  - intros Hle Hsum. rewrite (GetEntry_unfold l f index Hc Hf). cbn zeta.
    pose proof (contiguous_bounds l Hc) as (Hb0 & Hb1 & Hb2).
    destruct Hv as [Hv0 Hv1].
    destruct (Z.eq_dec index (firstIndex l)) as [->|Hne].
    + replace (U64.sub (firstIndex l) (firstIndex l)) with 0; [done|].
      unfold U64.sub, U64.wrap. by rewrite Z.sub_diag.
    + rewrite U64_sub_borrow by (unfold U64.valid; lia).
      destruct (Z.leb_spec (index - firstIndex l + U64.modulus) 0); [done|].
      destruct (Z.ltb_spec (lastIndex l)
                  (index - firstIndex l + U64.modulus)); [done|lia].
  - by apply Contains_spec.
Qed.

(** [Close] on an open log: when it returns without error the log holds
    no entry and no file, and every later [GetEntry], [AppendEntries],
    [Truncate], [Compact] and [DiscardEntries] returns [errLogNotOpen]
    and leaves the log and the disk as they are. *)
Theorem closed_log_refuses l w u l' w' :
  is_Some (file l) ->
  Close (l, w) = (Ok u, (l', w')) ->
  entries l' = [] /\ file l' = None /\
  (forall i, GetEntry l' i = Err errLogNotOpen) /\
  (forall es x, AppendEntries es (l', x) = (Err errLogNotOpen, (l', x))) /\
  (forall i x, Truncate i (l', x) = (Err errLogNotOpen, (l', x))) /\
  (forall i x, Compact i (l', x) = (Err errLogNotOpen, (l', x))) /\
  (forall i t x, DiscardEntries i t (l', x) = (Err errLogNotOpen, (l', x))).
Proof.
  intros [f Hf]. unfold Close. intros H0.
  bind_inv H0. apply self_Ok in E as [-> ->]. rewrite Hf in H0.
  os_step H0 as w1 E1.
  apply bind_Ok in H0 as (? & ? & E & H0). apply update_Ok in E as ->.
  apply update_Ok in H0. inversion H0; subst; clear H0. cbn.
  split; [done|]. split; [done|]. split; [done|].
  repeat split; intros; reflexivity.
Qed.

End LogProperties.

Lemma truncate_keeps_prefix_witness :
  (forall u l' w',
     Log.Truncate 7 (LogWire.compacted_log, LogWire.compacted_disk)
       = (Ok u, (l', w')) ->
     Log.firstIndex LogWire.compacted_log < 7
       <= Log.lastIndex LogWire.compacted_log /\
     Log.entries l'
       = take (Z.to_nat (7 - Log.firstIndex LogWire.compacted_log))
           (Log.entries LogWire.compacted_log) /\
     Log.contiguous l' /\
     Log.firstIndex l' = Log.firstIndex LogWire.compacted_log /\
     Log.lastIndex l' = 7 - 1 /\
     Log.file l' = Log.file LogWire.compacted_log) /\
  (~ Log.firstIndex LogWire.compacted_log < 7
       <= Log.lastIndex LogWire.compacted_log ->
   Log.Truncate 7 (LogWire.compacted_log, LogWire.compacted_disk)
     = (Err errIndexDoesNotExist,
        (LogWire.compacted_log, LogWire.compacted_disk))).
Proof.
  refine (truncate_keeps_prefix LogWire.compacted_log LogWire.compacted_disk 7
            (proj1 compacted_log_inv) _ _).
  - eexists. reflexivity.
  - vm_compute. split; [discriminate|reflexivity].
Defined.

(** On that log [Truncate(7)] does return: the entries 5 and 6 stay. *)
Lemma truncate_demo :
  Log.Index <$> Log.entries (fst (snd
    (Log.Truncate 7 (LogWire.compacted_log, LogWire.compacted_disk))))
  = [5; 6].
Proof. vm_compute. reflexivity. Qed.

Lemma discardEntries_leaves_placeholder_witness :
  (Log.file LogWire.compacted_log = None ->
   Log.DiscardEntries 9 4 (LogWire.compacted_log, LogWire.compacted_disk)
     = (Err errLogNotOpen, (LogWire.compacted_log, LogWire.compacted_disk))) /\
  (forall u l' w',
     Log.DiscardEntries 9 4 (LogWire.compacted_log, LogWire.compacted_disk)
       = (Ok u, (l', w')) ->
     Log.entries l' = [Log.mkEntry 9 4 0 [] Log.NoOpEntry] /\
     Log.contiguous l' /\ is_Some (Log.file l') /\
     Log.LastIndex l' = Ok 9 /\ Log.LastTerm l' = Ok 4 /\
     Log.NextIndex l' = Ok (U64.add 9 1) /\
     forall i, U64.valid i -> Log.Contains l' i = Ok false).
Proof.
  refine (discardEntries_leaves_placeholder 9 4 LogWire.compacted_log
            LogWire.compacted_disk _).
  vm_compute. split; [discriminate|reflexivity].
Defined.

(** On that log and disk [DiscardEntries(9, 4)] does return. *)
Lemma discardEntries_demo :
  fst (Log.DiscardEntries 9 4 (LogWire.compacted_log, LogWire.compacted_disk))
  = Ok tt.
Proof. vm_compute. reflexivity. Qed.

Lemma getEntry_inside_the_log_witness :
  (Log.firstIndex LogWire.compacted_log < 6
     <= Log.lastIndex LogWire.compacted_log ->
   exists e, Log.GetEntry LogWire.compacted_log 6 = Ok e /\ Log.Index e = 6 /\
     Log.entries LogWire.compacted_log
       !! Z.to_nat (6 - Log.firstIndex LogWire.compacted_log) = Some e) /\
  (6 <= Log.firstIndex LogWire.compacted_log ->
   Log.lastIndex LogWire.compacted_log + Log.firstIndex LogWire.compacted_log
     < U64.modulus ->
   Log.GetEntry LogWire.compacted_log 6 = Err errIndexDoesNotExist) /\
  Log.Contains LogWire.compacted_log 6
    = Ok (bool_decide (Log.firstIndex LogWire.compacted_log < 6
                         <= Log.lastIndex LogWire.compacted_log)).
Proof.
  refine (getEntry_inside_the_log LogWire.compacted_log 6
            (proj1 compacted_log_inv) _ _).
  - eexists. reflexivity.
  - vm_compute. split; [discriminate|reflexivity].
Defined.

(** The three cases on the log compacted at 5: the entry 6 is there, the
    placeholder 5 and the index 2 below it are not. *)
Lemma getEntry_demo :
  (exists e, Log.GetEntry LogWire.compacted_log 6 = Ok e /\ Log.Index e = 6) /\
  Log.GetEntry LogWire.compacted_log 5 = Err errIndexDoesNotExist /\
  Log.GetEntry LogWire.compacted_log 2 = Err errIndexDoesNotExist.
Proof.
  split; [eexists; split; [vm_compute; reflexivity|reflexivity]|].
  split; vm_compute; reflexivity.
Qed.

Lemma closed_log_refuses_witness :
  let l' := fst (snd (Log.Close (LogWire.compacted_log, LogWire.compacted_disk))) in
  Log.entries l' = [] /\ Log.file l' = None /\
  (forall i, Log.GetEntry l' i = Err errLogNotOpen) /\
  (forall es x, Log.AppendEntries es (l', x) = (Err errLogNotOpen, (l', x))) /\
  (forall i x, Log.Truncate i (l', x) = (Err errLogNotOpen, (l', x))) /\
  (forall i x, Log.Compact i (l', x) = (Err errLogNotOpen, (l', x))) /\
  (forall i t x, Log.DiscardEntries i t (l', x) = (Err errLogNotOpen, (l', x))).
Proof.
  intros l'.
  refine (closed_log_refuses LogWire.compacted_log LogWire.compacted_disk tt l'
            (snd (snd (Log.Close (LogWire.compacted_log, LogWire.compacted_disk))))
            _ _).
  - eexists. reflexivity.
  - vm_compute. reflexivity.
Defined.
(** ** Further properties of the snapshot storage and of the framing *)

Section StorageProperties.

(** [SaveSnapshot] that returns without error: the storage was open, the
    snapshot is the last of the list, after the ones that were there, and
    [LastSnapshot] returns it. *)
Theorem saveSnapshot_appends `{ProtoCodec SnapshotStorage.Snapshot}
    snapshot p w u p' w' :
  SnapshotStorage.SaveSnapshot snapshot (p, w) = (Ok u, (p', w')) ->
  is_Some (SnapshotStorage.file p) /\
  SnapshotStorage.file p' = SnapshotStorage.file p /\
  SnapshotStorage.snapshots p' = SnapshotStorage.snapshots p ++ [snapshot] /\
  SnapshotStorage.LastSnapshot p' = Ok (Some snapshot) /\
  SnapshotStorage.ListSnapshots p'
    = Ok (SnapshotStorage.snapshots p ++ [snapshot]).
Proof.
  intros E. pose proof (SaveSnapshot_receiver _ _ _ _ _ _ E) as Hp.
  cbn in Hp. subst p'.
  destruct (SnapshotStorage.file p) as [f|] eqn:Hf.
  2:{ unfold SnapshotStorage.SaveSnapshot, bind, self, gets in E.
      cbn [fst] in E. rewrite Hf in E. discriminate. }
  split; [by eexists|].
  unfold SnapshotStorage.LastSnapshot, SnapshotStorage.ListSnapshots.
  cbn. rewrite Hf. split; [done|]. split; [done|].
  split; [|done]. by rewrite last_snoc.
Qed.

(** [Decode] on a descriptor at the start of a file that begins with a
    record (the length of the payload as a big-endian [int32], then the
    payload): when no system call fails it returns the message the payload
    unmarshals to, leaves the files as they are and the descriptor right
    after the record. *)
Theorem decode_returns_framed_record {A} `{ProtoCodec A}
    f name w buf rest (x : A) :
  fds w !! f = Some (mkFD name 0 false) ->
  files w !! name = Some (frame buf ++ rest) ->
  Unmarshal buf = Some x ->
  Z.of_nat (length buf) < 2 ^ 31 ->
  reliable w ->
  exists w',
    Decode f w = (Ok x, w') /\ files w' = files w /\ reliable w' /\
    fds w' = <[f := mkFD name (4 + length buf)%nat false]> (fds w).
Proof.
  intros Hfd Hfile HU Hlen Hr.
  destruct (Decode f w) as [r w'] eqn:E.
  destruct (Decode_frame _ _ _ _ _ _ _ _ Hfd Hfile HU Hlen E)
    as (Hfiles & Hrel & [[_ Hn]|[-> Hfds]]); [done|].
  exists w'. split; [done|]. split; [done|]. split; [by apply Hrel|done].
Qed.

End StorageProperties.

Lemma saveSnapshot_appends_witness :
  let s := SnapshotStorage.mkSnapshot 9 2 [x62] in
  let disk := mkWorld (files SnapshotWire.failing_disk)
                      (fds SnapshotWire.failing_disk) [] 0 in
  let p' := fst (snd (SnapshotStorage.SaveSnapshot s
                        (SnapshotWire.one_snapshot, disk))) in
  is_Some (SnapshotStorage.file SnapshotWire.one_snapshot) /\
  SnapshotStorage.file p' = SnapshotStorage.file SnapshotWire.one_snapshot /\
  SnapshotStorage.snapshots p'
    = SnapshotStorage.snapshots SnapshotWire.one_snapshot ++ [s] /\
  SnapshotStorage.LastSnapshot p' = Ok (Some s) /\
  SnapshotStorage.ListSnapshots p'
    = Ok (SnapshotStorage.snapshots SnapshotWire.one_snapshot ++ [s]).
Proof.
  intros s disk p'.
  refine (saveSnapshot_appends s SnapshotWire.one_snapshot disk tt p'
            (snd (snd (SnapshotStorage.SaveSnapshot s
                         (SnapshotWire.one_snapshot, disk)))) _).
  vm_compute. reflexivity.
Defined.

Lemma decode_returns_framed_record_witness :
  let buf := default [] (Marshal (StateStorage.mkState 7 "n2")) in
  let w := mkWorld {["f" := frame buf ++ [x00]]}
                   {[0%nat := mkFD "f" 0 false]} [] 0 in
  exists w',
    Decode 0%nat w = (Ok (StateStorage.mkState 7 "n2"), w') /\
    files w' = files w /\ reliable w' /\
    fds w' = <[0%nat := mkFD "f" (4 + length buf)%nat false]> (fds w).
Proof.
  intros buf w.
  refine (decode_returns_framed_record 0%nat "f" w buf [x00]
            (StateStorage.mkState 7 "n2") _ _ _ _ _).
  - vm_compute. reflexivity.
  - vm_compute. reflexivity.
  - vm_compute. reflexivity.
  - vm_compute. reflexivity.
  - reflexivity.
Defined.

(** ** Further properties of the node *)

Section NodeProperties.
Context {state_codec : ProtoCodec StateStorage.persistentState}.
Context {entry_codec : ProtoCodec Log.LogEntry}.
Context {snapshot_codec : ProtoCodec SnapshotStorage.Snapshot}.
Import Raft.

Hint Resolve noErr_persistTermAndVote noErr_becomeFollower
  noErr_firstOfTerm noErr_reconcile : noerr.

(** The three handlers on a node that was shut down return [errShutdown]
    and change nothing; and [AppendEntries] and [InstallSnapshot] return
    an error in no other case: every failure of a store inside them ends
    the process instead. *)
Theorem handlers_fail_only_after_shutdown r w :
  (state r = Shutdown ->
   (forall request now,
      RequestVote request now (r, w) = (Err errShutdown, (r, w))) /\
   (forall request now,
      AppendEntries request now (r, w) = (Err errShutdown, (r, w))) /\
   (forall request now restored,
      InstallSnapshot request now restored (r, w)
        = (Err errShutdown, (r, w)))) /\
  (forall request now e s',
     AppendEntries request now (r, w) = (Err e, s') ->
     state r = Shutdown /\ e = errShutdown /\ s' = (r, w)) /\
  (forall request now restored e s',
     InstallSnapshot request now restored (r, w) = (Err e, s') ->
     state r = Shutdown /\ e = errShutdown /\ s' = (r, w)).
Proof.
  split; [|split].
  - intros Hs. repeat split; intros;
      unfold RequestVote, AppendEntries, InstallSnapshot, bind, self, gets;
      cbn [fst]; by destruct (decide (state r = Shutdown)).
  - intros request now e s'.
    unfold AppendEntries, bind at 1, self, gets. cbn [fst].
    destruct (decide (state r = Shutdown)).
    { intros E. inversion E; subst. done. }
    destruct (_ <? _); [discriminate|]. absurd_Err.
  - intros request now restored e s'.
    unfold InstallSnapshot, bind at 1, self, gets. cbn [fst].
    destruct (decide (state r = Shutdown)).
    { intros E. inversion E; subst. done. }
    destruct (_ <? _); [discriminate|]. absurd_Err.
Qed.

(** [becomeFollower(leaderID, term)] that returns: the node is a follower
    of [term] that knows [leaderID] as the leader and has no vote; the
    state file holds exactly the record of [term] and the empty vote; the
    log and the two indices are as they were. *)
Theorem becomeFollower_persists_term leaderID term r w u r' w' :
  StateStorage.opened (stateStorage r) w ->
  becomeFollower leaderID term (r, w) = (Ok u, (r', w')) ->
  state r' = Follower /\ currentTerm r' = term /\ votedFor r' = "" /\
  leaderId r' = leaderID /\
  log r' = log r /\ commitIndex r' = commitIndex r /\
  lastApplied r' = lastApplied r /\
  StateStorage.state (stateStorage r') = StateStorage.mkState term "" /\
  exists buf,
    Marshal (StateStorage.mkState term "") = Some buf /\
    files w' !! Join (StateStorage.stateDir (stateStorage r)) "state.bin"
      = Some (frame buf).
Proof.
  intros Hop. unfold becomeFollower. intros H0.
  do 4 (apply bind_Ok in H0 as (? & ? & E & H0); apply update_Ok in E as ->).
  apply bind_Ok in H0 as (? & [r1 w1] & E & H0).
  apply persistTermAndVote_Ok in E
    as (p' & buf & -> & HM & Hst & _ & Hfile & _); [|exact Hop].
  bind_inv H0. apply self_Ok in E as [-> ->].
  apply bind_Ok in H0 as (? & ? & E & H0). apply update_Ok in E as ->.
  apply update_Ok in H0. inversion H0; subst. cbn.
  cbn in HM, Hst, Hfile.
  repeat (split; [done|]). exists buf. done.
Qed.

(** A replicated operation submitted to a leader whose log has room:
    the log gains one entry, at the index after the last, of the current
    term, with the bytes of the operation and the type [OperationEntry];
    the response channel is registered under that index and nothing is
    answered yet. *)
Theorem leader_appends_submitted_operation operation ch r w u r' w' :
  state r = Leader -> Log.contiguous (log r) ->
  Log.lastIndex (log r) < U64.max ->
  SubmitOperation operation Replicated ch (r, w) = (Ok u, (r', w')) ->
  exists e,
    Log.entries (log r') = Log.entries (log r) ++ [e] /\
    Log.Index e = Log.lastIndex (log r) + 1 /\
    Log.Term e = currentTerm r /\ Log.Data e = operation /\
    Log.EntryType e = Log.OperationEntry /\
    pendingReplicated (operationManager r')
      !! (Log.lastIndex (log r) + 1) = Some ch /\
    delivered r' = delivered r /\
    commitIndex r' = commitIndex r /\ lastApplied r' = lastApplied r.
Proof.
  intros Hs Hc Hmax. unfold SubmitOperation, submitReplicatedOperation.
  intros H0. unfold U64.max in Hmax.
  pose proof (contiguous_bounds _ Hc) as (Hb0 & Hb1 & _).
  bind_inv H0. apply self_Ok in E as [-> ->].
  rewrite bool_decide_eq_true_2 in H0 by done. cbn [negb] in H0.
  apply bind_Ok in H0 as (nextIdx & ? & E & H0).
  apply readLog_Ok in E as [-> HN]. rewrite (NextIndex_spec _ Hc) in HN.
  inversion HN; subst nextIdx; clear HN.
  rewrite U64_add_small in H0 by lia.
  apply bind_Ok in H0 as (? & s1 & E & H0). apply orFatal_Ok in E.
  apply onLog_Ok in E as (l' & w1 & -> & HA).
  apply update_Ok in H0. inversion H0; subst; clear H0.
  unfold Log.AppendEntry in HA.
  apply Log_AppendEntries_Ok in HA as (es' & He' & HF & _).
  apply Forall2_cons_inv_l in HF as (e' & rest & Hs' & HF & ->).
  apply Forall2_nil_inv_l in HF as ->.
  destruct Hs' as (Hi & Ht & Hd & Hty). cbn in Hi, Ht, Hd, Hty.
  exists e'. cbn. split; [done|]. split; [done|]. split; [done|].
  split; [done|]. split; [done|]. split; [by rewrite lookup_insert_eq|done].
Qed.

(** An operation submitted to a node that is not the leader changes
    neither the log nor the indices: the only effect is the
    [NotLeaderError] sent on the response channel, with the node's own
    identifier and the leader it knows. *)
Theorem follower_refuses_submitted_operation operation operationType ch r w :
  state r <> Leader ->
  operationType = Replicated \/ operationType = LeaseBasedReadOnly
  \/ operationType = LinearizableReadOnly ->
  SubmitOperation operation operationType ch (r, w)
  = (Ok tt,
     (set_delivered
        (delivered r
         ++ [(ch, mkResponse zeroOperation []
                    (Some (NotLeaderError (id r) (leaderId r))))]) r, w)).
Proof.
  intros Hs Ht.
  unfold SubmitOperation, submitReplicatedOperation, submitReadOnlyOperation,
    bind, self, gets. cbn [fst].
  destruct Ht as [->|[->| ->]]; rewrite bool_decide_eq_false_2 by done;
    reflexivity.
Qed.

(** [InstallSnapshot] that returns a response on a node with a
    well-formed log.  A snapshot at or below the commit index is ignored:
    the log and the two indices stay.  Otherwise either they stay as
    well, or the snapshot is installed: the commit index and
    [lastApplied] are its index and the log, still well formed, reaches
    from there. *)
Theorem installSnapshot_moves_both_indices request now restored r w
    response r' w' :
  Log.contiguous (log r) ->
  U64.valid (InstallSnapshotRequest.LastIncludedIndex request) ->
  InstallSnapshot request now restored (r, w) = (Ok response, (r', w')) ->
  ((log r' = log r /\ commitIndex r' = commitIndex r /\
    lastApplied r' = lastApplied r) \/
   (Log.contiguous (log r') /\
    commitIndex r < InstallSnapshotRequest.LastIncludedIndex request /\
    commitIndex r' = InstallSnapshotRequest.LastIncludedIndex request /\
    lastApplied r' = InstallSnapshotRequest.LastIncludedIndex request /\
    InstallSnapshotRequest.LastIncludedIndex request
      <= Log.lastIndex (log r'))) /\
  (InstallSnapshotRequest.LastIncludedIndex request <= commitIndex r ->
   log r' = log r /\ commitIndex r' = commitIndex r /\
   lastApplied r' = lastApplied r).
Proof.
  intros Hc Hv E.
  pose proof (InstallSnapshot_Ok _ _ _ _ _ _ _ _ Hc Hv E) as Hok.
  split; [exact Hok|]. intros Hle.
  destruct Hok as [Hsame|(_ & Hgt & _)]; [done|lia].
Qed.

End NodeProperties.

Lemma becomeFollower_persists_term_witness :
  let after := snd (Raft.becomeFollower "n2" 4 (Demo.voted_follower, Demo.disk)) in
  Raft.state (fst after) = Raft.Follower /\
  Raft.currentTerm (fst after) = 4 /\ Raft.votedFor (fst after) = "" /\
  Raft.leaderId (fst after) = "n2" /\
  Raft.log (fst after) = Raft.log Demo.voted_follower /\
  Raft.commitIndex (fst after) = Raft.commitIndex Demo.voted_follower /\
  Raft.lastApplied (fst after) = Raft.lastApplied Demo.voted_follower /\
  StateStorage.state (Raft.stateStorage (fst after))
    = StateStorage.mkState 4 "" /\
  exists buf,
    Marshal (StateStorage.mkState 4 "") = Some buf /\
    files (snd after)
      !! Join (StateStorage.stateDir (Raft.stateStorage Demo.voted_follower))
           "state.bin"
      = Some (frame buf).
Proof.
  intros after.
  refine (becomeFollower_persists_term "n2" 4 Demo.voted_follower Demo.disk tt
            (fst after) (snd after) _ _).
  - exists 1%nat. eexists. split; [reflexivity|]. split; reflexivity.
  - vm_compute. reflexivity.
Defined.

Lemma leader_appends_submitted_operation_witness :
  let after :=
    snd (Raft.SubmitOperation [x65] Raft.Replicated 4%nat
           (Demo.leader, Demo.disk)) in
  exists e,
    Log.entries (Raft.log (fst after))
      = Log.entries (Raft.log Demo.leader) ++ [e] /\
    Log.Index e = Log.lastIndex (Raft.log Demo.leader) + 1 /\
    Log.Term e = Raft.currentTerm Demo.leader /\ Log.Data e = [x65] /\
    Log.EntryType e = Log.OperationEntry /\
    Raft.pendingReplicated (Raft.operationManager (fst after))
      !! (Log.lastIndex (Raft.log Demo.leader) + 1) = Some 4%nat /\
    Raft.delivered (fst after) = Raft.delivered Demo.leader /\
    Raft.commitIndex (fst after) = Raft.commitIndex Demo.leader /\
    Raft.lastApplied (fst after) = Raft.lastApplied Demo.leader.
Proof.
  intros after.
  refine (leader_appends_submitted_operation [x65] 4%nat Demo.leader Demo.disk
            tt (fst after) (snd after) _ (proj1 compacted_log_inv) _ _).
  - reflexivity.
  - vm_compute. reflexivity.
  - vm_compute. reflexivity.
Defined.

Lemma follower_refuses_submitted_operation_witness :
  Raft.SubmitOperation [x65] Raft.Replicated 4%nat (Demo.follower, Demo.disk)
  = (Ok tt,
     (Raft.set_delivered
        (Raft.delivered Demo.follower
         ++ [(4%nat, Raft.mkResponse Raft.zeroOperation []
                       (Some (Raft.NotLeaderError (Raft.id Demo.follower)
                                (Raft.leaderId Demo.follower))))])
        Demo.follower, Demo.disk)).
Proof.
  refine (follower_refuses_submitted_operation [x65] Raft.Replicated 4%nat
            Demo.follower Demo.disk _ _).
  - discriminate.
  - left. reflexivity.
Defined.

Lemma installSnapshot_moves_both_indices_witness :
  let after :=
    snd (Raft.InstallSnapshot Demo.snapshot_request 2 true
           (Demo.newcomer, Demo.disk)) in
  ((Raft.log (fst after) = Raft.log Demo.newcomer /\
    Raft.commitIndex (fst after) = Raft.commitIndex Demo.newcomer /\
    Raft.lastApplied (fst after) = Raft.lastApplied Demo.newcomer) \/
   (Log.contiguous (Raft.log (fst after)) /\
    Raft.commitIndex Demo.newcomer < 5 /\
    Raft.commitIndex (fst after) = 5 /\ Raft.lastApplied (fst after) = 5 /\
    5 <= Log.lastIndex (Raft.log (fst after)))) /\
  (5 <= Raft.commitIndex Demo.newcomer ->
   Raft.log (fst after) = Raft.log Demo.newcomer /\
   Raft.commitIndex (fst after) = Raft.commitIndex Demo.newcomer /\
   Raft.lastApplied (fst after) = Raft.lastApplied Demo.newcomer).
Proof.
  intros after.
  refine (installSnapshot_moves_both_indices Demo.snapshot_request 2 true
            Demo.newcomer Demo.disk (Raft.InstallSnapshotResponse.mk 1)
            (fst after) (snd after) _ _ _).
  - destruct (contiguous_singleton (Raft.log Demo.newcomer) _ eq_refl)
      as (Hc & _ & _); [vm_compute; split; [discriminate|reflexivity]|].
    exact Hc.
  - vm_compute. split; [discriminate|reflexivity].
  - vm_compute. reflexivity.
Defined.

(** On the newcomer the snapshot at index 5 is installed: the log is
    its placeholder. *)
Lemma installSnapshot_demo :
  let after :=
    snd (Raft.InstallSnapshot Demo.snapshot_request 2 true
           (Demo.newcomer, Demo.disk)) in
  Raft.commitIndex (fst after) = 5 /\ Raft.lastApplied (fst after) = 5 /\
  Log.entries (Raft.log (fst after)) = [Log.mkEntry 5 1 0 [] Log.NoOpEntry].
Proof. split; [|split]; vm_compute; reflexivity. Qed.
